(** * kev-checker: the cross-reference pipeline, embedded and verified

    A shallow embedding of the Go packages [models], [cache], [clients]
    (KEV, OSV, EPSS) and [scanner].  Remote services, the file system and
    the clock are explicit arguments; Go maps are [gmap]s, slices are
    lists, [float64] is the IEEE-754 specification type [spec_float]. *)

From Stdlib Require Import ZArith String List Lia.
From Stdlib Require Import Init.Byte.
From Stdlib Require Import Floats.SpecFloat.
From Equations Require Import Equations.
From stdpp Require Import gmap strings list fin_maps.

Local Open Scope Z_scope.
Local Open Scope nat_scope.
Local Open Scope list_scope.
Local Open Scope stdpp_scope.

(** ** Go runtime conventions *)

(** Errors: what a library call reported, a non-200 status, or a wrapped
    error ([fmt.Errorf("...: %w", err)]). *)
Inductive error : Type :=
| ErrLib (what : string)
| ErrStatus (prefix : string) (code : Z)
| ErrWrap (msg : string) (cause : error).

(** A Go [(T, error)] result. *)
Inductive result (A : Type) : Type :=
| Ok (a : A)
| Err (e : error).
Arguments Ok {A} a.
Arguments Err {A} e.

(** What an HTTP call and the decoding of its body can yield: no
    response at all, or a status code with a body that decodes or not. *)
Inductive http_reply (A : Type) : Type :=
| TransportError (e : error)
| Reply (status : Z) (body : result A).
Arguments TransportError {A} e.
Arguments Reply {A} status body.

Definition StatusOK : Z := 200.

(** [for j, x := range slice]: a left fold that knows the position. *)
Fixpoint range_slice {A B : Type} (f : B -> nat -> A -> B) (j : nat) (b : B) (l : list A) : B :=
  match l with
  | [] => b
  | x :: l' => range_slice f (S j) (f b j x) l'
  end.

(** The slice expression [l[i:j]] (for [i <= j <= len(l)]). *)
Definition slice {A : Type} (l : list A) (i j : nat) : list A := take (j - i) (drop i l).

(** [float64] values and the two comparisons the scanner uses. *)
Definition float64 : Type := spec_float.
Definition f64_zero : float64 := S754_zero false.
(** Go [a >= b]. *)
Definition f64_ge (a b : float64) : bool := SFleb b a.
(** Go [a > b]. *)
Definition f64_gt (a b : float64) : bool := SFltb b a.
(** Go [a < b]. *)
Definition f64_lt (a b : float64) : bool := SFltb a b.
(** Go [a <= b]. *)
Definition f64_le (a b : float64) : bool := SFleb a b.

Definition f64_is_nan (a : float64) : bool :=
  match a with S754_nan => true | _ => false end.

(** ** package time *)
Module time.

(** An instant, in nanoseconds since the zero [Time]. *)
Definition Time : Type := Z.
Definition zero : Time := 0%Z.

(** A [Duration] is an int64 count of nanoseconds. *)
Definition Duration : Type := Z.
Definition maxDuration : Duration := (2 ^ 63 - 1)%Z.
Definition minDuration : Duration := (- 2 ^ 63)%Z.
Definition Hour : Duration := (3600 * 1000000000)%Z.

(** [t.Sub(u)]: the difference, saturated to the range of a Duration. *)
Definition Sub (t u : Time) : Duration :=
  Z.max minDuration (Z.min maxDuration (t - u)).

(** [time.Since(t)] with the clock reading made explicit. *)
Definition Since (now t : Time) : Duration := Sub now t.

End time.

(** ** package models

    Field names are the source's, except where a Go field shares its
    name with a type of the package: [Finding.Dependency] is [Dep], and
    the type [EPSSScore] is [EPSSScore_t] next to the field
    [KEVInfo.EPSSScore]. *)
Module models.

Record Dependency : Type := {
  Name : string;
  Version : string;
  Ecosystem : string;
  SourceFile : string;
  Line : Z
}.

Record CVEInfo : Type := {
  ID : string;
  Summary : string;
  Source : string
}.

Record KEVInfo : Type := {
  CVEID : string;
  VendorProject : string;
  Product : string;
  VulnerabilityName : string;
  DateAdded : time.Time;
  DueDate : time.Time;
  ShortDescription : string;
  RequiredAction : string;
  RansomwareUse : bool;
  CWEs : list string;
  Notes : string;
  EPSSScore : float64;
  EPSSPercentile : float64
}.

Record EPSSScore_t : Type := {
  Score : float64;
  Percentile : float64
}.

Record Finding : Type := {
  Dep : Dependency;
  CVEs : list CVEInfo;
  KEVs : list KEVInfo
}.

(** [f.HasKEV()] *)
Definition HasKEV (f : Finding) : bool := (0 <? length (KEVs f))%nat.

End models.
Import models.

(** ** package clients: OSV

    The fields of the wire types carry a prefix ([q_], [v_]) to keep them
    apart from the fields of [models].  [json.Marshal] of a request of
    strings does not fail and is left out. *)
Module osv.

Record osvQuery : Type := {
  q_Name : string;
  q_Ecosystem : string;
  q_Version : string
}.

Record osvVulnerability : Type := {
  v_ID : string;
  v_Aliases : list string;
  v_Summary : string;
  v_Details : string;
  v_Severity : list (string * string)
}.

(** [osvBatchResponse.Results]: one list of vulnerabilities per result. *)
Abbreviation osvBatchResponse := (list (list osvVulnerability)).

Definition batchSize : nat := 100.

(** [strings.HasPrefix(s, "CVE-")] *)
Definition hasCVEPrefix (s : string) : bool := String.prefix "CVE-" s.

(** One step of the alias loop of [extractCVEIDs]; the state is the
    [seen] set and the [cves] slice. *)
Definition extract_step (st : gset string * list string) (alias : string)
  : gset string * list string :=
  if hasCVEPrefix alias then
    if decide (alias ∈ st.1) then st
    else ({[alias]} ∪ st.1, st.2 ++ [alias])
  else st.

Definition extractCVEIDs (id : string) (aliases : list string) : list string :=
  (foldl extract_step (extract_step (∅, []) id) aliases).2.

(** [results[j] = append(results[j], info)] *)
Definition append_at (results : gmap nat (list CVEInfo)) (j : nat) (info : CVEInfo)
  : gmap nat (list CVEInfo) :=
  <[j := default [] (results !! j) ++ [info]]> results.

Definition collect_vuln (j : nat) (results : gmap nat (list CVEInfo)) (vuln : osvVulnerability)
  : gmap nat (list CVEInfo) :=
  foldl (fun res cveID =>
           append_at res j {| ID := cveID; Summary := v_Summary vuln; Source := "OSV" |})
        results (extractCVEIDs (v_ID vuln) (v_Aliases vuln)).

Definition collect_result (results : gmap nat (list CVEInfo)) (j : nat) (vulns : list osvVulnerability)
  : gmap nat (list CVEInfo) :=
  foldl (collect_vuln j) results vulns.

(** The body of [queryChunk] after a successful decode. *)
Definition chunk_results (resp : osvBatchResponse) : gmap nat (list CVEInfo) :=
  range_slice collect_result 0 ∅ resp.

Definition mkQuery (dep : Dependency) : osvQuery :=
  {| q_Name := Name dep; q_Ecosystem := Ecosystem dep; q_Version := Version dep |}.

(** [for j, cves := range chunkResults { if len(cves) > 0 { results[i+j] = cves } }]
    The writes go to pairwise distinct keys, so the order in which Go
    visits the map does not matter (see [merge_chunk_any_order]). *)
Definition merge_step (i : nat) (j : nat) (cves : list CVEInfo) (results : gmap nat (list CVEInfo))
  : gmap nat (list CVEInfo) :=
  if (0 <? length cves)%nat then <[(i + j)%nat := cves]> results else results.

Definition merge_chunk (i : nat) (chunkResults results : gmap nat (list CVEInfo))
  : gmap nat (list CVEInfo) :=
  map_fold (merge_step i) results chunkResults.

(** [i + batchSize], clipped to [len(deps)]. *)
Definition chunk_end (i len : nat) : nat :=
  let e := i + batchSize in if decide (len < e) then len else e.

Section Client.

(** The OSV service as seen through [httpClient.Post] and the JSON
    decoder: a request (the list of queries) yields a reply. *)
Variable post : list osvQuery -> http_reply osvBatchResponse.

Definition queryChunk (deps : list Dependency) : result (gmap nat (list CVEInfo)) :=
  match post (map mkQuery deps) with
  | TransportError e => Err e
  | Reply status body =>
      if (status =? StatusOK)%Z then
        match body with
        | Err e => Err e
        | Ok batchResp => Ok (chunk_results batchResp)
        end
      else Err (ErrStatus "OSV API returned status" status)
  end.

(** The chunk loop of [QueryBatch], from start index [i]. *)
Equations? QueryBatch_loop (deps : list Dependency) (i : nat)
           (results : gmap nat (list CVEInfo))
  : result (gmap nat (list CVEInfo)) by wf (length deps - i)%nat lt :=
  QueryBatch_loop deps i results with decide (i < length deps)%nat => {
    | right _ := Ok results;
    | left _ with queryChunk (slice deps i (chunk_end i (length deps))) => {
        | Err e := Err (ErrWrap "failed to query OSV batch" e);
        | Ok chunkResults :=
            QueryBatch_loop deps (i + batchSize)%nat (merge_chunk i chunkResults results) } }.
Proof. unfold batchSize. lia. Qed.

Definition QueryBatch (deps : list Dependency) : result (gmap nat (list CVEInfo)) :=
  if decide (length deps = 0)%nat then Ok ∅ else QueryBatch_loop deps 0 ∅.

End Client.


(** *** What the maps of the OSV client hold, stated on lists *)

(** The CVE records one vulnerability entry contributes. *)
Definition vuln_cves (vuln : osvVulnerability) : list CVEInfo :=
  map (fun cveID => {| ID := cveID; Summary := v_Summary vuln; Source := "OSV" |})
      (extractCVEIDs (v_ID vuln) (v_Aliases vuln)).

(** The CVE records of one result, in the order the loops append them. *)
Definition result_cves (vulns : list osvVulnerability) : list CVEInfo :=
  flat_map vuln_cves vulns.

(** A key is bound only once something was appended under it. *)
Definition nonempty {A : Type} (l : list A) : option (list A) :=
  match l with [] => None | _ => Some l end.

Definition app_opt {A : Type} (o : option (list A)) (l : list A) : option (list A) :=
  match l with [] => o | _ => Some (default [] o ++ l) end.

(** A service that answers every query on its own: one result per
    query, in the order of the queries, with status 200. *)
Definition per_query (respond : osvQuery -> list osvVulnerability)
  : list osvQuery -> http_reply osvBatchResponse :=
  fun queries => Reply StatusOK (Ok (map respond queries)).

(** The CVE records of the dependency at global index [k], if it has any. *)
Definition cves_at (respond : osvQuery -> list osvVulnerability) (deps : list Dependency) (k : nat)
  : option (list CVEInfo) :=
  deps !! k ≫= (fun dep => nonempty (result_cves (respond (mkQuery dep)))).

(** No identifier of any of the vulnerabilities starts with "CVE-". *)
Definition no_cve_ids (vulns : list osvVulnerability) : Prop :=
  Forall (fun vuln => hasCVEPrefix (v_ID vuln) = false
                      /\ Forall (fun alias => hasCVEPrefix alias = false) (v_Aliases vuln))
         vulns.

End osv.

(** ** package clients: EPSS *)
Module epss.

Definition epssURL : string := "https://api.first.org/data/v1/epss".

Record EPSSData : Type := {
  d_CVE : string;
  d_EPSS : string;
  d_Percentile : string;
  d_Date : string
}.

Record EPSSResponse : Type := {
  r_Status : string;
  r_StatusCode : Z;
  r_Version : string;
  r_Total : Z;
  r_Data : list EPSSData
}.

Definition chunkSize : nat := 100.

Definition chunk_end (i len : nat) : nat :=
  let e := i + chunkSize in if decide (len < e) then len else e.

(** [fmt.Sprintf("%s?cve=%s", epssURL, strings.Join(chunk, ","))] *)
Definition chunk_url (chunk : list string) : string :=
  String.append epssURL (String.append "?cve=" (String.concat "," chunk)).

Section Client.

(** The EPSS service: the request issued for the chunk that starts at
    index [i], to the given URL, yields a reply.  The index lets two
    requests for the same URL fare differently. *)
Variable get : nat -> string -> http_reply EPSSResponse.

(** [strconv.ParseFloat(s, 64)]: the value and the error. *)
Variable strconv_ParseFloat : string -> float64 * option error.

(** [scores[data.CVE] = models.EPSSScore{...}] *)
Definition store_row (scores : gmap string EPSSScore_t) (data : EPSSData)
  : gmap string EPSSScore_t :=
  let score := (strconv_ParseFloat (d_EPSS data)).1 in
  let percentile := (strconv_ParseFloat (d_Percentile data)).1 in
  <[d_CVE data := {| Score := score; Percentile := percentile |}]> scores.

(** One iteration of the chunk loop; every failure is a [continue]. *)
Definition fetch_chunk (i : nat) (chunk : list string) (scores : gmap string EPSSScore_t)
  : gmap string EPSSScore_t :=
  match get i (chunk_url chunk) with
  | TransportError _ => scores
  | Reply status body =>
      if (status =? StatusOK)%Z then
        match body with
        | Err _ => scores
        | Ok epssResp => foldl store_row scores (r_Data epssResp)
        end
      else scores
  end.

Equations? FetchScores_loop (cveIDs : list string) (i : nat) (scores : gmap string EPSSScore_t)
  : gmap string EPSSScore_t by wf (length cveIDs - i)%nat lt :=
  FetchScores_loop cveIDs i scores with decide (i < length cveIDs)%nat => {
    | right _ := scores;
    | left _ :=
        FetchScores_loop cveIDs (i + chunkSize)%nat
          (fetch_chunk i (slice cveIDs i (chunk_end i (length cveIDs))) scores) }.
Proof. unfold chunkSize. lia. Qed.

(** Both [return] statements of [FetchScores] carry a nil error. *)
Definition FetchScores (cveIDs : list string) : gmap string EPSSScore_t * option error :=
  if decide (length cveIDs = 0)%nat then (∅, None)
  else (FetchScores_loop cveIDs 0 ∅, None).

End Client.

(** *** The same, stated on the list of chunks *)

(** The chunks of a list, with the index each one starts at. *)
Fixpoint chunks_from {A : Type} (n : nat) (i : nat) (l : list A) (fuel : nat) : list (nat * list A) :=
  match fuel with
  | 0 => []
  | S fuel' =>
      match l with
      | [] => []
      | _ => (i, take n l) :: chunks_from n (i + n) (drop n l) fuel'
      end
  end.

Definition chunks (cveIDs : list string) : list (nat * list string) :=
  chunks_from chunkSize 0 cveIDs (length cveIDs).

(** The rows a request brought back, none when it failed in any way. *)
Definition rows_of (reply : http_reply EPSSResponse) : list EPSSData :=
  match reply with
  | Reply status (Ok epssResp) => if (status =? StatusOK)%Z then r_Data epssResp else []
  | _ => []
  end.

Definition succeeded (reply : http_reply EPSSResponse) : bool :=
  match reply with
  | Reply status (Ok _) => (status =? StatusOK)%Z
  | _ => false
  end.

(** All rows [FetchScores] gets to see, chunk after chunk. *)
Definition fetched_rows (get : nat -> string -> http_reply EPSSResponse) (cveIDs : list string)
  : list EPSSData :=
  flat_map (fun chunk => rows_of (get chunk.1 (chunk_url chunk.2))) (chunks cveIDs).

(** The record [FetchScores] stores for a row. *)
Definition row_score (strconv_ParseFloat : string -> float64 * option error) (row : EPSSData)
  : EPSSScore_t :=
  {| Score := (strconv_ParseFloat (d_EPSS row)).1;
     Percentile := (strconv_ParseFloat (d_Percentile row)).1 |}.

End epss.

(** ** package cache

    [Set] is a reserved word here; the method is [Set_]. *)
Module cache.

(** A regular file: its bytes and its modification time. *)
Record File : Type := {
  data : list byte;
  modTime : time.Time
}.

(** The file system the cache sees: the files by path, and whether a
    write to a path goes through. *)
Record FS : Type := {
  files : gmap string File;
  writable : string -> bool
}.

(** [os.Stat]: the file's info, or an error when there is no such file. *)
Definition os_Stat (fs : FS) (path : string) : result File :=
  match files fs !! path with
  | Some f => Ok f
  | None => Err (ErrLib "stat: no such file or directory")
  end.

(** [os.ReadFile] of a file that can be read when it is there; module
    [cache_io] below has the reads that fail. *)
Definition os_ReadFile (fs : FS) (path : string) : result (list byte) :=
  match files fs !! path with
  | Some f => Ok (data f)
  | None => Err (ErrLib "open: no such file or directory")
  end.

(** [os.WriteFile]: on success the file holds the bytes and carries the
    time of the write as its modification time. The only failure here is
    that of opening the file; module [cache_io] below has the write that
    fails after the file was truncated. *)
Definition os_WriteFile (fs : FS) (now : time.Time) (path : string) (bytes : list byte)
  : option error * FS :=
  if writable fs path then
    (None, {| files := <[path := {| data := bytes; modTime := now |}]> (files fs);
              writable := writable fs |})
  else (Some (ErrLib "open: permission denied"), fs).

Record Cache : Type := {
  Dir : string;
  TTL : time.Duration
}.

Definition DefaultTTL : time.Duration := (24 * time.Hour)%Z.

Section Store.

Variable sha256_Sum256 : string -> list byte.
Variable hex_EncodeToString : list byte -> string.
Variable filepath_Join : string -> string -> string.

(** [New], given what [os.UserHomeDir] and [os.MkdirAll] answer. *)
Definition New (userHomeDir : result string) (mkdirAll : string -> option error)
           (appName : string) (ttl : time.Duration) : result Cache :=
  match userHomeDir with
  | Err e => Err e
  | Ok homeDir =>
      let cacheDir := filepath_Join (filepath_Join homeDir ".cache") appName in
      match mkdirAll cacheDir with
      | Some e => Err e
      | None =>
          let ttl := if (ttl =? 0)%Z then DefaultTTL else ttl in
          Ok {| Dir := cacheDir; TTL := ttl |}
      end
  end.

Definition keyToFilename (key : string) : string :=
  let hash := sha256_Sum256 key in
  String.append (hex_EncodeToString (take 16 hash)) ".json".

Definition Path (c : Cache) (key : string) : string :=
  filepath_Join (Dir c) (keyToFilename key).

(** [Get], at clock reading [now]. The first component is [nil] when
    the second is [false]. *)
Definition Get (c : Cache) (fs : FS) (now : time.Time) (key : string) : list byte * bool :=
  let path := Path c key in
  match os_Stat fs path with
  | Err _ => ([], false)
  | Ok info =>
      if (TTL c <? time.Since now (modTime info))%Z then ([], false)
      else
        match os_ReadFile fs path with
        | Err _ => ([], false)
        | Ok bytes => (bytes, true)
        end
  end.

(** [Set], at clock reading [now]. *)
Definition Set_ (c : Cache) (fs : FS) (now : time.Time) (key : string) (bytes : list byte)
  : option error * FS :=
  let path := Path c key in
  os_WriteFile fs now path bytes.

End Store.

End cache.

(** ** package clients: KEV *)
Module kev.

Definition kevURL : string :=
  "https://raw.githubusercontent.com/cisagov/kev-data/main/known_exploited_vulnerabilities.json".

Record VulnerabilityJSON : Type := {
  j_CVEID : string;
  j_VendorProject : string;
  j_Product : string;
  j_VulnerabilityName : string;
  j_DateAdded : string;
  j_ShortDescription : string;
  j_RequiredAction : string;
  j_DueDate : string;
  j_KnownRansomwareCampaignUse : string;
  j_Notes : string;
  j_CWEs : list string
}.

Record KEVResponse : Type := {
  Title : string;
  CatalogVersion : string;
  DateReleased : string;
  Count : Z;
  Vulnerabilities : list VulnerabilityJSON
}.

Section Client.

(** [json.Unmarshal] into a [KEVResponse]. *)
Variable json_Unmarshal : list byte -> result KEVResponse.

(** [time.Parse(layout, value)]: the time and the error. *)
Variable time_Parse : string -> string -> time.Time * option error.

Variable sha256_Sum256 : string -> list byte.
Variable hex_EncodeToString : list byte -> string.
Variable filepath_Join : string -> string -> string.

(** Package [time]: a failed [Parse] returns the zero [Time]. *)
Definition time_Parse_law : Prop :=
  forall layout value e,
    (time_Parse layout value).2 = Some e -> (time_Parse layout value).1 = time.zero.

(** The loop body of [parseKEVData]: the entry built from [v].  The two
    EPSS fields are not set and hold the zero value. *)
Definition toKEVInfo (v : VulnerabilityJSON) : KEVInfo :=
  {| CVEID := j_CVEID v;
     VendorProject := j_VendorProject v;
     Product := j_Product v;
     VulnerabilityName := j_VulnerabilityName v;
     DateAdded := (time_Parse "2006-01-02" (j_DateAdded v)).1;
     DueDate := (time_Parse "2006-01-02" (j_DueDate v)).1;
     ShortDescription := j_ShortDescription v;
     RequiredAction := j_RequiredAction v;
     RansomwareUse := String.eqb (j_KnownRansomwareCampaignUse v) "Known";
     CWEs := j_CWEs v;
     Notes := j_Notes v;
     EPSSScore := f64_zero;
     EPSSPercentile := f64_zero |}.

(** [catalog[v.CVEID] = kev] *)
Definition add_entry (catalog : gmap string KEVInfo) (v : VulnerabilityJSON)
  : gmap string KEVInfo :=
  <[j_CVEID v := toKEVInfo v]> catalog.

Definition build_catalog (vulns : list VulnerabilityJSON) : gmap string KEVInfo :=
  foldl add_entry ∅ vulns.

Definition parseKEVData (bytes : list byte) : result (gmap string KEVInfo) :=
  match json_Unmarshal bytes with
  | Err e => Err (ErrWrap "failed to parse KEV data" e)
  | Ok kevResp => Ok (build_catalog (Vulnerabilities kevResp))
  end.

(** [FetchKEVCatalog]: [c] is the client's cache ([None] for nil),
    [http_get] what [httpClient.Get(kevURL)] and [io.ReadAll] yield,
    [now] the clock reading.  Returns the result and the file system
    the call leaves behind.  [var data []byte] is [None] while nil. *)
Definition FetchKEVCatalog (c : option cache.Cache) (fs : cache.FS) (now : time.Time)
           (http_get : string -> http_reply (list byte))
  : result (gmap string KEVInfo) * cache.FS :=
  let Get := cache.Get sha256_Sum256 hex_EncodeToString filepath_Join in
  let Set_ := cache.Set_ sha256_Sum256 hex_EncodeToString filepath_Join in
  let cached : option (list byte) :=
    match c with
    | Some c => match Get c fs now kevURL with
                | (bytes, true) => Some bytes
                | (_, false) => None
                end
    | None => None
    end in
  match cached with
  | Some bytes => (parseKEVData bytes, fs)
  | None =>
      match http_get kevURL with
      | TransportError e => (Err (ErrWrap "failed to fetch KEV data" e), fs)
      | Reply status body =>
          if (status =? StatusOK)%Z then
            match body with
            | Err e => (Err (ErrWrap "failed to read response body" e), fs)
            | Ok bytes =>
                let fs' := match c with
                           | Some c => (Set_ c fs now kevURL bytes).2
                           | None => fs
                           end in
                (parseKEVData bytes, fs')
            end
          else (Err (ErrStatus "unexpected status code" status), fs)
      end
  end.

End Client.

End kev.

(** ** package scanner *)
Module scanner.

Record Config : Type := {
  Paths : list string;
  OutputFormat : string;
  OutputFile : string;
  FailOnKEV : bool;
  EPSSThreshold : float64;
  CacheTTL : time.Duration;
  NoCache : bool;
  Timeout : time.Duration;
  MaxConcurrent : Z
}.

(** The fields of [Scanner] the scan reads: the configuration and the
    KEV client's cache ([None] for nil).  The three clients' HTTP ends
    are in the [World]. *)
Record Scanner : Type := {
  config : Config;
  kev_cache : option cache.Cache
}.

(** What a call of [Scan] meets outside the process. *)
Record World : Type := {
  (** the outcome of [discoverDependencies] (file walk and parsers) *)
  w_discover : result (list Dependency);
  w_fs : cache.FS;
  w_now : time.Time;
  w_kev_get : string -> http_reply (list byte);
  w_osv_post : list osv.osvQuery -> http_reply osv.osvBatchResponse;
  w_epss_get : nat -> string -> http_reply epss.EPSSResponse;
  (** the order in which [range cvesByDep] visits the map *)
  w_range : gmap nat (list CVEInfo) -> list (nat * list CVEInfo)
}.

(** Go leaves the iteration order of a map unspecified: any order that
    visits each entry once. *)
Definition range_order_ok (range : gmap nat (list CVEInfo) -> list (nat * list CVEInfo)) : Prop :=
  forall m, range m ≡ₚ map_to_list m.

(** How a call ends: with findings and a nil error, with an error, or in
    a run-time panic (index out of range). *)
Inductive outcome : Type :=
| Returned (findings : list Finding)
| Failed (e : error)
| Panicked.

(** A run of [Scan]: how it ended, the file system it left, and the
    argument of each call of the EPSS client's [FetchScores]. *)
Record Run : Type := {
  run_outcome : outcome;
  run_fs : cache.FS;
  run_epss_calls : list (list string)
}.

(** *** Step 4: cross-reference *)

(** The inner loop: one CVE of the dependency against the catalog.  The
    state is [finding.KEVs] and [allKEVCVEs]. *)
Definition check_cve (kevCatalog : gmap string KEVInfo)
           (st : list KEVInfo * list string) (cve : CVEInfo) : list KEVInfo * list string :=
  match kevCatalog !! ID cve with
  | Some kevInfo => (st.1 ++ [kevInfo], st.2 ++ [ID cve])
  | None => st
  end.

(** The outer loop body, for the map entry [(depIdx, cves)].  The state
    is [findings] and [allKEVCVEs]; [deps[depIdx]] panics out of range. *)
Definition cross_step (deps : list Dependency) (kevCatalog : gmap string KEVInfo)
           (st : option (list Finding * list string)) (entry : nat * list CVEInfo)
  : option (list Finding * list string) :=
  match st with
  | None => None
  | Some (findings, allKEVCVEs) =>
      let (depIdx, cves) := entry in
      match deps !! depIdx with
      | None => None
      | Some dep =>
          let (kevs, allKEVCVEs') := foldl (check_cve kevCatalog) ([], allKEVCVEs) cves in
          let finding := {| Dep := dep; CVEs := cves; KEVs := kevs |} in
          if (0 <? length kevs)%nat
          then Some (findings ++ [finding], allKEVCVEs')
          else Some (findings, allKEVCVEs')
      end
  end.

(** The cross-reference stage over the visiting order [visit] of
    [cvesByDep]; [None] is a panic. *)
Definition crossReference (deps : list Dependency) (kevCatalog : gmap string KEVInfo)
           (visit : list (nat * list CVEInfo)) : option (list Finding * list string) :=
  foldl (cross_step deps kevCatalog) (Some ([], [])) visit.

(** *** Step 5: enrichment *)

(** The two assignments under [if score, ok := epssScores[...]; ok]. *)
Definition enrich_kev (epssScores : gmap string EPSSScore_t) (k : KEVInfo) : KEVInfo :=
  match epssScores !! CVEID k with
  | Some score =>
      {| CVEID := CVEID k;
         VendorProject := VendorProject k;
         Product := Product k;
         VulnerabilityName := VulnerabilityName k;
         DateAdded := DateAdded k;
         DueDate := DueDate k;
         ShortDescription := ShortDescription k;
         RequiredAction := RequiredAction k;
         RansomwareUse := RansomwareUse k;
         CWEs := CWEs k;
         Notes := Notes k;
         EPSSScore := Score score;
         EPSSPercentile := Percentile score |}
  | None => k
  end.

Definition enrich_finding (epssScores : gmap string EPSSScore_t) (f : Finding) : Finding :=
  {| Dep := Dep f; CVEs := CVEs f; KEVs := map (enrich_kev epssScores) (KEVs f) |}.

(** The in-place update of every [findings[i].KEVs[j]]. *)
Definition enrich (epssScores : gmap string EPSSScore_t) (findings : list Finding) : list Finding :=
  map (enrich_finding epssScores) findings.

(** [if len(allKEVCVEs) > 0 { ... }], given the client's [FetchScores];
    also returns the arguments [FetchScores] was called with. *)
Definition enrichStage (FetchScores : list string -> gmap string EPSSScore_t * option error)
           (findings : list Finding) (allKEVCVEs : list string)
  : list Finding * list (list string) :=
  if (0 <? length allKEVCVEs)%nat then
    let epssScores := (FetchScores allKEVCVEs).1 in
    (enrich epssScores findings, [allKEVCVEs])
  else (findings, []).

(** *** Step 6: threshold filter *)

Definition keep_kev (threshold : float64) (filteredKEVs : list KEVInfo) (k : KEVInfo)
  : list KEVInfo :=
  if f64_ge (EPSSScore k) threshold then filteredKEVs ++ [k] else filteredKEVs.

Definition filterKEVs (threshold : float64) (kevs : list KEVInfo) : list KEVInfo :=
  foldl (keep_kev threshold) [] kevs.

Definition keep_finding (threshold : float64) (filtered : list Finding) (f : Finding)
  : list Finding :=
  let filteredKEVs := filterKEVs threshold (KEVs f) in
  if (0 <? length filteredKEVs)%nat
  then filtered ++ [{| Dep := Dep f; CVEs := CVEs f; KEVs := filteredKEVs |}]
  else filtered.

Definition filterFindings (threshold : float64) (findings : list Finding) : list Finding :=
  foldl (keep_finding threshold) [] findings.

(** [if s.config.EPSSThreshold > 0 { ... findings = filtered }] *)
Definition filterStage (threshold : float64) (findings : list Finding) : list Finding :=
  if f64_gt threshold f64_zero then filterFindings threshold findings else findings.

(** *** The stages, stated on lists *)

(** The catalog entries the CVEs of one dependency match, in order. *)
Definition matched_kevs (kevCatalog : gmap string KEVInfo) (cves : list CVEInfo) : list KEVInfo :=
  omap (fun cve => kevCatalog !! ID cve) cves.

(** The IDs recorded for them in [allKEVCVEs]. *)
Definition matched_ids (kevCatalog : gmap string KEVInfo) (cves : list CVEInfo) : list string :=
  omap (fun cve => (fun _ => ID cve) <$> kevCatalog !! ID cve) cves.

(** The finding the map entry [(depIdx, cves)] gives rise to, if any. *)
Definition mk_finding (deps : list Dependency) (kevCatalog : gmap string KEVInfo)
           (entry : nat * list CVEInfo) : option Finding :=
  dep ← deps !! entry.1;
  let kevs := matched_kevs kevCatalog entry.2 in
  if (0 <? length kevs)%nat
  then Some {| Dep := dep; CVEs := entry.2; KEVs := kevs |}
  else None.

(** The entries of [cvesByDep] by ascending dependency index. *)
Definition ascending (n : nat) (cvesByDep : gmap nat (list CVEInfo)) : list (nat * list CVEInfo) :=
  omap (fun k => (fun cves => (k, cves)) <$> cvesByDep !! k) (seq 0 n).

(** The findings in the order of the dependency list. *)
Definition findings_by_index (deps : list Dependency) (kevCatalog : gmap string KEVInfo)
           (cvesByDep : gmap nat (list CVEInfo)) : list Finding :=
  omap (mk_finding deps kevCatalog) (ascending (length deps) cvesByDep).

(** What the filter keeps of one finding, if anything. *)
Definition retained (threshold : float64) (k : KEVInfo) : bool := f64_ge (EPSSScore k) threshold.

Definition filter_finding (threshold : float64) (f : Finding) : option Finding :=
  let kept := List.filter (retained threshold) (KEVs f) in
  if (0 <? length kept)%nat
  then Some {| Dep := Dep f; CVEs := CVEs f; KEVs := kept |}
  else None.

(** The number of KEV entries a list of findings holds. *)
Definition total_kevs (findings : list Finding) : nat :=
  foldr (fun f n => length (KEVs f) + n) 0 findings.

Section Scan.

Variable json_Unmarshal : list byte -> result kev.KEVResponse.
Variable time_Parse : string -> string -> time.Time * option error.
Variable strconv_ParseFloat : string -> float64 * option error.
Variable sha256_Sum256 : string -> list byte.
Variable hex_EncodeToString : list byte -> string.
Variable filepath_Join : string -> string -> string.

Definition FetchKEVCatalog (s : Scanner) (w : World) : result (gmap string KEVInfo) * cache.FS :=
  kev.FetchKEVCatalog json_Unmarshal time_Parse sha256_Sum256 hex_EncodeToString filepath_Join
    (kev_cache s) (w_fs w) (w_now w) (w_kev_get w).

Definition FetchScores (w : World) : list string -> gmap string EPSSScore_t * option error :=
  epss.FetchScores (w_epss_get w) strconv_ParseFloat.

(** Steps 4 to 6, from the dependencies, the catalog and the OSV map. *)
Definition crossref_to_filter (s : Scanner) (w : World) (deps : list Dependency)
           (kevCatalog : gmap string KEVInfo) (cvesByDep : gmap nat (list CVEInfo))
  : outcome * list (list string) :=
  match crossReference deps kevCatalog (w_range w cvesByDep) with
  | None => (Panicked, [])
  | Some (findings, allKEVCVEs) =>
      let (findings, calls) := enrichStage (FetchScores w) findings allKEVCVEs in
      (Returned (filterStage (EPSSThreshold (config s)) findings), calls)
  end.

Definition Scan (s : Scanner) (w : World) : Run :=
  match w_discover w with
  | Err e =>
      {| run_outcome := Failed (ErrWrap "failed to discover dependencies" e);
         run_fs := w_fs w; run_epss_calls := [] |}
  | Ok deps =>
      if decide (length deps = 0) then
        {| run_outcome := Returned []; run_fs := w_fs w; run_epss_calls := [] |}
      else
        match FetchKEVCatalog s w with
        | (Err e, fs) =>
            {| run_outcome := Failed (ErrWrap "failed to fetch KEV catalog" e);
               run_fs := fs; run_epss_calls := [] |}
        | (Ok kevCatalog, fs) =>
            match osv.QueryBatch (w_osv_post w) deps with
            | Err e =>
                {| run_outcome := Failed (ErrWrap "failed to query OSV" e);
                   run_fs := fs; run_epss_calls := [] |}
            | Ok cvesByDep =>
                let (out, calls) := crossref_to_filter s w deps kevCatalog cvesByDep in
                {| run_outcome := out; run_fs := fs; run_epss_calls := calls |}
            end
        end
  end.

End Scan.

End scanner.

(** ** A concrete world

    Scenario A of the specification and variations of it: django 3.1.0
    with CVE-2021-3281 in the KEV catalog, a dependency whose advisory
    has no CVE alias, and lodash with a CVE of its own. *)
Module example.

(** 0.5 and 1 as binary64 values. *)
Definition half : float64 := S754_finite false 4503599627370496 (-53).
Definition one : float64 := S754_finite false 4503599627370496 (-52).

Definition strconv_ParseFloat (s : string) : float64 * option error :=
  if String.eqb s "0.5" then (half, None)
  else if String.eqb s "NaN" then (S754_nan, None)
  else (f64_zero, Some (ErrLib "strconv.ParseFloat: invalid syntax")).

Definition time_Parse (layout value : string) : time.Time * option error :=
  if String.eqb value "2021-11-03" then (63771494400000000000%Z, None)
  else (time.zero, Some (ErrLib "parsing time: cannot parse")).

Definition sha256_Sum256 (key : string) : list byte := repeat x00 32.
Definition hex_EncodeToString (bytes : list byte) : string :=
  "00000000000000000000000000000000".
Definition filepath_Join (dir name : string) : string :=
  String.append dir (String.append "/" name).

Definition kev_entry (cve vendor dateAdded dueDate ransomware : string) : kev.VulnerabilityJSON :=
  {| kev.j_CVEID := cve;
     kev.j_VendorProject := vendor;
     kev.j_Product := "product";
     kev.j_VulnerabilityName := "name";
     kev.j_DateAdded := dateAdded;
     kev.j_ShortDescription := "description";
     kev.j_RequiredAction := "Apply updates per vendor instructions.";
     kev.j_DueDate := dueDate;
     kev.j_KnownRansomwareCampaignUse := ransomware;
     kev.j_Notes := "";
     kev.j_CWEs := [] |}.

(** CVE-2021-3281 occurs twice; the first occurrence has a due date
    that does not parse. *)
Definition vulnerabilities : list kev.VulnerabilityJSON :=
  [ kev_entry "CVE-2021-3281" "Django (old entry)" "2021-11-03" "03/11/2021" "Unknown";
    kev_entry "CVE-2021-23337" "Lodash" "2021-11-03" "2021-11-03" "Known";
    kev_entry "CVE-2021-3281" "Django" "2021-11-03" "2021-11-03" "Unknown" ].

Definition kevResp : kev.KEVResponse :=
  {| kev.Title := "CISA Catalog of Known Exploited Vulnerabilities";
     kev.CatalogVersion := "2021.11.03";
     kev.DateReleased := "2021-11-03";
     kev.Count := 3;
     kev.Vulnerabilities := vulnerabilities |}.

Definition document : list byte := [x7b; x7d].

Definition json_Unmarshal (bytes : list byte) : result kev.KEVResponse :=
  match bytes with
  | [] => Err (ErrLib "unexpected end of JSON input")
  | _ => Ok kevResp
  end.

Definition kevCatalog : gmap string KEVInfo := kev.build_catalog time_Parse vulnerabilities.

Definition dep (name version ecosystem file : string) : Dependency :=
  {| Name := name; Version := version; Ecosystem := ecosystem; SourceFile := file; Line := 0 |}.

Definition django : Dependency := dep "django" "3.1.0" "PyPI" "requirements.txt".
Definition requests : Dependency := dep "requests" "2.25.0" "PyPI" "requirements.txt".
Definition lodash : Dependency := dep "lodash" "4.17.20" "npm" "package.json".
Definition django_again : Dependency := dep "django" "3.1.0" "PyPI" "pyproject.toml".

Definition deps : list Dependency := [django; requests; lodash].
Definition deps_twice : list Dependency := [django; django_again].

Definition advisory (id : string) (aliases : list string) : osv.osvVulnerability :=
  {| osv.v_ID := id; osv.v_Aliases := aliases; osv.v_Summary := "summary";
     osv.v_Details := ""; osv.v_Severity := [] |}.

Definition respond (q : osv.osvQuery) : list osv.osvVulnerability :=
  if String.eqb (osv.q_Name q) "django" then [advisory "GHSA-fvgf-6h6h-3322" ["CVE-2021-3281"]]
  else if String.eqb (osv.q_Name q) "lodash" then [advisory "CVE-2021-23337" ["GHSA-35jh-r3h4-6jhm"]]
  else if String.eqb (osv.q_Name q) "requests" then [advisory "GHSA-only-0000-0000" []]
  else [].

Definition cve (id : string) : CVEInfo := {| ID := id; Summary := "summary"; Source := "OSV" |}.

Definition cvesByDep : gmap nat (list CVEInfo) :=
  <[0 := [cve "CVE-2021-3281"]]> (<[2 := [cve "CVE-2021-23337"]]> ∅).

Definition epss_row (epss_value : string) : epss.EPSSData :=
  {| epss.d_CVE := "CVE-2021-3281"; epss.d_EPSS := epss_value;
     epss.d_Percentile := "0.5"; epss.d_Date := "2021-11-03" |}.

Definition epss_reply (epss_value : string) : http_reply epss.EPSSResponse :=
  Reply 200 (Ok {| epss.r_Status := "OK"; epss.r_StatusCode := 200; epss.r_Version := "1.0";
                   epss.r_Total := 1; epss.r_Data := [epss_row epss_value] |}).

Definition epss_up (i : nat) (url : string) : http_reply epss.EPSSResponse := epss_reply "0.5".
Definition epss_nan (i : nat) (url : string) : http_reply epss.EPSSResponse := epss_reply "NaN".
Definition epss_down (i : nat) (url : string) : http_reply epss.EPSSResponse :=
  TransportError (ErrLib "dial tcp: connection refused").

Definition empty_disk : cache.FS := {| cache.files := ∅; cache.writable := fun _ => true |}.

Definition the_cache : cache.Cache :=
  {| cache.Dir := "/home/user/.cache/kev-checker"; cache.TTL := cache.DefaultTTL |}.

Definition world (found : list Dependency)
           (epss_get : nat -> string -> http_reply epss.EPSSResponse)
           (range : gmap nat (list CVEInfo) -> list (nat * list CVEInfo)) : scanner.World :=
  {| scanner.w_discover := Ok found;
     scanner.w_fs := empty_disk;
     scanner.w_now := 63771494400000000000%Z;
     scanner.w_kev_get := fun _ => Reply 200 (Ok document);
     scanner.w_osv_post := osv.per_query respond;
     scanner.w_epss_get := epss_get;
     scanner.w_range := range |}.

Definition the_scanner (threshold : float64) : scanner.Scanner :=
  {| scanner.config :=
       {| scanner.Paths := ["."];
          scanner.OutputFormat := "terminal";
          scanner.OutputFile := "";
          scanner.FailOnKEV := true;
          scanner.EPSSThreshold := threshold;
          scanner.CacheTTL := cache.DefaultTTL;
          scanner.NoCache := false;
          scanner.Timeout := (60 * 1000000000)%Z;
          scanner.MaxConcurrent := 10 |};
     scanner.kev_cache := Some the_cache |}.

Definition Scan : scanner.Scanner -> scanner.World -> scanner.Run :=
  scanner.Scan json_Unmarshal time_Parse strconv_ParseFloat
               sha256_Sum256 hex_EncodeToString filepath_Join.

Definition FetchKEVCatalog : scanner.Scanner -> scanner.World
                             -> result (gmap string KEVInfo) * cache.FS :=
  scanner.FetchKEVCatalog json_Unmarshal time_Parse
                          sha256_Sum256 hex_EncodeToString filepath_Join.

Definition cvesByDep_twice : gmap nat (list CVEInfo) :=
  <[0 := [cve "CVE-2021-3281"]]> (<[1 := [cve "CVE-2021-3281"]]> ∅).

(** The findings of the cross-reference stage ([[]] on a panic). *)
Definition crossref_findings (found : list Dependency) (visit : list (nat * list CVEInfo))
  : list Finding :=
  default [] (fst <$> scanner.crossReference found kevCatalog visit).

(** The KEV entry of django once a NaN score has been written into it. *)
Definition kev_nan : KEVInfo :=
  scanner.enrich_kev {[ "CVE-2021-3281" := {| Score := S754_nan; Percentile := half |} ]}
                     (kev.toKEVInfo time_Parse
                        (kev_entry "CVE-2021-3281" "Django" "2021-11-03" "2021-11-03" "Unknown")).

End example.

(** ** package cache: [Clear] *)
Module cache_clear.
Import cache.

(** An [os.DirEntry], as far as [Clear] looks at it. *)
Record DirEntry : Type := {
  Name : string;
  IsDir : bool
}.

(** [os.Remove]: the file is gone when the removal goes through;
    [removable] says for which paths it does. *)
Definition os_Remove (removable : string -> bool) (fs : FS) (path : string) : option error * FS :=
  match files fs !! path with
  | None => (Some (ErrLib "remove: no such file or directory"), fs)
  | Some _ =>
      if removable path then
        (None, {| files := delete path (files fs); writable := writable fs |})
      else (Some (ErrLib "remove: permission denied"), fs)
  end.

Section Clear.

Variable filepath_Join : string -> string -> string.

(** What [os.ReadDir] answers for a directory. *)
Variable os_ReadDir : string -> result (list DirEntry).
Variable removable : string -> bool.

(** The loop body: the error of [os.Remove] is dropped. *)
Definition remove_entry (c : Cache) (fs : FS) (entry : DirEntry) : FS :=
  if negb (IsDir entry)
  then (os_Remove removable fs (filepath_Join (Dir c) (Name entry))).2
  else fs.

Definition Clear (c : Cache) (fs : FS) : option error * FS :=
  match os_ReadDir (Dir c) with
  | Err e => (Some e, fs)
  | Ok entries => (None, foldl (remove_entry c) fs entries)
  end.

End Clear.

End cache_clear.

(** ** package cache: the file operations with their failure modes

    [os.ReadFile] can fail on a file that [os.Stat] has found, and
    [os.WriteFile] opens the file with [O_TRUNC] before it writes, so a
    write that fails part-way leaves a shorter file behind. Module
    [cache] above is the case in which every read of a present file
    succeeds and a write can only fail on opening the file. *)
Module cache_io.
Import cache.

(** How a call of [os.WriteFile] ends: all bytes written; the file
    could not be opened or created, and nothing changes; or the file was
    opened, hence truncated, and the write or the close failed after the
    first [n] bytes. *)
Inductive write_outcome : Type :=
| Written
| OpenFailed (e : error)
| WriteFailed (n : nat) (e : error).

Section Store.

Variable sha256_Sum256 : string -> list byte.
Variable hex_EncodeToString : list byte -> string.
Variable filepath_Join : string -> string -> string.

(** The error, if any, with which reading the file at a path fails
    (permissions, an I/O error). *)
Variable read_error : string -> option error.

(** How writing the file at a path ends. *)
Variable write_to : string -> write_outcome.

Definition os_ReadFile (fs : FS) (path : string) : result (list byte) :=
  match files fs !! path with
  | None => Err (ErrLib "open: no such file or directory")
  | Some f =>
      match read_error path with
      | Some e => Err e
      | None => Ok (data f)
      end
  end.

Definition os_WriteFile (fs : FS) (now : time.Time) (path : string) (bytes : list byte)
  : option error * FS :=
  match write_to path with
  | OpenFailed e => (Some e, fs)
  | WriteFailed n e =>
      (Some e, {| files := <[path := {| data := take n bytes; modTime := now |}]> (files fs);
                  writable := writable fs |})
  | Written =>
      (None, {| files := <[path := {| data := bytes; modTime := now |}]> (files fs);
                writable := writable fs |})
  end.

(** [Get], at clock reading [now]. *)
Definition Get (c : Cache) (fs : FS) (now : time.Time) (key : string) : list byte * bool :=
  let path := Path sha256_Sum256 hex_EncodeToString filepath_Join c key in
  match os_Stat fs path with
  | Err _ => ([], false)
  | Ok info =>
      if (TTL c <? time.Since now (modTime info))%Z then ([], false)
      else
        match os_ReadFile fs path with
        | Err _ => ([], false)
        | Ok bytes => (bytes, true)
        end
  end.

(** [Set], at clock reading [now]. *)
Definition Set_ (c : Cache) (fs : FS) (now : time.Time) (key : string) (bytes : list byte)
  : option error * FS :=
  let path := Path sha256_Sum256 hex_EncodeToString filepath_Join c key in
  os_WriteFile fs now path bytes.

End Store.

End cache_io.

(** ** package parsers

    [strings.HasSuffix] and [strings.TrimPrefix] on byte strings. *)
Module parsers.

Definition HasSuffix (s suffix : string) : bool :=
  (String.length suffix <=? String.length s)
  && String.eqb (String.substring (String.length s - String.length suffix)
                                  (String.length suffix) s) suffix.

Definition TrimPrefix (s prefix : string) : string :=
  if String.prefix prefix s
  then String.substring (String.length prefix) (String.length s - String.length prefix) s
  else s.

(** The [Parser] interface. *)
Record Parser : Type := {
  CanParse : string -> bool;
  Parse : string -> list byte -> result (list Dependency)
}.

Definition EcosystemPyPI : string := "PyPI".
Definition EcosystemNpm : string := "npm".
Definition EcosystemGo : string := "Go".

Definition PythonRequirements_CanParse (filename : string) : bool :=
  String.eqb filename "requirements.txt"
  || HasSuffix filename "-requirements.txt"
  || HasSuffix filename "_requirements.txt"
  || String.eqb filename "requirements-dev.txt"
  || String.eqb filename "requirements-test.txt".

Definition PythonPyProject_CanParse (filename : string) : bool :=
  String.eqb filename "pyproject.toml".

Definition NodePackageLock_CanParse (filename : string) : bool :=
  String.eqb filename "package-lock.json".

Definition NodePackageJSON_CanParse (filename : string) : bool :=
  String.eqb filename "package.json".

Definition GoMod_CanParse (filename : string) : bool :=
  String.eqb filename "go.mod".

(** *** go.mod *)

(** A [modfile.Require]: module path and version, and the indirect mark. *)
Record Require : Type := {
  Mod_Path : string;
  Mod_Version : string;
  Indirect : bool
}.

Section GoMod.

(** [modfile.Parse(filepath, content, nil)], as far as [mod.Require]. *)
Variable modfile_Parse : string -> list byte -> result (list Require).

(** The field of [GoModParser]. *)
Variable IncludeIndirect : bool.

Definition gomod_step (filepath : string) (deps : list Dependency) (req : Require)
  : list Dependency :=
  if Indirect req && negb IncludeIndirect then deps
  else
    let version := TrimPrefix (Mod_Version req) "v" in
    deps ++ [{| models.Name := Mod_Path req;
                Version := version;
                Ecosystem := EcosystemGo;
                SourceFile := filepath;
                Line := 0 |}].

Definition GoMod_Parse (filepath : string) (content : list byte) : result (list Dependency) :=
  match modfile_Parse filepath content with
  | Err e => Err e
  | Ok requires => Ok (foldl (gomod_step filepath) [] requires)
  end.

End GoMod.

(** *** package.json *)

Definition cleanNpmVersion (version : string) : string :=
  let version := TrimPrefix version "^" in
  let version := TrimPrefix version "~" in
  let version := TrimPrefix version ">=" in
  let version := TrimPrefix version ">" in
  let version := TrimPrefix version "<=" in
  let version := TrimPrefix version "<" in
  let version := TrimPrefix version "=" in
  version.

(** The characters with which a range operator of npm starts. *)
Definition operator_starts : list string := ["^"; "~"; ">"; "<"; "="]%string.

(** *** The registered parsers *)
Section Registry.

(** The [Parse] methods that are not embedded here. *)
Variable PythonRequirements_Parse : string -> list byte -> result (list Dependency).
Variable PythonPyProject_Parse : string -> list byte -> result (list Dependency).
Variable NodePackageLock_Parse : string -> list byte -> result (list Dependency).
Variable NodePackageJSON_Parse : string -> list byte -> result (list Dependency).
Variable modfile_Parse : string -> list byte -> result (list Require).

(** [&GoModParser{}] has [IncludeIndirect] false. *)
Definition GetAllParsers : list Parser :=
  [ {| CanParse := PythonRequirements_CanParse; Parse := PythonRequirements_Parse |};
    {| CanParse := PythonPyProject_CanParse; Parse := PythonPyProject_Parse |};
    {| CanParse := NodePackageLock_CanParse; Parse := NodePackageLock_Parse |};
    {| CanParse := NodePackageJSON_CanParse; Parse := NodePackageJSON_Parse |};
    {| CanParse := GoMod_CanParse; Parse := GoMod_Parse modfile_Parse false |} ].

End Registry.

End parsers.

(** ** package scanner: [New], [parseFile], [discoverDependencies] *)
Module discovery.
Import parsers scanner.

(** What the scan finds at a path: a file (anything that is not a
    directory to the walk, a symbolic link included) with what
    [os.ReadFile] yields for it, or a directory with what [os.ReadDir]
    yields, the entries by name in the order [ReadDir] lists them. The
    file system does not change during a scan. *)
#[local] Set Warnings "-register-all".
Inductive node : Type :=
| File (content : result (list byte))
| Dir (entries : result (list (string * node))).

(** Induction over a tree, the entries of a directory included. *)
Section node_induction.

Variable P : node -> Prop.
Hypothesis P_File : forall content, P (File content).
Hypothesis P_Dir_Err : forall e, P (Dir (Err e)).
Hypothesis P_Dir_Ok : forall entries, Forall (fun entry => P entry.2) entries -> P (Dir (Ok entries)).

Fixpoint node_tree_ind (n : node) : P n :=
  match n return P n with
  | File content => P_File content
  | Dir r =>
      match r return P (Dir r) with
      | Err e => P_Dir_Err e
      | Ok entries =>
          P_Dir_Ok entries
            ((fix go (l : list (string * node)) : Forall (fun entry => P entry.2) l :=
                match l return Forall (fun entry => P entry.2) l with
                | [] => @List.Forall_nil _ (fun entry => P entry.2)
                | entry :: l' =>
                    @List.Forall_cons _ (fun entry => P entry.2) entry l'
                                      (node_tree_ind (snd entry)) (go l')
                end) entries)
      end
  end.

End node_induction.

(** The directories the walk does not enter. *)
Definition skipped (name : string) : bool :=
  String.eqb name "node_modules" || String.eqb name ".git" || String.eqb name "vendor"
  || String.eqb name "__pycache__" || String.eqb name ".venv" || String.eqb name "venv".

(** What the function passed to [filepath.WalkDir] returns: nil (with
    the dependencies gathered so far), [filepath.SkipDir], or an error. *)
Inductive walk_answer : Type :=
| WalkNil (allDeps : list Dependency)
| WalkSkipDir
| WalkErr (e : error).

Section Discover.

Variable filepath_Join : string -> string -> string.
Variable filepath_Base : string -> string.
(** The name [os.Lstat] reports for the root of a walk. *)
Variable lstat_Name : string -> string.
(** [s.parsers] *)
Variable registered : list Parser.

(** The loop of [parseFile]: the first parser that accepts the file name
    reads and parses the file; [content] is what [os.ReadFile] yields. *)
Fixpoint parseFile_loop (ps : list Parser) (filename path : string)
         (content : result (list byte)) : result (list Dependency) :=
  match ps with
  | [] => Ok []
  | parser :: ps' =>
      if CanParse parser filename then
        match content with
        | Err e => Err e
        | Ok bytes => Parse parser path bytes
        end
      else parseFile_loop ps' filename path content
  end.

Definition parseFile (path : string) (content : result (list byte)) : result (list Dependency) :=
  parseFile_loop registered (filepath_Base path) path content.

(** The function literal of [discoverDependencies], called for the
    entry [name] found at [p]; [allDeps] is the captured variable. *)
Definition walk_fn (p name : string) (n : node) (err : option error)
           (allDeps : list Dependency) : walk_answer :=
  match err with
  | Some e => WalkErr e
  | None =>
      match n with
      | Dir _ => if skipped name then WalkSkipDir else WalkNil allDeps
      | File content =>
          match parseFile p content with
          | Err _ => WalkNil allDeps
          | Ok deps => WalkNil (allDeps ++ deps)
          end
      end
  end.

(** [walkDir] of package [filepath] with [walk_fn] as its function: the
    function is called for the entry; a directory that is not skipped
    is read (a read error goes to the function, whose error ends the
    walk) and its entries are walked in order. [walk_fn] returns
    [SkipDir] for directories only, so the walk of a directory's entries
    is never cut short. *)
Fixpoint walkDir (path name : string) (n : node) (allDeps : list Dependency)
  : result (list Dependency) :=
  match walk_fn path name n None allDeps with
  | WalkErr e => Err e
  | WalkSkipDir => Ok allDeps
  | WalkNil allDeps =>
      match n with
      | File _ => Ok allDeps
      | Dir (Err e) =>
          match walk_fn path name n (Some e) allDeps with
          | WalkErr e' => Err e'
          | WalkSkipDir => Ok allDeps
          | WalkNil allDeps' => Ok allDeps'
          end
      | Dir (Ok entries) =>
          (fix walk_entries (l : list (string * node)) (allDeps : list Dependency)
             : result (list Dependency) :=
             match l with
             | [] => Ok allDeps
             | (name1, n1) :: l' =>
                 match walkDir (filepath_Join path name1) name1 n1 allDeps with
                 | Err e => Err e
                 | Ok allDeps' => walk_entries l' allDeps'
                 end
             end) entries allDeps
      end
  end.

(** Whether [os.Lstat] reports a symbolic link at a path. *)
Variable is_symlink : string -> bool.

(** The error of reading a directory as a file. *)
Definition EISDIR : error := ErrLib "read: is a directory".

(** The root of a walk as [filepath.WalkDir] sees it, for a path at
    which [os.Stat] found [n]. [WalkDir] looks at the root with
    [os.Lstat], which does not follow a symbolic link: a root that is a
    link is not a directory to the walk, whatever it points to, and
    reading a link to a directory as a file fails. *)
Definition root_node (root : string) (n : node) : node :=
  if is_symlink root then File (Err EISDIR) else n.

(** [filepath.WalkDir(root, fn)] for a root that [os.Stat] found to be a
    directory: [os.Lstat] succeeds where [os.Stat] has, and the walk
    starts at the root as [os.Lstat] reports it. *)
Definition WalkDir (root : string) (n : node) (allDeps : list Dependency)
  : result (list Dependency) :=
  walkDir root (lstat_Name root) (root_node root n) allDeps.

(** The loop over [s.config.Paths]; [stat] is what [os.Stat] finds. *)
Fixpoint discover_loop (stat : string -> result node) (paths : list string)
         (allDeps : list Dependency) : result (list Dependency) :=
  match paths with
  | [] => Ok allDeps
  | path :: paths' =>
      match stat path with
      | Err e => Err (ErrWrap (String.append "failed to stat path " path) e)
      | Ok (File content) =>
          match parseFile path content with
          | Err e => Err e
          | Ok deps => discover_loop stat paths' (allDeps ++ deps)
          end
      | Ok (Dir entries) =>
          match WalkDir path (Dir entries) allDeps with
          | Err e => Err e
          | Ok allDeps' => discover_loop stat paths' allDeps'
          end
      end
  end.

Definition discoverDependencies (s : Scanner) (stat : string -> result node)
  : result (list Dependency) :=
  discover_loop stat (Paths (config s)) [].

(** [New]: the cache is left out when [NoCache] is set or when it
    cannot be set up; the error is always nil. *)
Definition New (userHomeDir : result string) (mkdirAll : string -> option error)
           (config : Config) : result Scanner :=
  let c :=
    if negb (NoCache config) then
      match cache.New filepath_Join userHomeDir mkdirAll "kev-checker" (CacheTTL config) with
      | Ok c => Some c
      | Err _ => None
      end
    else None in
  Ok {| scanner.config := config; kev_cache := c |}.

(** *** The walk, stated on lists *)

(** The files the walk hands to [parseFile], in order, with their paths;
    and the first directory it fails to read, if any. *)
Fixpoint walked_files (path name : string) (n : node) : list (string * result (list byte)) :=
  match n with
  | File content => [(path, content)]
  | Dir (Err _) => []
  | Dir (Ok entries) =>
      if skipped name then []
      else (fix files_of (l : list (string * node)) : list (string * result (list byte)) :=
              match l with
              | [] => []
              | (name1, n1) :: l' =>
                  walked_files (filepath_Join path name1) name1 n1 ++ files_of l'
              end) entries
  end.

Fixpoint unreadable (name : string) (n : node) : option error :=
  match n with
  | File _ => None
  | Dir (Err e) => if skipped name then None else Some e
  | Dir (Ok entries) =>
      if skipped name then None
      else (fix first_of (l : list (string * node)) : option error :=
              match l with
              | [] => None
              | (name1, n1) :: l' =>
                  match unreadable name1 n1 with
                  | Some e => Some e
                  | None => first_of l'
                  end
              end) entries
  end.

(** What a walked file adds: the dependencies parsed, or nothing. *)
Definition parsed (file : string * result (list byte)) : list Dependency :=
  match parseFile file.1 file.2 with
  | Ok deps => deps
  | Err _ => []
  end.

(** What the parser [parser] makes of a file. *)
Definition parse_with (parser : Parser) (path : string) (content : result (list byte))
  : result (list Dependency) :=
  match content with
  | Err e => Err e
  | Ok bytes => Parse parser path bytes
  end.


(** The walk of the entries of a directory, and its two list views. *)
Definition walk_entries (path : string) :=
  fix walk_entries (l : list (string * node)) (allDeps : list Dependency)
    : result (list Dependency) :=
    match l with
    | [] => Ok allDeps
    | (name1, n1) :: l' =>
        match walkDir (filepath_Join path name1) name1 n1 allDeps with
        | Err e => Err e
        | Ok allDeps' => walk_entries l' allDeps'
        end
    end.

Definition files_of (path : string) :=
  fix files_of (l : list (string * node)) : list (string * result (list byte)) :=
    match l with
    | [] => []
    | (name1, n1) :: l' => walked_files (filepath_Join path name1) name1 n1 ++ files_of l'
    end.

Definition first_of :=
  fix first_of (l : list (string * node)) : option error :=
    match l with
    | [] => None
    | (name1, n1) :: l' =>
        match unreadable name1 n1 with
        | Some e => Some e
        | None => first_of l'
        end
    end.

(** The result of a walk in terms of the two views. *)
Definition walk_result (unread : option error) (allDeps : list Dependency)
           (files : list (string * result (list byte))) : result (list Dependency) :=
  match unread with
  | Some e => Err e
  | None => Ok (allDeps ++ flat_map parsed files)
  end.

(** What one configured path contributes, and the error that ends the
    discovery at it, if any. *)
Definition found (stat : string -> result node) (path : string)
  : list (string * result (list byte)) :=
  match stat path with
  | Ok (File content) => [(path, content)]
  | Ok (Dir entries) => walked_files path (lstat_Name path) (root_node path (Dir entries))
  | Err _ => []
  end.

Definition path_error (stat : string -> result node) (path : string) : option error :=
  match stat path with
  | Err e => Some (ErrWrap (String.append "failed to stat path " path) e)
  | Ok (File content) =>
      match parseFile path content with
      | Err e => Some e
      | Ok _ => None
      end
  | Ok (Dir entries) => unreadable (lstat_Name path) (root_node path (Dir entries))
  end.

End Discover.

End discovery.

(** ** package reporter

    The reports as the structures handed to [json.MarshalIndent]; the
    single-field wrappers of the SARIF types ([sarifText],
    [sarifRuleConfig], [sarifArtifact], [sarifRegion]) are written as
    the field they wrap, and the one run of a report, its tool and its
    driver as fields of the report. The counters of the JSON summary
    count list elements and are natural numbers. *)
Module reporter.

(** [d.String()] of [models.Dependency]. *)
Definition Dependency_String (d : Dependency) : string :=
  String.append (Name d) (String.append "@" (Version d)).

(** *** JSON *)

Record jsonSummary : Type := {
  TotalFindings : nat;
  TotalKEVs : nat;
  RansomwareRelated : nat;
  AffectedPackages : nat
}.

Record jsonPackage : Type := {
  p_Name : string;
  p_Version : string;
  p_Ecosystem : string
}.

Record jsonKEV : Type := {
  k_CVEID : string;
  k_VendorProject : string;
  k_Product : string;
  k_VulnerabilityName : string;
  k_Description : string;
  k_DateAdded : string;
  k_DueDate : string;
  k_RequiredAction : string;
  k_RansomwareUse : bool;
  k_CWEs : list string;
  k_EPSSScore : float64;
  k_EPSSPercentile : float64
}.

Record jsonFinding : Type := {
  f_Package : jsonPackage;
  f_SourceFile : string;
  f_Line : Z;
  f_KEVs : list jsonKEV
}.

Record jsonOutput : Type := {
  Summary : jsonSummary;
  Findings : list jsonFinding
}.

Section Reports.

(** [t.Format(layout)] of package [time]. *)
Variable time_Format : time.Time -> string -> string.

Definition to_jsonKEV (kev : KEVInfo) : jsonKEV :=
  {| k_CVEID := CVEID kev;
     k_VendorProject := VendorProject kev;
     k_Product := Product kev;
     k_VulnerabilityName := VulnerabilityName kev;
     k_Description := ShortDescription kev;
     k_DateAdded := time_Format (DateAdded kev) "2006-01-02";
     k_DueDate := time_Format (DueDate kev) "2006-01-02";
     k_RequiredAction := RequiredAction kev;
     k_RansomwareUse := RansomwareUse kev;
     k_CWEs := CWEs kev;
     k_EPSSScore := EPSSScore kev;
     k_EPSSPercentile := EPSSPercentile kev |}.

(** The inner loop body: the counters of [output.Summary] and [jf.KEVs]. *)
Definition json_kev_step (st : jsonSummary * list jsonKEV) (kev : KEVInfo)
  : jsonSummary * list jsonKEV :=
  let summary := st.1 in
  let summary :=
    {| TotalFindings := TotalFindings summary;
       TotalKEVs := TotalKEVs summary + 1;
       RansomwareRelated := RansomwareRelated summary;
       AffectedPackages := AffectedPackages summary |} in
  let summary :=
    if RansomwareUse kev then
      {| TotalFindings := TotalFindings summary;
         TotalKEVs := TotalKEVs summary;
         RansomwareRelated := RansomwareRelated summary + 1;
         AffectedPackages := AffectedPackages summary |}
    else summary in
  (summary, st.2 ++ [to_jsonKEV kev]).

(** The outer loop body. *)
Definition json_finding_step (output : jsonOutput) (f : Finding) : jsonOutput :=
  let '(summary, kevs) := foldl json_kev_step (Summary output, []) (KEVs f) in
  let jf :=
    {| f_Package := {| p_Name := Name (Dep f);
                       p_Version := Version (Dep f);
                       p_Ecosystem := Ecosystem (Dep f) |};
       f_SourceFile := SourceFile (Dep f);
       f_Line := Line (Dep f);
       f_KEVs := kevs |} in
  {| Summary := summary; Findings := Findings output ++ [jf] |}.

(** The [output] that [JSONReporter.Report] marshals. *)
Definition json_output (findings : list Finding) : jsonOutput :=
  foldl json_finding_step
        {| Summary := {| TotalFindings := length findings;
                         TotalKEVs := 0;
                         RansomwareRelated := 0;
                         AffectedPackages := length findings |};
           Findings := [] |}
        findings.

Definition JSON_Report (json_MarshalIndent : jsonOutput -> result (list byte))
           (findings : list Finding) : result (list byte) :=
  json_MarshalIndent (json_output findings).

(** *** SARIF *)

Record sarifRule : Type := {
  r_ID : string;
  r_Name : string;
  r_ShortDescription : string;
  r_FullDescription : string;
  r_Help : string;
  r_HelpURI : string;
  r_DefaultConfig : string;
  r_Tags : list string;
  r_SecuritySeverity : string
}.

Record sarifLocation : Type := {
  l_URI : string;
  l_StartLine : Z
}.

Record sarifResult : Type := {
  RuleID : string;
  RuleIndex : nat;
  Level : string;
  Message : string;
  Locations : list sarifLocation;
  PartialFingerprints : gmap string string
}.

Record sarifReport : Type := {
  Schema : string;
  s_Version : string;
  Driver_Name : string;
  Driver_Version : string;
  Driver_InformationURI : string;
  Driver_Rules : list sarifRule;
  Results : list sarifResult
}.

(** [fmt.Sprintf(" (EPSS: %.1f%%)", kev.EPSSScore*100)] *)
Variable fmt_EPSS : float64 -> string.

Definition rule_of (kev : KEVInfo) : sarifRule :=
  let level := "error" in
  let severity := if RansomwareUse kev then "9.5" else "8.0" in
  let tags := ["security"; "vulnerability"; "kev"; "cisa"] in
  let tags := if RansomwareUse kev then tags ++ ["ransomware"] else tags in
  let helpText :=
    String.append "Required Action: "
      (String.append (RequiredAction kev)
         (String.append (String (Ascii.ascii_of_nat 10) (String (Ascii.ascii_of_nat 10) "Due Date: "))
            (String.append (time_Format (DueDate kev) "2006-01-02")
               (String (Ascii.ascii_of_nat 10) (String (Ascii.ascii_of_nat 10)
                  "This vulnerability is in the CISA Known Exploited Vulnerabilities catalog."))))) in
  {| r_ID := CVEID kev;
     r_Name := VulnerabilityName kev;
     r_ShortDescription :=
       String.append "KEV: "
         (String.append (CVEID kev) (String.append " - " (VulnerabilityName kev)));
     r_FullDescription := ShortDescription kev;
     r_Help := helpText;
     r_HelpURI := String.append "https://nvd.nist.gov/vuln/detail/" (CVEID kev);
     r_DefaultConfig := level;
     r_Tags := tags;
     r_SecuritySeverity := severity |}.

(** The first loop of [buildRules]: a CVE ID already in [ruleMap] is
    skipped. *)
Definition add_rule (ruleMap : gmap string sarifRule) (kev : KEVInfo) : gmap string sarifRule :=
  match ruleMap !! CVEID kev with
  | Some _ => ruleMap
  | None => <[CVEID kev := rule_of kev]> ruleMap
  end.

Definition rule_map (findings : list Finding) : gmap string sarifRule :=
  foldl (fun ruleMap f => foldl add_rule ruleMap (KEVs f)) ∅ findings.

(** The second loop of [buildRules], over [ruleMap] in the order Go
    visits it. *)
Definition index_step (st : list sarifRule * gmap string nat) (entry : string * sarifRule)
  : list sarifRule * gmap string nat :=
  (st.1 ++ [entry.2], <[entry.1 := length st.1]> st.2).

Definition buildRules (range : gmap string sarifRule -> list (string * sarifRule))
           (findings : list Finding) : list sarifRule * gmap string nat :=
  foldl index_step ([], ∅) (range (rule_map findings)).

Definition result_of (ruleIndexMap : gmap string nat) (f : Finding) (kev : KEVInfo) : sarifResult :=
  let msg :=
    String.append "Dependency "
      (String.append (Dependency_String (Dep f))
         (String.append " has known exploited vulnerability "
            (String.append (CVEID kev) (String.append ": " (VulnerabilityName kev))))) in
  let msg := if f64_gt (EPSSScore kev) f64_zero
             then String.append msg (fmt_EPSS (EPSSScore kev)) else msg in
  let msg := if RansomwareUse kev
             then String.append msg " [Known ransomware usage]" else msg in
  let location :=
    {| l_URI := SourceFile (Dep f);
       l_StartLine := if (0 <? Line (Dep f))%Z then Line (Dep f) else 0%Z |} in
  {| RuleID := CVEID kev;
     RuleIndex := default 0 (ruleIndexMap !! CVEID kev);
     Level := "error";
     Message := msg;
     Locations := [location];
     PartialFingerprints :=
       {[ "primaryLocationLineHash" :=
            String.append (Name (Dep f))
              (String.append ":" (String.append (Version (Dep f))
                 (String.append ":" (CVEID kev)))) ]} |}.

Definition buildResults (findings : list Finding) (ruleIndexMap : gmap string nat)
  : list sarifResult :=
  foldl (fun results f =>
           foldl (fun results kev => results ++ [result_of ruleIndexMap f kev]) results (KEVs f))
        [] findings.

(** The [report] that [SARIFReporter.Report] marshals. *)
Definition sarif_report (range : gmap string sarifRule -> list (string * sarifRule))
           (findings : list Finding) : sarifReport :=
  let '(rules, ruleIndexMap) := buildRules range findings in
  {| Schema := "https://json.schemastore.org/sarif-2.1.0.json";
     s_Version := "2.1.0";
     Driver_Name := "kev-checker";
     Driver_Version := "1.0.0";
     Driver_InformationURI := "https://github.com/ethanolivertroy/kev-checker";
     Driver_Rules := rules;
     Results := buildResults findings ruleIndexMap |}.

Definition SARIF_Report (json_MarshalIndent : sarifReport -> result (list byte))
           (range : gmap string sarifRule -> list (string * sarifRule))
           (findings : list Finding) : result (list byte) :=
  json_MarshalIndent (sarif_report range findings).

End Reports.

End reporter.

(** ** Further concrete inputs *)
Module example_more.
Import example.

(** An OSV service that cannot be reached. *)
Definition osv_down (queries : list osv.osvQuery) : http_reply osv.osvBatchResponse :=
  TransportError (ErrLib "dial tcp: connection refused").

(** The last element of the two paths used below. *)
Definition filepath_Base (path : string) : string :=
  if String.eqb path "project/go.mod" then "go.mod" else path.

(** A go.mod parser whose [modfile.Parse] rejects every file. *)
Definition modfile_Parse (filepath : string) (content : list byte)
  : result (list parsers.Require) :=
  Err (ErrLib "go.mod: malformed module path").

Definition registered : list parsers.Parser :=
  [ {| parsers.CanParse := parsers.GoMod_CanParse;
       parsers.Parse := parsers.GoMod_Parse modfile_Parse false |} ].

(** A go.mod parser that finds one requirement in every file. *)
Definition modfile_Parse_text (filepath : string) (content : list byte)
  : result (list parsers.Require) :=
  Ok [ {| parsers.Mod_Path := "golang.org/x/text"; parsers.Mod_Version := "v0.3.7";
          parsers.Indirect := false |} ].

Definition registered_text : list parsers.Parser :=
  [ {| parsers.CanParse := parsers.GoMod_CanParse;
       parsers.Parse := parsers.GoMod_Parse modfile_Parse_text false |} ].

(** A directory [project] that holds a go.mod file. *)
Definition stat_project (path : string) : result discovery.node :=
  if String.eqb path "project"
  then Ok (discovery.Dir (Ok [("go.mod"%string, discovery.File (Ok document))]))
  else Err (ErrLib "stat: no such file or directory").

(** A scanner without a cache for the given paths. *)
Definition scanner_at (paths : list string) : scanner.Scanner :=
  {| scanner.config :=
       {| scanner.Paths := paths;
          scanner.OutputFormat := "terminal";
          scanner.OutputFile := "";
          scanner.FailOnKEV := true;
          scanner.EPSSThreshold := f64_zero;
          scanner.CacheTTL := cache.DefaultTTL;
          scanner.NoCache := true;
          scanner.Timeout := (60 * 1000000000)%Z;
          scanner.MaxConcurrent := 10 |};
     scanner.kev_cache := None |}.

(** An EPSS service whose first request fails and whose later requests
    are answered; and 101 IDs, which take two requests. *)
Definition epss_first_down (i : nat) (url : string) : http_reply epss.EPSSResponse :=
  if (i =? 0)%nat then epss_down i url else epss_up i url.

Definition many_ids : list string := repeat "CVE-2021-23337"%string 100 ++ ["CVE-2021-3281"%string].

Definition time_Format (t : time.Time) (layout : string) : string := "2021-11-03".
Definition fmt_EPSS (score : float64) : string := " (EPSS: 50.0%)".

(** Two findings with the same KEV entry. *)
Definition findings_twice : list Finding :=
  crossref_findings deps_twice (map_to_list cvesByDep_twice).

(** The findings of a scan ([[]] unless it returns). *)
Definition returned (run : scanner.Run) : list Finding :=
  match scanner.run_outcome run with
  | scanner.Returned findings => findings
  | _ => []
  end.

End example_more.

(** * Part II: properties *)

(** ** The OSV client *)
Section osv_facts.
Import osv.

Lemma app_opt_None {A : Type} (l : list A) : app_opt None l = nonempty l.
Proof. by destruct l. Qed.

Lemma app_opt_app {A : Type} (o : option (list A)) (l1 l2 : list A) :
  app_opt (app_opt o l1) l2 = app_opt o (l1 ++ l2).
Proof.
  destruct l1 as [|x l1]; [done|].
  destruct l2 as [|y l2]; simpl.
  - by rewrite app_nil_r.
  - by rewrite <- app_assoc.
Qed.

Lemma nonempty_Some {A : Type} (l l' : list A) : nonempty l = Some l' -> l' = l /\ l <> [].
Proof. destruct l; simpl; [done|]. intros [= <-]. done. Qed.

Lemma foldl_append_at_lookup {X : Type} (g : X -> CVEInfo) (j : nat) (xs : list X) :
  forall (m : gmap nat (list CVEInfo)) (k : nat),
    foldl (fun res x => append_at res j (g x)) m xs !! k
    = if decide (k = j) then app_opt (m !! j) (map g xs) else m !! k.
Proof.
  induction xs as [|x xs IH]; intros m k; simpl.
  - by destruct (decide (k = j)) as [->|].
  - rewrite IH. unfold append_at.
    destruct (decide (k = j)) as [->|Hne].
    + rewrite lookup_insert_eq. simpl.
      destruct (map g xs) as [|y ys]; simpl; [done|].
      by rewrite <- app_assoc.
    + by rewrite lookup_insert_ne.
Qed.

Lemma collect_vuln_lookup (j : nat) (m : gmap nat (list CVEInfo)) (vuln : osvVulnerability) (k : nat) :
  collect_vuln j m vuln !! k
  = if decide (k = j) then app_opt (m !! j) (vuln_cves vuln) else m !! k.
Proof.
  unfold collect_vuln, vuln_cves.
  apply (foldl_append_at_lookup
           (fun cveID => {| ID := cveID; Summary := v_Summary vuln; Source := "OSV" |})).
Qed.

Lemma collect_result_lookup (vulns : list osvVulnerability) :
  forall (m : gmap nat (list CVEInfo)) (j k : nat),
    collect_result m j vulns !! k
    = if decide (k = j) then app_opt (m !! j) (result_cves vulns) else m !! k.
Proof.
  unfold collect_result, result_cves.
  induction vulns as [|v vulns IH]; intros m j k; simpl.
  - by destruct (decide (k = j)) as [->|].
  - rewrite IH, !collect_vuln_lookup.
    destruct (decide (k = j)) as [->|Hne]; [|done].
    rewrite decide_True by done. apply app_opt_app.
Qed.

Lemma range_collect_lookup (resp : osvBatchResponse) :
  forall (j0 : nat) (m : gmap nat (list CVEInfo)) (k : nat),
    range_slice collect_result j0 m resp !! k
    = if decide (j0 <= k) then
        match resp !! (k - j0) with
        | Some vulns => app_opt (m !! k) (result_cves vulns)
        | None => m !! k
        end
      else m !! k.
Proof.
  induction resp as [|vulns resp IH]; intros j0 m k; simpl.
  - by destruct (decide (j0 <= k)).
  - rewrite IH, !collect_result_lookup.
    destruct (decide (S j0 <= k)) as [Hlt|Hge].
    + rewrite (decide_True (P := j0 <= k)) by lia.
      rewrite (decide_False (P := k = j0)) by lia.
      replace (k - j0) with (S (k - S j0)) by lia. done.
    + destruct (decide (k = j0)) as [->|Hne].
      * rewrite (decide_True (P := j0 <= j0)) by lia. by rewrite Nat.sub_diag.
      * by rewrite (decide_False (P := j0 <= k)) by lia.
Qed.

(** What [queryChunk] binds at position [k] of its map. *)
Lemma chunk_results_lookup (resp : osvBatchResponse) (k : nat) :
  chunk_results resp !! k = resp !! k ≫= (fun vulns => nonempty (result_cves vulns)).
Proof.
  unfold chunk_results. rewrite range_collect_lookup.
  rewrite (decide_True (P := 0 <= k)) by lia. rewrite Nat.sub_0_r, lookup_empty.
  destruct (resp !! k); simpl; [apply app_opt_None | done].
Qed.

Lemma chunk_results_nonempty (resp : osvBatchResponse) (k : nat) (l : list CVEInfo) :
  chunk_results resp !! k = Some l -> l <> [].
Proof.
  rewrite chunk_results_lookup. destruct (resp !! k) as [vulns|]; simpl; [|done].
  intros H. by apply nonempty_Some in H as [-> ?].
Qed.

(** *** Merging a chunk's map into the result map *)

Lemma foldr_merge_lookup (i : nat) (results : gmap nat (list CVEInfo)) (l : list (nat * list CVEInfo)) :
  NoDup l.*1 ->
  forall k,
    foldr (uncurry (merge_step i)) results l !! k
    = if decide (i <= k) then
        match (list_to_map l : gmap nat (list CVEInfo)) !! (k - i) with
        | Some cves => if (0 <? length cves)%nat then Some cves else results !! k
        | None => results !! k
        end
      else results !! k.
Proof.
  induction l as [|[j cves] l IH]; intros Hnd k; simpl.
  - rewrite lookup_empty. by destruct (decide (i <= k)).
  - inversion Hnd as [|? ? Hnotin Hnd']; subst.
    specialize (IH Hnd' k). unfold merge_step at 1.
    destruct (decide (i <= k)) as [Hle|Hgt].
    + destruct (decide (k - i = j)) as [<-|Hne].
      * rewrite lookup_insert_eq.
        destruct (0 <? length cves)%nat eqn:Hlen.
        -- replace (i + (k - i)) with k by lia. by rewrite lookup_insert_eq.
        -- rewrite IH.
           apply not_elem_of_list_to_map_1 in Hnotin. by rewrite Hnotin.
      * rewrite lookup_insert_ne by done.
        destruct (0 <? length cves)%nat; [|done].
        rewrite lookup_insert_ne by lia. done.
    + destruct (0 <? length cves)%nat; [|done].
      rewrite lookup_insert_ne by lia. done.
Qed.

(** The merge loop gives the same map whatever order Go visits
    [chunkResults] in. *)
Lemma merge_chunk_any_order (i : nat) (chunkResults results : gmap nat (list CVEInfo))
      (visit : list (nat * list CVEInfo)) :
  visit ≡ₚ map_to_list chunkResults ->
  foldr (uncurry (merge_step i)) results visit = merge_chunk i chunkResults results.
Proof.
  intros Hperm. unfold merge_chunk. rewrite map_fold_foldr.
  assert (Hnd : NoDup visit.*1).
  { rewrite Hperm. apply NoDup_fst_map_to_list. }
  apply map_eq. intros k.
  rewrite !foldr_merge_lookup by (done || apply NoDup_fst_map_to_list).
  rewrite (list_to_map_proper visit (map_to_list chunkResults)) by done.
  done.
Qed.

Lemma merge_chunk_lookup (i : nat) (chunkResults results : gmap nat (list CVEInfo)) (k : nat) :
  merge_chunk i chunkResults results !! k
  = if decide (i <= k) then
      match chunkResults !! (k - i) with
      | Some cves => if (0 <? length cves)%nat then Some cves else results !! k
      | None => results !! k
      end
    else results !! k.
Proof.
  unfold merge_chunk. rewrite map_fold_foldr.
  rewrite foldr_merge_lookup by apply NoDup_fst_map_to_list.
  by rewrite list_to_map_to_list.
Qed.

Lemma QueryBatch_loop_step (post : list osvQuery -> http_reply osvBatchResponse)
      (deps : list Dependency) (i : nat) (results : gmap nat (list CVEInfo)) :
  QueryBatch_loop post deps i results
  = if decide (i < length deps) then
      match queryChunk post (slice deps i (chunk_end i (length deps))) with
      | Err e => Err (ErrWrap "failed to query OSV batch" e)
      | Ok chunkResults =>
          QueryBatch_loop post deps (i + batchSize) (merge_chunk i chunkResults results)
      end
    else Ok results.
Proof.
  simp QueryBatch_loop.
  destruct (decide (i < length deps)); simpl; [|done].
  destruct (queryChunk post _); done.
Qed.

(** *** The chunk loop *)

Lemma merge_chunk_nonempty (i : nat) (chunkResults results : gmap nat (list CVEInfo)) :
  (forall k l, results !! k = Some l -> l <> []) ->
  forall k l, merge_chunk i chunkResults results !! k = Some l -> l <> [].
Proof.
  intros Hres k l. rewrite merge_chunk_lookup.
  destruct (decide (i <= k)); [|apply Hres].
  destruct (chunkResults !! (k - i)) as [cves|]; [|apply Hres].
  destruct (0 <? length cves) eqn:Hlen; [|apply Hres].
  intros [= <-]. apply Nat.ltb_lt in Hlen. destruct cves; simpl in Hlen; [lia|done].
Qed.

Lemma QueryBatch_loop_nonempty (post : list osvQuery -> http_reply osvBatchResponse)
      (deps : list Dependency) (n : nat) :
  forall (i : nat) (results m : gmap nat (list CVEInfo)),
    length deps - i <= n ->
    (forall k l, results !! k = Some l -> l <> []) ->
    QueryBatch_loop post deps i results = Ok m ->
    forall k l, m !! k = Some l -> l <> [].
Proof.
  induction n as [|n IH]; intros i results m Hn Hres; rewrite QueryBatch_loop_step.
  - rewrite decide_False by lia. intros [= <-]. exact Hres.
  - destruct (decide (i < length deps)) as [Hlt|Hge]; [|intros [= <-]; exact Hres].
    destruct (queryChunk post _) as [chunkResults|e]; [|done].
    apply IH; [unfold batchSize; lia|].
    by apply merge_chunk_nonempty.
Qed.

Lemma slice_lookup {A : Type} (l : list A) (i e j : nat) :
  slice l i e !! j = if decide (j < e - i) then l !! (i + j) else None.
Proof.
  unfold slice. destruct (decide (j < e - i)).
  - by rewrite lookup_take_lt, lookup_drop.
  - apply lookup_take_ge. lia.
Qed.

Lemma queryChunk_per_query (respond : osvQuery -> list osvVulnerability) (deps : list Dependency) :
  queryChunk (per_query respond) deps = Ok (chunk_results (map respond (map mkQuery deps))).
Proof. reflexivity. Qed.

Lemma chunk_results_per_query (respond : osvQuery -> list osvVulnerability)
      (deps : list Dependency) (k : nat) :
  chunk_results (map respond (map mkQuery deps)) !! k = cves_at respond deps k.
Proof.
  rewrite chunk_results_lookup. unfold cves_at.
  change (map respond (map mkQuery deps)) with (respond <$> (mkQuery <$> deps)).
  rewrite !list_lookup_fmap.
  by destruct (deps !! k).
Qed.

Lemma cves_at_nonempty (respond : osvQuery -> list osvVulnerability)
      (deps : list Dependency) (k : nat) (l : list CVEInfo) :
  cves_at respond deps k = Some l -> (0 <? length l) = true /\ k < length deps.
Proof.
  unfold cves_at. destruct (deps !! k) as [dep|] eqn:Hk; simpl; [|done].
  intros H. apply nonempty_Some in H as [-> Hne]. split.
  - destruct (result_cves _); [done|]. reflexivity.
  - by eapply lookup_lt_Some.
Qed.

(** With a per-query service the loop from index [i] binds exactly the
    indices from [i] on that have CVE records, and leaves the rest. *)
Lemma QueryBatch_loop_per_query (respond : osvQuery -> list osvVulnerability)
      (deps : list Dependency) (n : nat) :
  forall (i : nat) (results : gmap nat (list CVEInfo)),
    length deps - i <= n ->
    exists m,
      QueryBatch_loop (per_query respond) deps i results = Ok m
      /\ forall k, m !! k = if decide (i <= k)
                            then match cves_at respond deps k with
                                 | Some l => Some l
                                 | None => results !! k
                                 end
                            else results !! k.
Proof.
  induction n as [|n IH]; intros i results Hn; rewrite QueryBatch_loop_step.
  - rewrite decide_False by lia. eexists; split; [done|].
    intros k. destruct (decide (i <= k)); [|done].
    unfold cves_at. rewrite lookup_ge_None_2 by lia. done.
  - destruct (decide (i < length deps)) as [Hlt|Hge].
    + rewrite queryChunk_per_query.
      destruct (IH (i + batchSize)
                   (merge_chunk i (chunk_results (map respond (map mkQuery
                      (slice deps i (chunk_end i (length deps)))))) results))
        as (m & Hm & Hlook); [unfold batchSize; lia|].
      exists m. split; [done|]. intros k. rewrite Hlook, merge_chunk_lookup.
      rewrite chunk_results_per_query.
      assert (Hchunk : forall j, cves_at respond (slice deps i (chunk_end i (length deps))) j
                                 = if decide (j < batchSize) then cves_at respond deps (i + j) else None).
      { intros j. unfold cves_at. rewrite slice_lookup.
        unfold chunk_end. destruct (decide (length deps < i + batchSize)).
        - destruct (decide (j < length deps - i)).
          + by rewrite decide_True by lia.
          + rewrite (lookup_ge_None_2 deps (i + j)) by lia.
            by destruct (decide (j < batchSize)).
        - destruct (decide (j < i + batchSize - i)).
          + by rewrite decide_True by lia.
          + by rewrite decide_False by lia. }
      rewrite Hchunk.
      destruct (decide (i + batchSize <= k)) as [Hbig|Hsmall].
      * rewrite !(decide_True (P := i <= k)) by lia.
        rewrite (decide_False (P := k - i < batchSize)) by lia.
        done.
      * destruct (decide (i <= k)) as [Hle|Hlt']; [|done].
        rewrite (decide_True (P := k - i < batchSize)) by lia.
        replace (i + (k - i)) with k by lia.
        destruct (cves_at respond deps k) as [l|] eqn:Hat; [|done].
        apply cves_at_nonempty in Hat as [-> _]. done.
    + eexists; split; [done|].
      intros k. destruct (decide (i <= k)); [|done].
      unfold cves_at. rewrite lookup_ge_None_2 by lia. done.
Qed.

Lemma QueryBatch_per_query (respond : osvQuery -> list osvVulnerability) (deps : list Dependency) :
  exists m, QueryBatch (per_query respond) deps = Ok m
            /\ forall k, m !! k = cves_at respond deps k.
Proof.
  unfold QueryBatch. destruct (decide (length deps = 0)) as [Hz|Hnz].
  - exists ∅. split; [done|]. intros k. rewrite lookup_empty.
    unfold cves_at. rewrite lookup_ge_None_2 by lia. done.
  - destruct (QueryBatch_loop_per_query respond deps (length deps) 0 ∅) as (m & Hm & Hlook); [lia|].
    exists m. split; [done|]. intros k. rewrite Hlook.
    rewrite decide_True by lia. rewrite lookup_empty. by destruct (cves_at respond deps k).
Qed.

Lemma extract_step_no_prefix (st : gset string * list string) (alias : string) :
  hasCVEPrefix alias = false -> extract_step st alias = st.
Proof. intros H. unfold extract_step. by rewrite H. Qed.

Lemma extractCVEIDs_no_prefix (id : string) (aliases : list string) :
  hasCVEPrefix id = false ->
  Forall (fun alias => hasCVEPrefix alias = false) aliases ->
  extractCVEIDs id aliases = [].
Proof.
  intros Hid Hal. unfold extractCVEIDs. rewrite extract_step_no_prefix by done.
  induction Hal as [|a l Ha _ IH]; simpl; [done|].
  by rewrite extract_step_no_prefix.
Qed.

Lemma result_cves_no_cve_ids (vulns : list osvVulnerability) :
  no_cve_ids vulns -> result_cves vulns = [].
Proof.
  unfold no_cve_ids, result_cves. induction 1 as [|v l [Hid Hal] _ IH]; simpl; [done|].
  rewrite IH. unfold vuln_cves. by rewrite extractCVEIDs_no_prefix.
Qed.

(** C5. Chunking is transparent: against a service that answers each
    query on its own, [QueryBatch] (chunks of 100) returns the very map
    that one [queryChunk] over all the dependencies returns; its keys are
    global indices below [len(deps)]; and what it holds at index [i + j]
    is what the chunk starting at [i] holds at its position [j]. *)
Theorem QueryBatch_chunking_transparent
        (respond : osvQuery -> list osvVulnerability) (deps : list Dependency) :
  QueryBatch (per_query respond) deps = queryChunk (per_query respond) deps
  /\ exists m,
      QueryBatch (per_query respond) deps = Ok m
      /\ (forall k, is_Some (m !! k) -> k < length deps)
      /\ (forall i j chunkResults,
            i < length deps -> j < batchSize ->
            queryChunk (per_query respond) (slice deps i (chunk_end i (length deps)))
            = Ok chunkResults ->
            m !! (i + j) = chunkResults !! j).
Proof.
  destruct (QueryBatch_per_query respond deps) as (m & Hm & Hlook).
  split.
  - rewrite Hm, queryChunk_per_query. f_equal. apply map_eq. intros k.
    by rewrite Hlook, chunk_results_per_query.
  - exists m. split; [done|]. split.
    + intros k [l Hl]. rewrite Hlook in Hl. by apply cves_at_nonempty in Hl as [_ ?].
    + intros i j chunkResults Hi Hj. rewrite queryChunk_per_query. intros [= <-].
      rewrite Hlook, chunk_results_per_query. unfold cves_at. rewrite slice_lookup.
      unfold chunk_end. destruct (decide (length deps < i + batchSize)).
      * destruct (decide (j < length deps - i)); [done|].
        by rewrite lookup_ge_None_2 by lia.
      * by rewrite decide_True by lia.
Qed.

(** C10. The map [QueryBatch] returns never binds an index to an empty
    list, whatever the service answers; and against a per-query service
    a dependency whose response carries no CVE-prefixed identifier has
    no binding at all. *)
Theorem QueryBatch_binds_only_nonempty
        (post : list osvQuery -> http_reply osvBatchResponse)
        (deps : list Dependency) (m : gmap nat (list CVEInfo))
        (Hret : QueryBatch post deps = Ok m) :
  (forall k l, m !! k = Some l -> l <> [])
  /\ (forall respond k dep,
        post = per_query respond ->
        deps !! k = Some dep ->
        no_cve_ids (respond (mkQuery dep)) ->
        m !! k = None).
Proof.
  split.
  - unfold QueryBatch in Hret. destruct (decide (length deps = 0)).
    + injection Hret as <-. intros k l. by rewrite lookup_empty.
    + eapply QueryBatch_loop_nonempty; [reflexivity| |exact Hret].
      intros k l. by rewrite lookup_empty.
  - intros respond k dep -> Hk Hno.
    destruct (QueryBatch_per_query respond deps) as (m' & Hm' & Hlook).
    rewrite Hm' in Hret. injection Hret as <-.
    rewrite Hlook. unfold cves_at. rewrite Hk. simpl.
    by rewrite result_cves_no_cve_ids.
Qed.

End osv_facts.

(** ** The KEV parser *)
Section kev_facts.
Import kev.

Variable json_Unmarshal : list byte -> result KEVResponse.
Variable time_Parse : string -> string -> time.Time * option error.

Lemma foldl_add_entry_lookup (vulns : list VulnerabilityJSON) :
  forall (m : gmap string KEVInfo) (c : string),
    foldl (add_entry time_Parse) m vulns !! c
    = match last (filter (fun v => j_CVEID v = c) vulns) with
      | Some v => Some (toKEVInfo time_Parse v)
      | None => m !! c
      end.
Proof.
  induction vulns as [|v vulns IH] using rev_ind; intros m c; [done|].
  rewrite foldl_snoc, filter_app. unfold add_entry at 1.
  destruct (decide (j_CVEID v = c)) as [Heq|Hne].
  - rewrite (filter_cons_True _ v []) by done.
    rewrite filter_nil, last_snoc. rewrite Heq. by rewrite lookup_insert_eq.
  - rewrite (filter_cons_False _ v []) by done.
    rewrite filter_nil, app_nil_r. rewrite lookup_insert_ne by done. apply IH.
Qed.

Lemma build_catalog_lookup (vulns : list VulnerabilityJSON) (c : string) :
  build_catalog time_Parse vulns !! c
  = toKEVInfo time_Parse <$> last (filter (fun v => j_CVEID v = c) vulns).
Proof.
  unfold build_catalog. rewrite foldl_add_entry_lookup, lookup_empty.
  by destruct (last _).
Qed.

(** Every catalog value is the entry built from one array element with
    that key; its EPSS fields are zero. *)
Lemma build_catalog_Some (vulns : list VulnerabilityJSON) (c : string) (k : KEVInfo) :
  build_catalog time_Parse vulns !! c = Some k ->
  exists v, v ∈ vulns /\ j_CVEID v = c /\ k = toKEVInfo time_Parse v.
Proof.
  rewrite build_catalog_lookup.
  destruct (last _) as [v|] eqn:Hlast; simpl; [|done].
  intros [= <-]. exists v.
  apply last_Some_elem_of in Hlast. apply list_elem_of_filter in Hlast as [? ?]. done.
Qed.

Lemma build_catalog_zero_epss (vulns : list VulnerabilityJSON) (c : string) (k : KEVInfo) :
  build_catalog time_Parse vulns !! c = Some k ->
  CVEID k = c /\ EPSSScore k = f64_zero /\ EPSSPercentile k = f64_zero.
Proof. intros H. apply build_catalog_Some in H as (v & _ & <- & ->). done. Qed.

Lemma parseKEVData_Ok (bytes : list byte) (catalog : gmap string KEVInfo) :
  parseKEVData json_Unmarshal time_Parse bytes = Ok catalog ->
  exists kevResp, json_Unmarshal bytes = Ok kevResp
                  /\ catalog = build_catalog time_Parse (Vulnerabilities kevResp).
Proof.
  unfold parseKEVData. destruct (json_Unmarshal bytes) as [kevResp|e]; [|done].
  intros [= <-]. by exists kevResp.
Qed.

(** C8. Once the document decodes, [parseKEVData] succeeds whatever the
    array holds; under each CVE ID the catalog has the entry built from
    the last array element with that ID; and a date that does not parse
    is stored as the zero date. *)
Theorem parseKEVData_last_entry_wins
        (bytes : list byte) (kevResp : KEVResponse)
        (Hlaw : time_Parse_law time_Parse)
        (Hdecoded : json_Unmarshal bytes = Ok kevResp) :
  exists catalog,
    parseKEVData json_Unmarshal time_Parse bytes = Ok catalog
    /\ (forall c, catalog !! c
                  = toKEVInfo time_Parse
                      <$> last (filter (fun v => j_CVEID v = c) (Vulnerabilities kevResp)))
    /\ (forall v, v ∈ Vulnerabilities kevResp ->
                  ((time_Parse "2006-01-02" (j_DateAdded v)).2 <> None ->
                   DateAdded (toKEVInfo time_Parse v) = time.zero)
                  /\ ((time_Parse "2006-01-02" (j_DueDate v)).2 <> None ->
                      DueDate (toKEVInfo time_Parse v) = time.zero)).
Proof.
  exists (build_catalog time_Parse (Vulnerabilities kevResp)). split; [|split].
  - unfold parseKEVData. by rewrite Hdecoded.
  - intros c. apply build_catalog_lookup.
  - intros v _. simpl. split; intros Herr.
    + destruct (time_Parse "2006-01-02" (j_DateAdded v)).2 as [e|] eqn:He; [|done].
      by apply (Hlaw _ _ e).
    + destruct (time_Parse "2006-01-02" (j_DueDate v)).2 as [e|] eqn:He; [|done].
      by apply (Hlaw _ _ e).
Qed.

End kev_facts.

(** ** The TTL cache *)
Section cache_facts.
Import cache.

Variable sha256_Sum256 : string -> list byte.
Variable hex_EncodeToString : list byte -> string.
Variable filepath_Join : string -> string -> string.

Local Abbreviation Path := (cache.Path sha256_Sum256 hex_EncodeToString filepath_Join).
Local Abbreviation Get := (cache.Get sha256_Sum256 hex_EncodeToString filepath_Join).
Local Abbreviation Set_ := (cache.Set_ sha256_Sum256 hex_EncodeToString filepath_Join).

Lemma Since_exact (now t : time.Time) :
  (time.minDuration <= now - t <= time.maxDuration)%Z -> time.Since now t = (now - t)%Z.
Proof. unfold time.Since, time.Sub. lia. Qed.

(** A successful [Set] leaves the bytes in the file of the key, stamped
    with the time of the write, and touches no other file. *)
Lemma Set_files (c : Cache) (fs fs' : FS) (t0 : time.Time) (key : string) (v : list byte) :
  Set_ c fs t0 key v = (None, fs') ->
  files fs' = <[Path c key := {| data := v; modTime := t0 |}]> (files fs).
Proof.
  unfold cache.Set_, os_WriteFile. destruct (writable fs _); [|done].
  by intros [= <-].
Qed.

Lemma Get_fresh (c : Cache) (fs : FS) (now : time.Time) (key : string) (f : File) :
  files fs !! Path c key = Some f ->
  (time.Since now (modTime f) <= TTL c)%Z ->
  Get c fs now key = (data f, true).
Proof.
  intros Hf Hfresh. unfold cache.Get, os_Stat, os_ReadFile. rewrite Hf.
  destruct (TTL c <? time.Since now (modTime f))%Z eqn:Hlt; [|done].
  apply Z.ltb_lt in Hlt. lia.
Qed.

Lemma Get_expired (c : Cache) (fs : FS) (now : time.Time) (key : string) (f : File) :
  files fs !! Path c key = Some f ->
  (TTL c < time.Since now (modTime f))%Z ->
  Get c fs now key = ([], false).
Proof.
  intros Hf Hold. unfold cache.Get, os_Stat. rewrite Hf.
  apply Z.ltb_lt in Hold. by rewrite Hold.
Qed.

(** With a TTL below the largest Duration, "expired" can be read off the
    instants themselves. *)
Lemma Get_expired_instants (c : Cache) (fs : FS) (now : time.Time) (key : string) (f : File) :
  files fs !! Path c key = Some f ->
  (TTL c < time.maxDuration)%Z ->
  (TTL c < now - modTime f)%Z ->
  Get c fs now key = ([], false).
Proof.
  intros Hf Hmax Hold. eapply Get_expired; [done|].
  unfold time.Since, time.Sub. lia.
Qed.

(** C6. Round trip: after [Set(k, v)] has succeeded at time [t0], a
    [Get(k)] at a time [t1] within the TTL of [t0] returns [(v, true)];
    and for any file that is present, once more than the TTL has passed
    since its modification time, [Get] returns [found = false]. *)
Theorem cache_round_trip_and_expiry (c : Cache) :
  (forall fs fs' t0 t1 key v,
      Set_ c fs t0 key v = (None, fs') ->
      (time.Since t1 t0 <= TTL c)%Z ->
      Get c fs' t1 key = (v, true))
  /\ (forall fs now key f,
         files fs !! Path c key = Some f ->
         os_ReadFile fs (Path c key) = Ok (data f) ->
         (TTL c < time.Since now (modTime f))%Z ->
         (Get c fs now key).2 = false).
Proof.
  split.
  - intros fs fs' t0 t1 key v Hset Hwithin.
    apply Set_files in Hset.
    apply (Get_fresh c fs' t1 key {| data := v; modTime := t0 |}); [|done].
    rewrite Hset. apply lookup_insert_eq.
  - intros fs now key f Hf _ Hold. by rewrite (Get_expired c fs now key f).
Qed.

End cache_facts.

(** ** Comparing float64 values *)
Section float_facts.

Ltac sf_cases :=
  repeat match goal with
         | |- context [Z.compare ?a ?b] => destruct (Z.compare_spec a b); subst
         | |- context [Pos.compare_cont Eq ?a ?b] =>
             change (Pos.compare_cont Eq a b) with (Pos.compare a b);
             destruct (Pos.compare_spec a b); subst
         end; simpl; try congruence; try lia.

Ltac sf_split a b c :=
  destruct a as [[]|[]| |[] ? ?], b as [[]|[]| |[] ? ?], c as [[]|[]| |[] ? ?];
  simpl; try congruence.

Lemma f64_le_trans (a b c : float64) :
  f64_le a b = true -> f64_le b c = true -> f64_le a c = true.
Proof. unfold f64_le, SFleb, SFcompare. sf_split a b c; sf_cases. Qed.

Lemma f64_lt_le_trans (a b c : float64) :
  f64_lt a b = true -> f64_le b c = true -> f64_lt a c = true.
Proof. unfold f64_lt, f64_le, SFleb, SFltb, SFcompare. sf_split a b c; sf_cases. Qed.

Lemma f64_ge_le (a b : float64) : f64_ge a b = f64_le b a.
Proof. reflexivity. Qed.

Lemma f64_gt_lt (a b : float64) : f64_gt a b = f64_lt b a.
Proof. reflexivity. Qed.

(** Away from NaN, [a >= b] is the negation of [a < b]. *)
Lemma f64_ge_not_lt (a b : float64) :
  f64_is_nan a = false -> f64_is_nan b = false -> f64_ge a b = negb (f64_lt a b).
Proof.
  unfold f64_ge, f64_lt, SFleb, SFltb, SFcompare.
  destruct a as [[]|[]| |[] ? ?], b as [[]|[]| |[] ? ?]; simpl; try congruence;
    intros _ _; sf_cases.
Qed.

(** A NaN compares false both ways. *)
Lemma f64_nan_ge (b : float64) : f64_ge S754_nan b = false.
Proof. unfold f64_ge, SFleb, SFcompare. by destruct b. Qed.

Lemma f64_nan_lt (b : float64) : f64_lt S754_nan b = false.
Proof. reflexivity. Qed.

Lemma f64_gt_not_nan (a b : float64) : f64_gt a b = true -> f64_is_nan a = false.
Proof. unfold f64_gt, SFltb, SFcompare. destruct a, b; simpl; congruence. Qed.

End float_facts.

(** ** The threshold filter *)
Section filter_facts.
Import scanner.

Lemma foldl_keep_kev (threshold : float64) (kevs : list KEVInfo) :
  forall acc, foldl (keep_kev threshold) acc kevs
              = acc ++ List.filter (retained threshold) kevs.
Proof.
  induction kevs as [|k kevs IH]; intros acc; simpl.
  - by rewrite app_nil_r.
  - rewrite IH. unfold keep_kev, retained.
    destruct (f64_ge (EPSSScore k) threshold); [|done].
    by rewrite <- app_assoc.
Qed.

Lemma filterKEVs_filter (threshold : float64) (kevs : list KEVInfo) :
  filterKEVs threshold kevs = List.filter (retained threshold) kevs.
Proof. unfold filterKEVs. by rewrite foldl_keep_kev. Qed.

Lemma foldl_keep_finding (threshold : float64) (findings : list Finding) :
  forall acc, foldl (keep_finding threshold) acc findings
              = acc ++ omap (filter_finding threshold) findings.
Proof.
  induction findings as [|f findings IH]; intros acc; simpl.
  - by rewrite app_nil_r.
  - rewrite IH. unfold keep_finding, filter_finding. rewrite filterKEVs_filter.
    destruct (0 <? length (List.filter (retained threshold) (KEVs f))); [|done].
    by rewrite <- app_assoc.
Qed.

Lemma filterFindings_omap (threshold : float64) (findings : list Finding) :
  filterFindings threshold findings = omap (filter_finding threshold) findings.
Proof. unfold filterFindings. by rewrite foldl_keep_finding. Qed.

(** The entries that survive the filter, counted finding by finding. *)
Lemma total_kevs_filterFindings (threshold : float64) (findings : list Finding) :
  total_kevs (filterFindings threshold findings)
  = foldr (fun f n => length (List.filter (retained threshold) (KEVs f)) + n) 0 findings.
Proof.
  rewrite filterFindings_omap.
  induction findings as [|f findings IH]; [done|].
  change (omap (filter_finding threshold) (f :: findings))
    with (match filter_finding threshold f with
          | Some f' => f' :: omap (filter_finding threshold) findings
          | None => omap (filter_finding threshold) findings
          end).
  cbn [foldr]. rewrite <- IH. unfold filter_finding.
  destruct (0 <? length (List.filter (retained threshold) (KEVs f))) eqn:Hlen.
  - reflexivity.
  - apply Nat.ltb_ge in Hlen. lia.
Qed.

Lemma filter_length_le {A : Type} (p : A -> bool) (l : list A) :
  length (List.filter p l) <= length l.
Proof. induction l as [|x l IH]; simpl; [done|]. destruct (p x); simpl; lia. Qed.

Lemma filter_length_mono {A : Type} (p q : A -> bool) (l : list A) :
  (forall x, q x = true -> p x = true) ->
  length (List.filter q l) <= length (List.filter p l).
Proof.
  intros Hpq. induction l as [|x l IH]; simpl; [done|].
  destruct (q x) eqn:Hq.
  - rewrite (Hpq x Hq). simpl. lia.
  - destruct (p x); simpl; lia.
Qed.

Lemma total_kevs_filterFindings_le (threshold : float64) (findings : list Finding) :
  total_kevs (filterFindings threshold findings) <= total_kevs findings.
Proof.
  rewrite total_kevs_filterFindings.
  induction findings as [|f findings IH]; simpl; [done|].
  pose proof (filter_length_le (retained threshold) (KEVs f)). lia.
Qed.

Lemma total_kevs_filterFindings_mono (t1 t2 : float64) (findings : list Finding) :
  f64_le t1 t2 = true ->
  total_kevs (filterFindings t2 findings) <= total_kevs (filterFindings t1 findings).
Proof.
  intros Hle. rewrite !total_kevs_filterFindings.
  induction findings as [|f findings IH]; simpl; [done|].
  pose proof (filter_length_mono (retained t1) (retained t2) (KEVs f)) as Hm.
  assert (length (List.filter (retained t2) (KEVs f))
          <= length (List.filter (retained t1) (KEVs f))); [|lia].
  apply Hm. intros k. unfold retained. rewrite !f64_ge_le. by apply f64_le_trans.
Qed.

Lemma filterStage_mono (t1 t2 : float64) (findings : list Finding) :
  f64_le t1 t2 = true ->
  total_kevs (filterStage t2 findings) <= total_kevs (filterStage t1 findings).
Proof.
  intros Hle. unfold filterStage. rewrite !f64_gt_lt.
  destruct (f64_lt f64_zero t1) eqn:H1.
  - rewrite (f64_lt_le_trans f64_zero t1 t2) by done.
    by apply total_kevs_filterFindings_mono.
  - destruct (f64_lt f64_zero t2); [|done].
    apply total_kevs_filterFindings_le.
Qed.

(** C4. The threshold filter: raising the threshold never retains more
    KEV entries; a threshold of 0 leaves the findings as they are; and
    under a positive threshold an entry is retained iff its score is
    [>=] the threshold, which for a score other than NaN means: removed
    iff strictly below. *)
Theorem filterStage_monotone (findings : list Finding) (t1 t2 : float64)
        (Hle : f64_le t1 t2 = true) :
  total_kevs (filterStage t2 findings) <= total_kevs (filterStage t1 findings)
  /\ filterStage f64_zero findings = findings
  /\ (f64_gt t2 f64_zero = true ->
      filterStage t2 findings = omap (filter_finding t2) findings
      /\ forall k, f64_is_nan (EPSSScore k) = false ->
                   retained t2 k = negb (f64_lt (EPSSScore k) t2)).
Proof.
  split; [by apply filterStage_mono|]. split; [done|].
  intros Hpos. split.
  - unfold filterStage. rewrite Hpos. apply filterFindings_omap.
  - intros k Hk. unfold retained. apply f64_ge_not_lt; [done|].
    by apply f64_gt_not_nan in Hpos.
Qed.

End filter_facts.

(** ** The EPSS client *)
Section epss_facts.
Import epss.

Variable get : nat -> string -> http_reply EPSSResponse.
Variable strconv_ParseFloat : string -> float64 * option error.

Local Abbreviation store_row := (epss.store_row strconv_ParseFloat).
Local Abbreviation fetch_chunk := (epss.fetch_chunk get strconv_ParseFloat).
Local Abbreviation FetchScores_loop := (epss.FetchScores_loop get strconv_ParseFloat).
Local Abbreviation FetchScores := (epss.FetchScores get strconv_ParseFloat).

Lemma FetchScores_loop_step (cveIDs : list string) (i : nat) (scores : gmap string EPSSScore_t) :
  FetchScores_loop cveIDs i scores
  = if decide (i < length cveIDs) then
      FetchScores_loop cveIDs (i + chunkSize)
        (fetch_chunk i (slice cveIDs i (chunk_end i (length cveIDs))) scores)
    else scores.
Proof.
  rewrite epss.FetchScores_loop_unfold_eq.
  unfold epss.FetchScores_loop_unfold, epss.FetchScores_loop_unfold_clause_1.
  by destruct (decide (i < length cveIDs)).
Qed.

(** A chunk either adds its rows or, on any failure, adds nothing. *)
Lemma fetch_chunk_rows (i : nat) (chunk : list string) (scores : gmap string EPSSScore_t) :
  fetch_chunk i chunk scores = foldl store_row scores (rows_of (get i (chunk_url chunk))).
Proof.
  unfold epss.fetch_chunk, rows_of.
  destruct (get i (chunk_url chunk)) as [e|status [epssResp|e]]; [done| |];
    by destruct (status =? StatusOK)%Z.
Qed.

Lemma fetch_chunk_failed (i : nat) (chunk : list string) (scores : gmap string EPSSScore_t) :
  succeeded (get i (chunk_url chunk)) = false -> fetch_chunk i chunk scores = scores.
Proof.
  rewrite fetch_chunk_rows. unfold succeeded, rows_of.
  destruct (get i (chunk_url chunk)) as [e|status [epssResp|e]]; [done| |done].
  by intros ->.
Qed.

Lemma slice_chunk (cveIDs : list string) (i : nat) :
  i < length cveIDs ->
  slice cveIDs i (chunk_end i (length cveIDs)) = take chunkSize (drop i cveIDs).
Proof.
  intros Hlt. unfold slice, chunk_end.
  destruct (decide (length cveIDs < i + chunkSize)).
  - rewrite !take_ge; [done| |]; rewrite length_drop; lia.
  - f_equal. lia.
Qed.

(** The loop from index [i] does what a fold over the chunks of the
    rest of the list does. *)
Lemma FetchScores_loop_chunks (cveIDs : list string) (n : nat) :
  forall (i : nat) (scores : gmap string EPSSScore_t),
    length cveIDs - i <= n ->
    FetchScores_loop cveIDs i scores
    = foldl (fun sc chunk => fetch_chunk chunk.1 chunk.2 sc) scores
            (chunks_from chunkSize i (drop i cveIDs) n).
Proof.
  induction n as [|n IH]; intros i scores Hn; rewrite FetchScores_loop_step.
  - by rewrite decide_False by lia.
  - destruct (decide (i < length cveIDs)) as [Hlt|Hge].
    + rewrite IH by (unfold chunkSize; lia).
      rewrite slice_chunk by done. simpl.
      destruct (drop i cveIDs) as [|x rest] eqn:Hdrop.
      * apply (f_equal length) in Hdrop. rewrite length_drop in Hdrop. simpl in Hdrop. lia.
      * rewrite <- Hdrop. simpl. rewrite drop_drop. done.
    + rewrite drop_ge by lia. done.
Qed.

Lemma foldl_fetch_chunk_rows (l : list (nat * list string)) :
  forall scores,
    foldl (fun sc chunk => fetch_chunk chunk.1 chunk.2 sc) scores l
    = foldl store_row scores
            (flat_map (fun chunk => rows_of (get chunk.1 (chunk_url chunk.2))) l).
Proof.
  induction l as [|[i chunk] l IH]; intros scores; simpl; [done|].
  by rewrite IH, fetch_chunk_rows, foldl_app.
Qed.

(** [FetchScores] returns a nil error and the map built from the rows
    of the requests that went through. *)
Lemma FetchScores_spec (cveIDs : list string) :
  FetchScores cveIDs = (foldl store_row ∅ (fetched_rows get cveIDs), None).
Proof.
  unfold epss.FetchScores, fetched_rows, chunks.
  destruct (decide (length cveIDs = 0)) as [Hz|Hnz].
  - apply nil_length_inv in Hz. by subst.
  - rewrite (FetchScores_loop_chunks cveIDs (length cveIDs)) by lia.
    by rewrite foldl_fetch_chunk_rows.
Qed.

Lemma fetched_rows_all_failed (cveIDs : list string) :
  (forall i url, succeeded (get i url) = false) -> fetched_rows get cveIDs = [].
Proof.
  intros Hfail. unfold fetched_rows.
  induction (chunks cveIDs) as [|[i chunk] l IH]; simpl; [done|].
  rewrite IH, app_nil_r. specialize (Hfail i (chunk_url chunk)).
  unfold succeeded in Hfail. unfold rows_of.
  destruct (get i (chunk_url chunk)) as [e|status [epssResp|e]]; [done| |done].
  by rewrite Hfail.
Qed.

(** Under each CVE ID the map has the record of the last row with it. *)
Lemma foldl_store_row_lookup (rows : list EPSSData) :
  forall (m : gmap string EPSSScore_t) (c : string),
    foldl store_row m rows !! c
    = match last (filter (fun row => d_CVE row = c) rows) with
      | Some row => Some (row_score strconv_ParseFloat row)
      | None => m !! c
      end.
Proof.
  induction rows as [|row rows IH] using rev_ind; intros m c; [done|].
  rewrite foldl_snoc, filter_app. unfold epss.store_row at 1.
  destruct (decide (d_CVE row = c)) as [Heq|Hne].
  - rewrite (filter_cons_True _ row []) by done.
    rewrite filter_nil, last_snoc. rewrite Heq. by rewrite lookup_insert_eq.
  - rewrite (filter_cons_False _ row []) by done.
    rewrite filter_nil, app_nil_r. rewrite lookup_insert_ne by done. apply IH.
Qed.

(** Every record of the result comes, both fields, from one row fetched
    under that CVE ID. *)
Lemma FetchScores_record (cveIDs : list string) (c : string) (s : EPSSScore_t) :
  (FetchScores cveIDs).1 !! c = Some s ->
  exists row, row ∈ fetched_rows get cveIDs
              /\ d_CVE row = c /\ s = row_score strconv_ParseFloat row.
Proof.
  rewrite FetchScores_spec. simpl. rewrite foldl_store_row_lookup, lookup_empty.
  destruct (last _) as [row|] eqn:Hlast; [|done].
  intros [= <-]. exists row.
  apply last_Some_elem_of in Hlast. apply list_elem_of_filter in Hlast as [? ?]. done.
Qed.

(** The record under a CVE ID is that of the last fetched row with it. *)
Lemma FetchScores_lookup (cveIDs : list string) (c : string) :
  (FetchScores cveIDs).1 !! c
  = row_score strconv_ParseFloat
      <$> last (filter (fun row => d_CVE row = c) (fetched_rows get cveIDs)).
Proof.
  rewrite FetchScores_spec. simpl. rewrite foldl_store_row_lookup, lookup_empty.
  by destruct (last _).
Qed.

(** The rows of a request that went through are among the fetched rows. *)
Lemma fetched_rows_chunk (cveIDs : list string) (i : nat) (chunk : list string)
      (epssResp : EPSSResponse) (row : EPSSData) :
  (i, chunk) ∈ chunks cveIDs ->
  get i (chunk_url chunk) = Reply StatusOK (Ok epssResp) ->
  row ∈ r_Data epssResp ->
  row ∈ fetched_rows get cveIDs.
Proof.
  intros Hchunk Hget Hrow. unfold fetched_rows.
  apply list_elem_of_In, in_flat_map. exists (i, chunk).
  split; [by apply list_elem_of_In|]. simpl. rewrite Hget. simpl.
  by apply list_elem_of_In.
Qed.

(** A CVE ID with a fetched row has a record, that of such a row. *)
Lemma FetchScores_has_row (cveIDs : list string) (row : EPSSData) :
  row ∈ fetched_rows get cveIDs ->
  exists row', row' ∈ fetched_rows get cveIDs
               /\ d_CVE row' = d_CVE row
               /\ (FetchScores cveIDs).1 !! d_CVE row = Some (row_score strconv_ParseFloat row').
Proof.
  intros Hrow. rewrite FetchScores_lookup.
  assert (row ∈ filter (fun row' => d_CVE row' = d_CVE row) (fetched_rows get cveIDs)) as Hin
      by (by apply list_elem_of_filter).
  destruct (last (filter _ (fetched_rows get cveIDs))) as [row'|] eqn:Hlast.
  - exists row'. apply last_Some_elem_of, list_elem_of_filter in Hlast as [? ?]. done.
  - apply last_None in Hlast. rewrite Hlast in Hin. by apply elem_of_nil in Hin.
Qed.

Lemma succeeded_false (reply : http_reply EPSSResponse) :
  succeeded reply = false
  <-> (exists e, reply = TransportError e)
      \/ (exists status body, reply = Reply status body /\ status <> StatusOK)
      \/ (exists e, reply = Reply StatusOK (Err e)).
Proof.
  unfold succeeded. split.
  - destruct reply as [e|status [epssResp|e]]; [left; by eexists| |].
    + intros Hne%Z.eqb_neq. right. left. by eexists _, _.
    + intros _. destruct (decide (status = StatusOK)) as [->|Hne].
      * right. right. by eexists.
      * right. left. by eexists _, _.
  - intros [[e ->]|[(status & body & -> & Hne)|[e ->]]]; [done| |done].
    destruct body; [|done]. by apply Z.eqb_neq.
Qed.

End epss_facts.

(** ** The scanner: cross-reference *)

Lemma omap_cons {A B : Type} (f : A -> option B) (x : A) (l : list A) :
  omap f (x :: l) = match f x with Some y => y :: omap f l | None => omap f l end.
Proof. reflexivity. Qed.

(** The elements an [omap] keeps, paired with what it makes of them. *)
Lemma omap_kept {A B : Type} (h : A -> option B) (l : list A) :
  exists kept, kept `sublist_of` l /\ Forall2 (fun x y => h x = Some y) kept (omap h l).
Proof.
  induction l as [|x l (kept & Hsub & Hall)]; [exists []; by split|].
  rewrite omap_cons. destruct (h x) as [y|] eqn:Hx.
  - exists (x :: kept). split; [by apply sublist_skip|by constructor].
  - exists kept. split; [by apply sublist_cons|done].
Qed.

Lemma omap_omap {A B C : Type} (f : A -> option B) (g : B -> option C) (l : list A) :
  omap g (omap f l) = omap (fun x => f x ≫= g) l.
Proof.
  induction l as [|x l IH]; [done|]. rewrite !omap_cons.
  destruct (f x) as [y|]; [rewrite omap_cons|]; simpl; by rewrite IH.
Qed.

Lemma omap_Some_id {A : Type} (l : list A) : omap Some l = l.
Proof. induction l as [|x l IH]; [done|]. by rewrite omap_cons, IH. Qed.

Section crossref_facts.
Import scanner.

Variable deps : list Dependency.
Variable kevCatalog : gmap string KEVInfo.

Lemma foldl_check_cve (cves : list CVEInfo) :
  forall kevs ids,
    foldl (check_cve kevCatalog) (kevs, ids) cves
    = (kevs ++ matched_kevs kevCatalog cves, ids ++ matched_ids kevCatalog cves).
Proof.
  unfold matched_kevs, matched_ids.
  induction cves as [|cve cves IH]; intros kevs ids; simpl.
  - by rewrite !app_nil_r.
  - unfold check_cve at 2. destruct (kevCatalog !! ID cve) as [kevInfo|]; simpl.
    + rewrite IH. by rewrite <- !app_assoc.
    + apply IH.
Qed.

Lemma matched_ids_length (cves : list CVEInfo) :
  length (matched_ids kevCatalog cves) = length (matched_kevs kevCatalog cves).
Proof.
  unfold matched_kevs, matched_ids.
  induction cves as [|cve cves IH]; simpl; [done|].
  destruct (kevCatalog !! ID cve); simpl; [f_equal|]; exact IH.
Qed.

Lemma matched_kevs_elem (cves : list CVEInfo) (k : KEVInfo) :
  k ∈ matched_kevs kevCatalog cves ->
  exists cve, cve ∈ cves /\ kevCatalog !! ID cve = Some k.
Proof. unfold matched_kevs. by rewrite list_elem_of_omap. Qed.

(** One step of the outer loop, from a live state. *)
Lemma cross_step_Some (findings : list Finding) (ids : list string) (entry : nat * list CVEInfo) :
  cross_step deps kevCatalog (Some (findings, ids)) entry
  = match deps !! entry.1 with
    | None => None
    | Some _ =>
        Some (findings ++ match mk_finding deps kevCatalog entry with
                          | Some f => [f]
                          | None => []
                          end,
              ids ++ matched_ids kevCatalog entry.2)
    end.
Proof.
  destruct entry as [depIdx cves]. unfold cross_step, mk_finding. simpl.
  destruct (deps !! depIdx) as [dep|]; simpl; [|done].
  rewrite foldl_check_cve. simpl.
  destruct (0 <? length (matched_kevs kevCatalog cves)); [done|].
  by rewrite app_nil_r.
Qed.

Lemma foldl_cross_step_None (visit : list (nat * list CVEInfo)) :
  foldl (cross_step deps kevCatalog) None visit = None.
Proof. induction visit as [|e visit IH]; simpl; [done|]. apply IH. Qed.

(** If the loop ends without a panic, every visited index was in range
    and the state grew by the findings and the matched IDs, in visiting
    order. *)
Lemma foldl_cross_step_Some (visit : list (nat * list CVEInfo)) :
  forall findings ids r,
    foldl (cross_step deps kevCatalog) (Some (findings, ids)) visit = Some r ->
    Forall (fun entry => entry.1 < length deps) visit
    /\ r = (findings ++ omap (mk_finding deps kevCatalog) visit,
            ids ++ (visit ≫= fun entry => matched_ids kevCatalog entry.2)).
Proof.
  induction visit as [|e visit IH]; intros findings ids r; cbn [foldl].
  - intros [= <-]. simpl. by rewrite !app_nil_r.
  - rewrite cross_step_Some.
    destruct (deps !! e.1) as [dep|] eqn:Hdep.
    + intros Hr. apply IH in Hr as [Hall ->]. split.
      * constructor; [by eapply lookup_lt_Some|done].
      * rewrite omap_cons, bind_cons.
        destruct (mk_finding deps kevCatalog e); simpl; by rewrite <- !app_assoc.
    + by rewrite foldl_cross_step_None.
Qed.

Lemma foldl_cross_step_total (visit : list (nat * list CVEInfo)) :
  Forall (fun entry => entry.1 < length deps) visit ->
  forall findings ids,
    foldl (cross_step deps kevCatalog) (Some (findings, ids)) visit
    = Some (findings ++ omap (mk_finding deps kevCatalog) visit,
            ids ++ (visit ≫= fun entry => matched_ids kevCatalog entry.2)).
Proof.
  induction 1 as [|e visit He _ IH]; intros findings ids; cbn [foldl].
  - simpl. by rewrite !app_nil_r.
  - rewrite cross_step_Some.
    destruct (lookup_lt_is_Some_2 deps e.1 He) as [dep ->].
    rewrite IH, omap_cons, bind_cons.
    destruct (mk_finding deps kevCatalog e); simpl; by rewrite <- !app_assoc.
Qed.

Lemma crossReference_Some (visit : list (nat * list CVEInfo))
      (findings : list Finding) (ids : list string) :
  crossReference deps kevCatalog visit = Some (findings, ids) ->
  Forall (fun entry => entry.1 < length deps) visit
  /\ findings = omap (mk_finding deps kevCatalog) visit
  /\ ids = (visit ≫= fun entry => matched_ids kevCatalog entry.2).
Proof.
  unfold crossReference. intros H.
  apply foldl_cross_step_Some in H as [Hall [= -> ->]]. done.
Qed.

Lemma crossReference_total (visit : list (nat * list CVEInfo)) :
  Forall (fun entry => entry.1 < length deps) visit ->
  crossReference deps kevCatalog visit
  = Some (omap (mk_finding deps kevCatalog) visit,
          visit ≫= fun entry => matched_ids kevCatalog entry.2).
Proof. intros H. unfold crossReference. by rewrite foldl_cross_step_total. Qed.

Lemma mk_finding_Some (entry : nat * list CVEInfo) (f : Finding) :
  mk_finding deps kevCatalog entry = Some f ->
  deps !! entry.1 = Some (Dep f)
  /\ CVEs f = entry.2
  /\ KEVs f = matched_kevs kevCatalog entry.2
  /\ KEVs f <> [].
Proof.
  unfold mk_finding. destruct (deps !! entry.1) as [dep|]; simpl; [|done].
  destruct (0 <? length (matched_kevs kevCatalog entry.2)) eqn:Hlen; [|done].
  intros [= <-]. simpl. repeat split.
  apply Nat.ltb_lt in Hlen. destruct (matched_kevs kevCatalog entry.2); simpl in Hlen; [lia|done].
Qed.

Lemma mk_finding_None (entry : nat * list CVEInfo) :
  entry.1 < length deps ->
  mk_finding deps kevCatalog entry = None ->
  matched_kevs kevCatalog entry.2 = [].
Proof.
  intros Hlt. unfold mk_finding.
  destruct (lookup_lt_is_Some_2 deps entry.1 Hlt) as [dep ->]. simpl.
  destruct (matched_kevs kevCatalog entry.2); [done|]. done.
Qed.

(** A finding of the cross-reference stage has KEV entries, all of them
    catalog values found under the ID of one of its CVEs. *)
Lemma crossReference_finding (visit : list (nat * list CVEInfo))
      (findings : list Finding) (ids : list string) (f : Finding) :
  crossReference deps kevCatalog visit = Some (findings, ids) ->
  f ∈ findings ->
  KEVs f <> []
  /\ (exists depIdx, (depIdx, CVEs f) ∈ visit /\ deps !! depIdx = Some (Dep f))
  /\ (forall k, k ∈ KEVs f -> exists cve, cve ∈ CVEs f /\ kevCatalog !! ID cve = Some k).
Proof.
  intros Hx Hf. apply crossReference_Some in Hx as (_ & -> & _).
  apply list_elem_of_omap in Hf as ([depIdx cves] & Hin & Hmk).
  apply mk_finding_Some in Hmk as (Hdep & Hcves & Hkevs & Hne). simpl in *.
  split; [done|]. split.
  - exists depIdx. by rewrite Hcves.
  - intros k Hk. rewrite Hkevs in Hk. rewrite Hcves. by apply matched_kevs_elem.
Qed.

(** [allKEVCVEs] has one ID per KEV entry of the findings. *)
Lemma crossReference_ids_length (visit : list (nat * list CVEInfo))
      (findings : list Finding) (ids : list string) :
  crossReference deps kevCatalog visit = Some (findings, ids) ->
  length ids = total_kevs findings.
Proof.
  intros Hx. apply crossReference_Some in Hx as (Hall & -> & ->).
  induction Hall as [|e visit He _ IH]; [done|].
  rewrite bind_cons, length_app, matched_ids_length, IH, omap_cons.
  destruct (mk_finding deps kevCatalog e) as [f|] eqn:Hmk.
  - apply mk_finding_Some in Hmk as (_ & _ & Hk & _).
    cbn [total_kevs foldr]. by rewrite Hk.
  - by rewrite (mk_finding_None e He Hmk).
Qed.

Lemma total_kevs_zero (findings : list Finding) :
  Forall (fun f => KEVs f <> []) findings -> total_kevs findings = 0 -> findings = [].
Proof.
  destruct 1 as [|f findings Hf _]; [done|]. simpl.
  destruct (KEVs f); [done|]. simpl. lia.
Qed.

Lemma crossReference_no_ids (visit : list (nat * list CVEInfo)) (findings : list Finding) :
  crossReference deps kevCatalog visit = Some (findings, []) -> findings = [].
Proof.
  intros Hx. apply total_kevs_zero.
  - apply Forall_forall. intros f Hf.
    by destruct (crossReference_finding visit findings [] f Hx Hf) as [? _].
  - by rewrite <- (crossReference_ids_length visit findings [] Hx).
Qed.

End crossref_facts.

(** ** The scanner: order of the findings *)
Section order_facts.
Import scanner.

Lemma NoDup_omap {A B : Type} (f : A -> option B) (g : B -> A) (l : list A) :
  (forall x y, f x = Some y -> g y = x) -> NoDup l -> NoDup (omap f l).
Proof.
  intros Hinv. induction 1 as [|x l Hx Hnd IH]; [constructor|].
  rewrite omap_cons. destruct (f x) as [y|] eqn:Hfx; [|done].
  constructor; [|done].
  intros Hin. apply list_elem_of_omap in Hin as (x' & Hx' & Hfx').
  apply Hinv in Hfx. apply Hinv in Hfx'. congruence.
Qed.

(** When every key is below [n], the ascending listing has exactly the
    entries of the map. *)
Lemma ascending_Permutation (n : nat) (cvesByDep : gmap nat (list CVEInfo)) :
  (forall k, is_Some (cvesByDep !! k) -> k < n) ->
  ascending n cvesByDep ≡ₚ map_to_list cvesByDep.
Proof.
  intros Hrange. apply NoDup_Permutation.
  - apply (NoDup_omap _ fst); [|apply NoDup_seq].
    intros k [k' cves]. destruct (cvesByDep !! k); simpl; [|done]. by intros [= <- <-].
  - apply NoDup_map_to_list.
  - intros [k cves]. unfold ascending. rewrite list_elem_of_omap, elem_of_map_to_list. split.
    + intros (k' & _ & Hk'). destruct (cvesByDep !! k') eqn:Hm; simpl in Hk'; [|done].
      by injection Hk' as <- <-.
    + intros Hm. exists k. split.
      * apply elem_of_seq. split; [lia|]. simpl. apply Hrange. by rewrite Hm.
      * by rewrite Hm.
Qed.

Lemma visit_in_range (deps : list Dependency) (cvesByDep : gmap nat (list CVEInfo))
      (visit : list (nat * list CVEInfo)) :
  visit ≡ₚ map_to_list cvesByDep ->
  (forall k, is_Some (cvesByDep !! k) -> k < length deps) ->
  Forall (fun entry => entry.1 < length deps) visit.
Proof.
  intros Hperm Hrange. apply Forall_forall. intros [k cves] Hin.
  rewrite Hperm in Hin. apply elem_of_map_to_list in Hin.
  simpl. apply Hrange. by rewrite Hin.
Qed.

(** C2, as the code has it. Take a dependency list, an OSV map all of
    whose indices are indices of that list, and a catalog. Two runs of
    the cross-reference stage, each visiting the map in some order of
    Go's choosing, both complete. In each run the finding sequence
    follows the order of the visit: it has, in that order, the finding
    of each visited entry that has a KEV match, and the matched IDs are
    those of the visited entries in that order. The two runs therefore
    yield the same findings and the same matched IDs up to order; each
    finding sequence is a rearrangement of the findings listed by
    ascending dependency index, and it is that very list when the map
    is visited by ascending index. *)
Theorem crossReference_same_findings_up_to_order
        (deps : list Dependency) (kevCatalog : gmap string KEVInfo)
        (cvesByDep : gmap nat (list CVEInfo))
        (visit1 visit2 : list (nat * list CVEInfo))
        (Hvisit1 : visit1 ≡ₚ map_to_list cvesByDep)
        (Hvisit2 : visit2 ≡ₚ map_to_list cvesByDep)
        (Hrange : forall k, is_Some (cvesByDep !! k) -> k < length deps) :
  exists findings1 ids1 findings2 ids2,
    crossReference deps kevCatalog visit1 = Some (findings1, ids1)
    /\ crossReference deps kevCatalog visit2 = Some (findings2, ids2)
    /\ findings1 ≡ₚ findings2
    /\ ids1 ≡ₚ ids2
    /\ findings1 ≡ₚ findings_by_index deps kevCatalog cvesByDep
    /\ (visit1 = ascending (length deps) cvesByDep ->
        findings1 = findings_by_index deps kevCatalog cvesByDep)
    /\ findings1 = omap (mk_finding deps kevCatalog) visit1
    /\ findings2 = omap (mk_finding deps kevCatalog) visit2
    /\ ids1 = (visit1 ≫= fun entry => matched_ids kevCatalog entry.2)
    /\ ids2 = (visit2 ≫= fun entry => matched_ids kevCatalog entry.2)
    /\ (forall entry f,
          mk_finding deps kevCatalog entry = Some f
          <-> deps !! entry.1 = Some (Dep f)
              /\ CVEs f = entry.2
              /\ KEVs f = matched_kevs kevCatalog entry.2
              /\ KEVs f <> []).
Proof.
  eexists _, _, _, _.
  split; [apply crossReference_total; by eapply visit_in_range|].
  split; [apply crossReference_total; by eapply visit_in_range|].
  split; [by rewrite Hvisit1, Hvisit2|].
  split; [by rewrite Hvisit1, Hvisit2|].
  split; [unfold findings_by_index; by rewrite Hvisit1, ascending_Permutation|].
  split; [by intros ->|]. do 4 (split; [reflexivity|]).
  intros entry f. split; [apply mk_finding_Some|].
  intros (Hdep & Hcves & Hkevs & Hne). unfold mk_finding. rewrite Hdep. simpl.
  rewrite <- Hkevs. destruct (KEVs f) as [|k kevs] eqn:Hk; [done|]. simpl.
  destruct f as [dep cves kevs']. simpl in *. by subst.
Qed.

End order_facts.

(** ** The scanner: enrichment and the whole scan *)
Section scan_facts.
Import scanner.

Variable json_Unmarshal : list byte -> result kev.KEVResponse.
Variable time_Parse : string -> string -> time.Time * option error.
Variable strconv_ParseFloat : string -> float64 * option error.
Variable sha256_Sum256 : string -> list byte.
Variable hex_EncodeToString : list byte -> string.
Variable filepath_Join : string -> string -> string.

Local Abbreviation FetchKEVCatalog :=
  (scanner.FetchKEVCatalog json_Unmarshal time_Parse
     sha256_Sum256 hex_EncodeToString filepath_Join).
Local Abbreviation FetchScores := (scanner.FetchScores strconv_ParseFloat).
Local Abbreviation Scan :=
  (scanner.Scan json_Unmarshal time_Parse strconv_ParseFloat
     sha256_Sum256 hex_EncodeToString filepath_Join).

Lemma enrich_kev_CVEID (epssScores : gmap string EPSSScore_t) (k : KEVInfo) :
  CVEID (enrich_kev epssScores k) = CVEID k.
Proof. unfold enrich_kev. by destruct (epssScores !! CVEID k). Qed.

Lemma enrich_kev_empty (k : KEVInfo) : enrich_kev ∅ k = k.
Proof. unfold enrich_kev. by rewrite lookup_empty. Qed.

Lemma enrich_empty (findings : list Finding) : enrich ∅ findings = findings.
Proof.
  unfold enrich. induction findings as [|[dep cves kevs] findings IH]; simpl; [done|].
  rewrite IH. unfold enrich_finding. simpl. f_equal. f_equal.
  induction kevs as [|k kevs IHk]; simpl; [done|].
  by rewrite enrich_kev_empty, IHk.
Qed.

(** What enrichment does to one entry: nothing without a record under
    its CVE ID, both fields from the record otherwise. *)
Lemma enrich_kev_fields (epssScores : gmap string EPSSScore_t) (k : KEVInfo) :
  match epssScores !! CVEID k with
  | None => enrich_kev epssScores k = k
  | Some score => EPSSScore (enrich_kev epssScores k) = Score score
                  /\ EPSSPercentile (enrich_kev epssScores k) = Percentile score
  end.
Proof. unfold enrich_kev. by destruct (epssScores !! CVEID k). Qed.

Lemma enrich_elem (epssScores : gmap string EPSSScore_t) (findings : list Finding) (f : Finding) :
  f ∈ enrich epssScores findings ->
  exists f0, f0 ∈ findings /\ Dep f = Dep f0 /\ CVEs f = CVEs f0
             /\ KEVs f = map (enrich_kev epssScores) (KEVs f0).
Proof.
  unfold enrich. change (map (enrich_finding epssScores) findings)
    with (enrich_finding epssScores <$> findings).
  intros Hf. apply list_elem_of_fmap in Hf as (f0 & -> & Hf0). by exists f0.
Qed.

Lemma enrichStage_elem (FS : list string -> gmap string EPSSScore_t * option error)
      (findings : list Finding) (ids : list string) (f : Finding) :
  f ∈ (enrichStage FS findings ids).1 ->
  exists f0, f0 ∈ findings /\ Dep f = Dep f0 /\ CVEs f = CVEs f0
             /\ length (KEVs f) = length (KEVs f0).
Proof.
  unfold enrichStage. destruct (0 <? length ids); simpl.
  - intros Hf. apply enrich_elem in Hf as (f0 & ? & ? & ? & ->).
    exists f0. by rewrite length_map.
  - intros Hf. by exists f.
Qed.

Lemma enrichStage_calls (FS : list string -> gmap string EPSSScore_t * option error)
      (findings : list Finding) (ids : list string) :
  (enrichStage FS findings ids).2 = if decide (ids = []) then [] else [ids].
Proof. unfold enrichStage. by destruct ids. Qed.

Lemma filterStage_elem (threshold : float64) (findings : list Finding) (f : Finding) :
  f ∈ filterStage threshold findings ->
  exists f0, f0 ∈ findings /\ Dep f = Dep f0 /\ CVEs f = CVEs f0
             /\ (forall k, k ∈ KEVs f -> k ∈ KEVs f0)
             /\ (KEVs f0 <> [] -> KEVs f <> []).
Proof.
  unfold filterStage. destruct (f64_gt threshold f64_zero).
  - rewrite filterFindings_omap, list_elem_of_omap. intros (f0 & Hf0 & Hkeep).
    exists f0. unfold filter_finding in Hkeep.
    destruct (0 <? length (List.filter (retained threshold) (KEVs f0))) eqn:Hlen; [|done].
    injection Hkeep as <-. simpl. repeat split; [done| |].
    + intros k Hk. apply list_elem_of_In in Hk. apply filter_In in Hk as [Hk _].
      by apply list_elem_of_In.
    + intros _. apply Nat.ltb_lt in Hlen.
      destruct (List.filter _ _); simpl in Hlen; [lia|done].
  - intros Hf. by exists f.
Qed.

(** The catalog [FetchKEVCatalog] returns was built by the parser. *)
Lemma FetchKEVCatalog_built (s : Scanner) (w : World)
      (kevCatalog : gmap string KEVInfo) (fs : cache.FS) :
  FetchKEVCatalog s w = (Ok kevCatalog, fs) ->
  exists vulns, kevCatalog = kev.build_catalog time_Parse vulns.
Proof.
  unfold scanner.FetchKEVCatalog, kev.FetchKEVCatalog.
  assert (Hparse : forall bytes fs',
             (kev.parseKEVData json_Unmarshal time_Parse bytes, fs') = (Ok kevCatalog, fs) ->
             exists vulns, kevCatalog = kev.build_catalog time_Parse vulns).
  { intros bytes fs' [= Hp _]. apply parseKEVData_Ok in Hp as (kevResp & _ & ->). eauto. }
  destruct (kev_cache s) as [c|].
  - destruct (cache.Get _ _ _ c (w_fs w) (w_now w) kev.kevURL) as [bytes [|]]; [apply Hparse|].
    destruct (w_kev_get w kev.kevURL) as [e|status [bytes'|e]]; [done| |];
      destruct (status =? StatusOK)%Z; try done. apply Hparse.
  - destruct (w_kev_get w kev.kevURL) as [e|status [bytes'|e]]; [done| |];
      destruct (status =? StatusOK)%Z; try done. apply Hparse.
Qed.

(** The run of a scan whose first four steps go through. *)
Lemma Scan_reaches_crossref (s : Scanner) (w : World) (deps : list Dependency)
      (kevCatalog : gmap string KEVInfo) (fs : cache.FS)
      (cvesByDep : gmap nat (list CVEInfo)) (findings : list Finding) (ids : list string) :
  w_discover w = Ok deps ->
  length deps <> 0 ->
  FetchKEVCatalog s w = (Ok kevCatalog, fs) ->
  osv.QueryBatch (w_osv_post w) deps = Ok cvesByDep ->
  crossReference deps kevCatalog (w_range w cvesByDep) = Some (findings, ids) ->
  Scan s w
  = {| run_outcome :=
         Returned (filterStage (EPSSThreshold (config s))
                               (enrichStage (FetchScores w) findings ids).1);
       run_fs := fs;
       run_epss_calls := (enrichStage (FetchScores w) findings ids).2 |}.
Proof.
  intros Hd Hne Hk Hq Hx. unfold scanner.Scan, crossref_to_filter.
  rewrite Hd. rewrite decide_False by done. rewrite Hk, Hq, Hx.
  by destruct (enrichStage _ findings ids).
Qed.

(** A scan that returns findings either had no dependencies or went
    through all the steps. *)
Lemma Scan_Returned_inv (s : Scanner) (w : World) (result : list Finding) :
  run_outcome (Scan s w) = Returned result ->
  result = []
  \/ exists deps kevCatalog fs cvesByDep findings ids,
      w_discover w = Ok deps
      /\ length deps <> 0
      /\ FetchKEVCatalog s w = (Ok kevCatalog, fs)
      /\ osv.QueryBatch (w_osv_post w) deps = Ok cvesByDep
      /\ crossReference deps kevCatalog (w_range w cvesByDep) = Some (findings, ids)
      /\ result = filterStage (EPSSThreshold (config s))
                              (enrichStage (FetchScores w) findings ids).1.
Proof.
  unfold scanner.Scan, crossref_to_filter.
  destruct (w_discover w) as [deps|e]; [|done].
  destruct (decide (length deps = 0)) as [Hz|Hnz]; [intros [= <-]; by left|].
  destruct (FetchKEVCatalog s w) as [[kevCatalog|e] fs] eqn:Hk; [|done].
  destruct (osv.QueryBatch (w_osv_post w) deps) as [cvesByDep|e] eqn:Hq; [|done].
  destruct (crossReference deps kevCatalog (w_range w cvesByDep)) as [[findings ids]|] eqn:Hx;
    [|done].
  destruct (enrichStage (FetchScores w) findings ids) as [enriched calls] eqn:He.
  simpl. intros [= <-]. right.
  exists deps, kevCatalog, fs, cvesByDep, findings, ids. by rewrite He.
Qed.

(** Against a per-query OSV service, and with the catalog fetched, the
    scan returns: no index of the OSV map is out of range, whatever the
    order Go visits the map in. *)
Lemma Scan_returns (s : Scanner) (w : World) (deps : list Dependency)
      (kevCatalog : gmap string KEVInfo) (fs : cache.FS)
      (respond : osv.osvQuery -> list osv.osvVulnerability) :
  w_discover w = Ok deps ->
  FetchKEVCatalog s w = (Ok kevCatalog, fs) ->
  w_osv_post w = osv.per_query respond ->
  range_order_ok (w_range w) ->
  exists result, run_outcome (Scan s w) = Returned result.
Proof.
  intros Hd Hk Hpost Hrange.
  destruct (decide (length deps = 0)) as [Hz|Hnz].
  { exists []. unfold scanner.Scan. rewrite Hd. by rewrite decide_True by done. }
  destruct (QueryBatch_per_query respond deps) as (m & Hm & Hlook).
  rewrite <- Hpost in Hm.
  assert (Hin : Forall (fun entry => entry.1 < length deps) (w_range w m)).
  { apply (visit_in_range deps m); [apply Hrange|].
    intros k [l Hl]. rewrite Hlook in Hl. by apply cves_at_nonempty in Hl as [_ ?]. }
  eexists.
  rewrite (Scan_reaches_crossref s w deps kevCatalog fs m _ _ Hd Hnz Hk Hm
             (crossReference_total deps kevCatalog _ Hin)).
  reflexivity.
Qed.

(** Steps 5 and 6 on one finding. *)
Lemma filterStage_omap (threshold : float64) (findings : list Finding) :
  filterStage threshold findings
  = omap (fun f => if f64_gt threshold f64_zero then filter_finding threshold f else Some f)
         findings.
Proof.
  unfold filterStage. destruct (f64_gt threshold f64_zero).
  - apply filterFindings_omap.
  - by rewrite omap_Some_id.
Qed.

Lemma enrichStage_map (FS : list string -> gmap string EPSSScore_t * option error)
      (findings : list Finding) (ids : list string) :
  (enrichStage FS findings ids).1
  = map (fun f => if 0 <? length ids then enrich_finding (FS ids).1 f else f) findings.
Proof.
  unfold enrichStage. destruct (0 <? length ids); simpl; [done|]. by rewrite map_id.
Qed.

(** What the scan reports for a map entry, if anything, belongs to the
    entry: it has the dependency at the entry's index and the entry's
    CVEs, and its KEV entries carry the IDs of catalog entries found
    under those CVEs. *)
Lemma reported_finding_of_entry (deps : list Dependency) (kevCatalog : gmap string KEVInfo)
      (epssScores : gmap string EPSSScore_t) (enriched : bool) (threshold : float64)
      (entry : nat * list CVEInfo) (f : Finding) :
  (mk_finding deps kevCatalog entry
     ≫= fun f0 =>
          let f1 := if enriched then enrich_finding epssScores f0 else f0 in
          if f64_gt threshold f64_zero then filter_finding threshold f1 else Some f1)
  = Some f ->
  deps !! entry.1 = Some (Dep f)
  /\ CVEs f = entry.2
  /\ KEVs f <> []
  /\ (exists cve, cve ∈ entry.2 /\ is_Some (kevCatalog !! ID cve))
  /\ (forall k, k ∈ KEVs f ->
        exists cve k0, cve ∈ entry.2 /\ kevCatalog !! ID cve = Some k0
                       /\ CVEID k = CVEID k0).
Proof.
  destruct (mk_finding deps kevCatalog entry) as [f0|] eqn:Hmk; [|done]. simpl.
  apply mk_finding_Some in Hmk as (Hdep & Hcves & Hkevs & Hne).
  set (f1 := if enriched then enrich_finding epssScores f0 else f0).
  assert (Dep f1 = Dep f0 /\ CVEs f1 = CVEs f0 /\ KEVs f1 <> []
          /\ forall k, k ∈ KEVs f1 -> exists k0, k0 ∈ KEVs f0 /\ CVEID k = CVEID k0)
    as (Hdep1 & Hcves1 & Hne1 & Hk1).
  { subst f1. destruct enriched; simpl.
    - split; [done|]. split; [done|]. split; [by destruct (KEVs f0)|].
      intros k Hk. change (k ∈ enrich_kev epssScores <$> KEVs f0) in Hk.
      apply list_elem_of_fmap in Hk as (k0 & -> & Hk0). exists k0.
      by rewrite enrich_kev_CVEID.
    - split; [done|]. split; [done|]. split; [done|]. intros k Hk. by exists k. }
  clearbody f1. intros Hf.
  assert (Dep f = Dep f1 /\ CVEs f = CVEs f1 /\ KEVs f <> []
          /\ forall k, k ∈ KEVs f -> k ∈ KEVs f1) as (Hdep2 & Hcves2 & Hne2 & Hk2).
  { destruct (f64_gt threshold f64_zero).
    - unfold filter_finding in Hf.
      destruct (0 <? length (List.filter (retained threshold) (KEVs f1))) eqn:Hlen; [|done].
      injection Hf as <-. simpl. split; [done|]. split; [done|]. split.
      + apply Nat.ltb_lt in Hlen. destruct (List.filter _ _); simpl in Hlen; [lia|done].
      + intros k Hk. apply list_elem_of_In, filter_In in Hk as [Hk _].
        by apply list_elem_of_In.
    - by injection Hf as <-. }
  rewrite Hdep2, Hdep1, Hcves2, Hcves1. split; [done|]. split; [done|]. split; [done|].
  assert (forall k0, k0 ∈ KEVs f0 ->
                     exists cve, cve ∈ entry.2 /\ kevCatalog !! ID cve = Some k0) as Hcat.
  { intros k0 Hk0. rewrite Hkevs in Hk0. by apply matched_kevs_elem. }
  split.
  - destruct (KEVs f0) as [|k0 kevs0] eqn:Hk0; [done|].
    destruct (Hcat k0) as (cve & Hcve & Hlook); [apply elem_of_cons; by left|].
    exists cve. split; [done|]. by rewrite Hlook.
  - intros k Hk. destruct (Hk1 k (Hk2 k Hk)) as (k0 & Hk0 & Hid).
    destruct (Hcat k0 Hk0) as (cve & Hcve & Hlook). by exists cve, k0.
Qed.

(** The findings a scan returns, entry by entry of the visited map. *)
Lemma Scan_result_by_entry (s : Scanner) (w : World) (deps : list Dependency)
      (kevCatalog : gmap string KEVInfo) (cvesByDep : gmap nat (list CVEInfo))
      (findings : list Finding) (ids : list string) :
  crossReference deps kevCatalog (w_range w cvesByDep) = Some (findings, ids) ->
  exists kept,
    kept `sublist_of` w_range w cvesByDep
    /\ Forall2 (fun entry f =>
                  deps !! entry.1 = Some (Dep f)
                  /\ CVEs f = entry.2
                  /\ KEVs f <> []
                  /\ (exists cve, cve ∈ entry.2 /\ is_Some (kevCatalog !! ID cve))
                  /\ (forall k, k ∈ KEVs f ->
                        exists cve k0, cve ∈ entry.2 /\ kevCatalog !! ID cve = Some k0
                                       /\ CVEID k = CVEID k0))
               kept
               (filterStage (EPSSThreshold (config s))
                            (enrichStage (FetchScores w) findings ids).1).
Proof.
  intros Hx. apply crossReference_Some in Hx as (_ & -> & _).
  rewrite filterStage_omap, enrichStage_map.
  match goal with |- context [map ?g ?l] => change (map g l) with (g <$> l) end.
  rewrite list_fmap_alt, !omap_omap.
  match goal with |- context [omap ?h (w_range w cvesByDep)] =>
    destruct (omap_kept h (w_range w cvesByDep)) as (kept & Hsub & Hall) end.
  exists kept. split; [done|].
  eapply Forall2_impl; [exact Hall|]. intros entry f Hentry.
  apply (reported_finding_of_entry deps kevCatalog (FetchScores w ids).1
           (0 <? length ids) (EPSSThreshold (config s))).
  exact Hentry.
Qed.

(** A scan that returns had no dependency, or went through all the
    steps and returns the findings of visited entries of the OSV map. *)
Lemma Scan_Returned_by_entry (s : Scanner) (w : World) (result : list Finding) :
  run_outcome (Scan s w) = Returned result ->
  (w_discover w = Ok [] /\ result = [])
  \/ exists deps kevCatalog fs cvesByDep kept,
       w_discover w = Ok deps
       /\ FetchKEVCatalog s w = (Ok kevCatalog, fs)
       /\ osv.QueryBatch (w_osv_post w) deps = Ok cvesByDep
       /\ kept `sublist_of` w_range w cvesByDep
       /\ Forall2 (fun entry f =>
                     deps !! entry.1 = Some (Dep f)
                     /\ CVEs f = entry.2
                     /\ KEVs f <> []
                     /\ (exists cve, cve ∈ entry.2 /\ is_Some (kevCatalog !! ID cve))
                     /\ (forall k, k ∈ KEVs f ->
                           exists cve k0, cve ∈ entry.2
                                          /\ kevCatalog !! ID cve = Some k0
                                          /\ CVEID k = CVEID k0))
                  kept result
       /\ (range_order_ok (w_range w) ->
           NoDup kept.*1
           /\ forall entry, entry ∈ kept -> cvesByDep !! entry.1 = Some entry.2).
Proof.
  unfold scanner.Scan, crossref_to_filter.
  destruct (w_discover w) as [deps|e]; [|done].
  destruct (decide (length deps = 0)) as [Hz|Hnz].
  { intros [= <-]. left. apply nil_length_inv in Hz. by subst. }
  destruct (FetchKEVCatalog s w) as [[kevCatalog|e] fs] eqn:Hk; [|done].
  destruct (osv.QueryBatch (w_osv_post w) deps) as [cvesByDep|e] eqn:Hq; [|done].
  destruct (crossReference deps kevCatalog (w_range w cvesByDep)) as [[findings ids]|] eqn:Hx;
    [|done].
  destruct (Scan_result_by_entry s w deps kevCatalog cvesByDep findings ids Hx)
    as (kept & Hsub & Hall).
  destruct (enrichStage (FetchScores w) findings ids) as [enriched calls] eqn:He.
  simpl in *. intros [= <-]. right.
  exists deps, kevCatalog, fs, cvesByDep, kept.
  split; [done|]. split; [done|]. split; [done|]. split; [done|]. split; [done|].
  intros Hrange. split.
  - apply (sublist_NoDup _ (w_range w cvesByDep).*1); [|by apply fmap_sublist].
    rewrite (Hrange cvesByDep). apply NoDup_fst_map_to_list.
  - intros [depIdx cves] Hin. apply (elem_of_sublist _ _ _ Hin) in Hsub.
    rewrite (Hrange cvesByDep) in Hsub. by apply elem_of_map_to_list in Hsub.
Qed.

(** C1. Every finding [Scan] returns has at least one KEV entry, and
    one of its CVEs is in the KEV catalog the scan fetched. The findings
    are, in the order of the visit, those of some of the visited entries
    of the OSV map, one finding per entry: each has the dependency at
    the entry's index and the entry's CVEs, and at least one of these is
    in the catalog. A dependency none of whose CVEs is in the catalog
    therefore yields no finding. When the visit lists each entry of the
    map once, the entries the findings belong to are bindings of the map
    with distinct indices. *)
Theorem Scan_findings_have_KEV (s : Scanner) (w : World) (result : list Finding)
        (Hret : run_outcome (Scan s w) = Returned result) :
  (forall f, f ∈ result ->
     KEVs f <> []
     /\ HasKEV f = true
     /\ exists kevCatalog fs,
         FetchKEVCatalog s w = (Ok kevCatalog, fs)
         /\ exists cve, cve ∈ CVEs f /\ is_Some (kevCatalog !! ID cve))
  /\ ((w_discover w = Ok [] /\ result = [])
      \/ exists deps kevCatalog fs cvesByDep kept,
           w_discover w = Ok deps
           /\ FetchKEVCatalog s w = (Ok kevCatalog, fs)
           /\ osv.QueryBatch (w_osv_post w) deps = Ok cvesByDep
           /\ kept `sublist_of` w_range w cvesByDep
           /\ Forall2 (fun entry f =>
                         deps !! entry.1 = Some (Dep f)
                         /\ CVEs f = entry.2
                         /\ KEVs f <> []
                         /\ (exists cve, cve ∈ entry.2 /\ is_Some (kevCatalog !! ID cve))
                         /\ (forall k, k ∈ KEVs f ->
                               exists cve k0, cve ∈ entry.2
                                              /\ kevCatalog !! ID cve = Some k0
                                              /\ CVEID k = CVEID k0))
                      kept result
           /\ (range_order_ok (w_range w) ->
               NoDup kept.*1
               /\ forall entry, entry ∈ kept -> cvesByDep !! entry.1 = Some entry.2)).
Proof.
  split; [|apply (Scan_Returned_by_entry s w result Hret)].
  intros f Hf.
  apply Scan_Returned_inv in Hret
    as [->|(deps & kevCatalog & fs & cvesByDep & findings & ids & _ & _ & Hk & _ & Hx & ->)].
  { by apply elem_of_nil in Hf. }
  apply filterStage_elem in Hf as (f1 & Hf1 & _ & Hcves1 & _ & Hne1).
  apply enrichStage_elem in Hf1 as (f0 & Hf0 & _ & Hcves0 & Hlen).
  destruct (crossReference_finding deps kevCatalog _ findings ids f0 Hx Hf0)
    as (Hne0 & _ & Hmatch).
  assert (Hne : KEVs f <> []).
  { apply Hne1. intros Hnil. rewrite Hnil in Hlen. simpl in Hlen.
    destruct (KEVs f0); [done|]. done. }
  split; [done|]. split.
  { unfold HasKEV. apply Nat.ltb_lt. destruct (KEVs f); simpl; [done|lia]. }
  exists kevCatalog, fs. split; [done|].
  destruct (KEVs f0) as [|k0 kevs0] eqn:Hk0; [done|].
  destruct (Hmatch k0) as (cve & Hcve & Hcat); [apply elem_of_cons; by left|].
  exists cve. rewrite Hcves1, Hcves0. split; [done|]. by rewrite Hcat.
Qed.

(** C3, as the code has it. When the matched-CVE list is non-empty the
    EPSS client's [FetchScores] is called exactly once (and not at all
    otherwise); its argument is the matched list itself, one ID for every
    KEV match in visiting order, as many as the findings have KEV entries. *)
Theorem Scan_calls_FetchScores_once_with_all_matches
        (s : Scanner) (w : World) (deps : list Dependency)
        (kevCatalog : gmap string KEVInfo) (fs : cache.FS)
        (cvesByDep : gmap nat (list CVEInfo)) (findings : list Finding) (ids : list string)
        (Hdeps : w_discover w = Ok deps)
        (Hsome : length deps <> 0)
        (Hkev : FetchKEVCatalog s w = (Ok kevCatalog, fs))
        (Hosv : osv.QueryBatch (w_osv_post w) deps = Ok cvesByDep)
        (Hcross : crossReference deps kevCatalog (w_range w cvesByDep) = Some (findings, ids)) :
  run_epss_calls (Scan s w) = (if decide (ids = []) then [] else [ids])
  /\ ids = (w_range w cvesByDep ≫= fun entry => matched_ids kevCatalog entry.2)
  /\ length ids = total_kevs findings.
Proof.
  rewrite (Scan_reaches_crossref s w deps kevCatalog fs cvesByDep findings ids) by done.
  simpl. split; [apply enrichStage_calls|]. split.
  - by apply crossReference_Some in Hcross as (_ & _ & ->).
  - by eapply crossReference_ids_length.
Qed.

(** C7. [FetchScores] always returns a nil error. A request that
    fails (no reply, a status other than 200, or a body that does not
    decode) leaves the score map as it is; the rows of every request
    that goes through are stored, so that under each CVE ID the map has
    the record of the last row fetched with it, whatever other requests
    failed. The scan returns whatever the EPSS service does. When every
    request fails the map is empty, the scan returns the
    cross-referenced findings, and their KEV entries keep the zero score
    and percentile. *)
Theorem EPSS_failures_never_fail_the_scan :
  (forall get cveIDs,
      epss.FetchScores get strconv_ParseFloat cveIDs
      = (foldl (epss.store_row strconv_ParseFloat) ∅ (epss.fetched_rows get cveIDs), None))
  /\ (forall get cveIDs,
         (forall i url, epss.succeeded (get i url) = false) ->
         epss.FetchScores get strconv_ParseFloat cveIDs = (∅, None))
  /\ (forall s w deps kevCatalog fs cvesByDep findings ids,
         (forall i url, epss.succeeded (w_epss_get w i url) = false) ->
         w_discover w = Ok deps ->
         length deps <> 0 ->
         FetchKEVCatalog s w = (Ok kevCatalog, fs) ->
         osv.QueryBatch (w_osv_post w) deps = Ok cvesByDep ->
         crossReference deps kevCatalog (w_range w cvesByDep) = Some (findings, ids) ->
         run_outcome (Scan s w) = Returned (filterStage (EPSSThreshold (config s)) findings)
         /\ forall f k, f ∈ findings -> k ∈ KEVs f ->
                         EPSSScore k = f64_zero /\ EPSSPercentile k = f64_zero)
  /\ (forall reply,
         epss.succeeded reply = false
         <-> (exists e, reply = TransportError e)
             \/ (exists status body, reply = Reply status body /\ status <> StatusOK)
             \/ (exists e, reply = Reply StatusOK (Err e)))
  /\ (forall get i chunk scores,
         epss.succeeded (get i (epss.chunk_url chunk)) = false ->
         epss.fetch_chunk get strconv_ParseFloat i chunk scores = scores)
  /\ (forall get cveIDs c,
         (epss.FetchScores get strconv_ParseFloat cveIDs).1 !! c
         = epss.row_score strconv_ParseFloat
             <$> last (filter (fun row => epss.d_CVE row = c)
                              (epss.fetched_rows get cveIDs)))
  /\ (forall get cveIDs i chunk epssResp row,
         (i, chunk) ∈ epss.chunks cveIDs ->
         get i (epss.chunk_url chunk) = Reply StatusOK (Ok epssResp) ->
         row ∈ epss.r_Data epssResp ->
         row ∈ epss.fetched_rows get cveIDs
         /\ exists row',
             row' ∈ epss.fetched_rows get cveIDs
             /\ epss.d_CVE row' = epss.d_CVE row
             /\ (epss.FetchScores get strconv_ParseFloat cveIDs).1 !! epss.d_CVE row
                = Some (epss.row_score strconv_ParseFloat row'))
  /\ (forall s w deps kevCatalog fs cvesByDep findings ids,
         w_discover w = Ok deps ->
         length deps <> 0 ->
         FetchKEVCatalog s w = (Ok kevCatalog, fs) ->
         osv.QueryBatch (w_osv_post w) deps = Ok cvesByDep ->
         crossReference deps kevCatalog (w_range w cvesByDep) = Some (findings, ids) ->
         run_outcome (Scan s w)
         = Returned (filterStage (EPSSThreshold (config s))
                                 (enrichStage (FetchScores w) findings ids).1)).
Proof.
  split; [intros get cveIDs; apply FetchScores_spec|].
  assert (Hdown : forall get cveIDs,
             (forall i url, epss.succeeded (get i url) = false) ->
             epss.FetchScores get strconv_ParseFloat cveIDs = (∅, None)).
  { intros get cveIDs Hfail. rewrite FetchScores_spec.
    by rewrite fetched_rows_all_failed. }
  split; [exact Hdown|].
  split.
  { intros s w deps kevCatalog fs cvesByDep findings ids Hfail Hd Hne Hk Hq Hx. split.
    - rewrite (Scan_reaches_crossref s w deps kevCatalog fs cvesByDep findings ids) by done.
      simpl. do 2 f_equal. unfold enrichStage, scanner.FetchScores.
      destruct (0 <? length ids); [|done].
      rewrite Hdown by done. simpl. apply enrich_empty.
    - intros f k Hf Hkin.
      destruct (crossReference_finding deps kevCatalog _ findings ids f Hx Hf)
        as (_ & _ & Hmatch).
      destruct (Hmatch k Hkin) as (cve & _ & Hcat).
      apply FetchKEVCatalog_built in Hk as (vulns & ->).
      by apply build_catalog_zero_epss in Hcat as (_ & ? & ?). }
  split; [apply succeeded_false|].
  split; [intros get i chunk scores; apply fetch_chunk_failed|].
  split; [intros get cveIDs c; apply FetchScores_lookup|].
  split.
  { intros get cveIDs i chunk epssResp row Hchunk Hget Hrow.
    pose proof (fetched_rows_chunk get cveIDs i chunk epssResp row Hchunk Hget Hrow) as Hin.
    split; [done|]. by apply FetchScores_has_row. }
  intros s w deps kevCatalog fs cvesByDep findings ids Hd Hne Hk Hq Hx.
  by rewrite (Scan_reaches_crossref s w deps kevCatalog fs cvesByDep findings ids).
Qed.

(** C9. After the enrichment stage over findings cross-referenced
    against a parsed catalog, each KEV entry either has no EPSS record
    under its CVE ID and holds zero for score and percentile, or holds
    the score and the percentile of the one record found under its CVE
    ID, which [FetchScores] built from a single row with that CVE ID. *)
Theorem enrichment_sets_both_fields_from_one_record
        (get : nat -> string -> http_reply epss.EPSSResponse)
        (vulns : list kev.VulnerabilityJSON) (deps : list Dependency)
        (visit : list (nat * list CVEInfo)) (findings : list Finding) (ids : list string)
        (Hcross : crossReference deps (kev.build_catalog time_Parse vulns) visit
                  = Some (findings, ids)) :
  let FetchScores := epss.FetchScores get strconv_ParseFloat in
  let epssScores := (FetchScores ids).1 in
  forall f k,
    f ∈ (enrichStage FetchScores findings ids).1 -> k ∈ KEVs f ->
    match epssScores !! CVEID k with
    | None => EPSSScore k = f64_zero /\ EPSSPercentile k = f64_zero
    | Some score =>
        EPSSScore k = Score score /\ EPSSPercentile k = Percentile score
        /\ exists row, row ∈ epss.fetched_rows get ids
                        /\ epss.d_CVE row = CVEID k
                        /\ score = epss.row_score strconv_ParseFloat row
    end.
Proof.
  intros FS epssScores f k Hf Hkin.
  assert (Hrec : forall c score,
             epssScores !! c = Some score ->
             exists row, row ∈ epss.fetched_rows get ids
                         /\ epss.d_CVE row = c
                         /\ score = epss.row_score strconv_ParseFloat row).
  { intros c score. apply FetchScores_record. }
  assert (Hf' : f ∈ enrich epssScores findings).
  { destruct ids as [|id ids']; [|exact Hf].
    apply crossReference_no_ids in Hcross. subst findings.
    simpl in Hf. by apply elem_of_nil in Hf. }
  clearbody epssScores. clear Hf FS.
  apply enrich_elem in Hf' as (f0 & Hf0 & _ & _ & Hkevs).
  rewrite Hkevs in Hkin.
  change (map (enrich_kev epssScores) (KEVs f0))
    with (enrich_kev epssScores <$> KEVs f0) in Hkin.
  apply list_elem_of_fmap in Hkin as (k0 & -> & Hk0).
  destruct (crossReference_finding deps _ visit findings _ f0 Hcross Hf0)
    as (_ & _ & Hmatch).
  destruct (Hmatch k0 Hk0) as (cve & _ & Hcat).
  apply build_catalog_zero_epss in Hcat as (_ & Hs & Hp).
  rewrite enrich_kev_CVEID.
  pose proof (enrich_kev_fields epssScores k0) as Hfields.
  destruct (epssScores !! CVEID k0) as [score|] eqn:Hlook.
  - destruct Hfields as [? ?]. split; [done|]. split; [done|].
    by apply Hrec.
  - by rewrite Hfields.
Qed.

End scan_facts.

(** ** The properties at work on the concrete world *)
Section instances.
Import scanner example example_more.

Local Abbreviation by_map_order := (map_to_list : gmap nat (list CVEInfo) -> _).
Local Abbreviation by_reverse_order :=
  (fun m : gmap nat (list CVEInfo) => reverse (map_to_list m)).

Lemma cvesByDep_in_range (k : nat) : is_Some (cvesByDep !! k) -> k < length deps.
Proof.
  intros [l Hl]. destruct (decide (k < 3)) as [|Hge]; [done|]. exfalso.
  unfold cvesByDep in Hl.
  rewrite !lookup_insert_ne, lookup_empty in Hl by lia. done.
Qed.

Lemma time_Parse_obeys_law : kev.time_Parse_law time_Parse.
Proof.
  intros layout value e. unfold time_Parse.
  by destruct (String.eqb value "2021-11-03").
Qed.

(** C1 at work: the scan of django, requests and lodash returns two
    findings, each with a KEV entry and each that of a dependency and
    its CVEs in the OSV map; requests, without a match, has none. *)
Lemma Scan_findings_have_KEV_instance :
  let s := the_scanner f64_zero in
  let w := world deps epss_up by_map_order in
  let result := match run_outcome (Scan s w) with Returned r => r | _ => [] end in
  length result = 2
  /\ (forall f, f ∈ result ->
        KEVs f <> []
        /\ HasKEV f = true
        /\ exists kevCatalog fs,
            FetchKEVCatalog s w = (Ok kevCatalog, fs)
            /\ exists cve, cve ∈ CVEs f /\ is_Some (kevCatalog !! ID cve))
  /\ Forall (fun f => exists depIdx, deps !! depIdx = Some (Dep f)
                                     /\ cvesByDep !! depIdx = Some (CVEs f)
                                     /\ depIdx <> 1)
            result.
Proof.
  intros s w result.
  destruct (Scan_findings_have_KEV json_Unmarshal time_Parse strconv_ParseFloat
              sha256_Sum256 hex_EncodeToString filepath_Join s w result)
    as [Hkev Hentries]; [vm_compute; reflexivity|].
  split; [vm_compute; reflexivity|]. split; [exact Hkev|].
  destruct Hentries
    as [[Hnone _]|(deps' & kevCatalog & fs & m & kept & Hd & _ & Hq & _ & Hall & Hrange)];
    [discriminate Hnone|].
  injection Hd as <-.
  assert (m = cvesByDep) as ->.
  { assert (osv.QueryBatch (w_osv_post w) deps = Ok cvesByDep) as Hq'
        by (vm_compute; reflexivity).
    rewrite Hq' in Hq. by injection Hq. }
  destruct (Hrange ltac:(by intros ?)) as [_ Hbind].
  apply Forall_forall. intros f Hf.
  apply list_elem_of_lookup_1 in Hf as [i Hi].
  destruct (Forall2_lookup_r _ _ _ _ _ Hall Hi) as ([depIdx cves] & Hentry & Hdep & Hcves & _).
  apply list_elem_of_lookup_2, Hbind in Hentry. simpl in *. subst cves.
  exists depIdx. split; [done|]. split; [done|]. by intros ->.
Defined.

(** C2 as stated fails: visiting the same map in two orders gives two
    different finding sequences. *)
Lemma crossReference_order_depends_on_visit :
  by_map_order cvesByDep ≡ₚ map_to_list cvesByDep
  /\ by_reverse_order cvesByDep ≡ₚ map_to_list cvesByDep
  /\ crossReference deps kevCatalog (by_map_order cvesByDep)
      <> crossReference deps kevCatalog (by_reverse_order cvesByDep).
Proof.
  split; [done|]. split; [apply reverse_Permutation|].
  vm_compute. discriminate.
Qed.

(** C2 at work: the two orders give the same findings up to order. *)
Lemma crossReference_same_findings_instance :
  crossref_findings deps (by_map_order cvesByDep)
  ≡ₚ crossref_findings deps (by_reverse_order cvesByDep).
Proof.
  destruct (crossReference_same_findings_up_to_order deps kevCatalog cvesByDep
              (by_map_order cvesByDep) (by_reverse_order cvesByDep)
              ltac:(reflexivity) (reverse_Permutation _) cvesByDep_in_range)
    as (findings1 & ids1 & findings2 & ids2 & H1 & H2 & Hperm & _).
  unfold crossref_findings. rewrite H1, H2. exact Hperm.
Defined.

(** C3 as stated fails: django listed in two manifests puts its CVE
    twice into the list handed to the EPSS client. *)
Lemma FetchScores_argument_has_duplicates :
  exists ids,
    run_epss_calls (Scan (the_scanner f64_zero) (world deps_twice epss_up by_map_order)) = [ids]
    /\ ~ NoDup ids.
Proof.
  eexists. split; [vm_compute; reflexivity|].
  intros Hnd. apply NoDup_cons in Hnd as [Hnotin _]. apply Hnotin. by left.
Qed.

(** C3 at work on the same scan. *)
Lemma Scan_calls_FetchScores_once_instance :
  let s := the_scanner f64_zero in
  let w := world deps_twice epss_up by_map_order in
  run_epss_calls (Scan s w) = [["CVE-2021-3281"; "CVE-2021-3281"]]
  /\ total_kevs (crossref_findings deps_twice (by_map_order cvesByDep_twice)) = 2.
Proof.
  intros s w.
  destruct (Scan_calls_FetchScores_once_with_all_matches
              json_Unmarshal time_Parse strconv_ParseFloat
              sha256_Sum256 hex_EncodeToString filepath_Join
              s w deps_twice kevCatalog (FetchKEVCatalog s w).2 cvesByDep_twice
              (crossref_findings deps_twice (by_map_order cvesByDep_twice))
              ["CVE-2021-3281"; "CVE-2021-3281"])
    as (Hcalls & _ & Hlen);
    [vm_compute; reflexivity | vm_compute; lia | vm_compute; reflexivity ..|].
  split; [exact Hcalls | symmetry; exact Hlen].
Defined.

(** C4 as stated fails: under the threshold 0.5 an entry whose score is
    NaN is removed although its score is not below the threshold; the
    scan whose EPSS rows read "NaN" returns no finding. *)
Lemma NaN_score_is_removed_but_not_below :
  f64_gt half f64_zero = true
  /\ EPSSScore kev_nan = (strconv_ParseFloat "NaN").1
  /\ f64_lt (EPSSScore kev_nan) half = false
  /\ filterKEVs half [kev_nan] = []
  /\ run_outcome (Scan (the_scanner half) (world [django] epss_nan by_map_order)) = Returned [].
Proof. repeat split; vm_compute; reflexivity. Qed.

(** C4 at work: thresholds 0.5 and 1 on an entry with score 0.5. *)
Lemma filterStage_monotone_instance :
  let findings :=
    [{| Dep := django; CVEs := [cve "CVE-2021-3281"];
        KEVs := [enrich_kev {[ "CVE-2021-3281" := {| Score := half; Percentile := half |} ]}
                            kev_nan] |}] in
  total_kevs (filterStage half findings) = 1
  /\ total_kevs (filterStage one findings) = 0
  /\ total_kevs (filterStage one findings) <= total_kevs (filterStage half findings).
Proof.
  intros findings. split; [reflexivity|]. split; [reflexivity|].
  apply (filterStage_monotone findings half one). reflexivity.
Defined.

(** C5 at work: 250 dependencies, three chunks. *)
Lemma QueryBatch_chunking_transparent_instance :
  osv.QueryBatch (osv.per_query respond) (repeat django 250)
  = osv.queryChunk (osv.per_query respond) (repeat django 250).
Proof. apply (QueryBatch_chunking_transparent respond (repeat django 250)). Defined.

(** C6 at work: a value written at time 1000 with a TTL of 24 hours. *)
Lemma cache_round_trip_instance :
  let Set_ := cache.Set_ sha256_Sum256 hex_EncodeToString filepath_Join in
  let Get := cache.Get sha256_Sum256 hex_EncodeToString filepath_Join in
  let fs' := (Set_ the_cache empty_disk 1000%Z kev.kevURL document).2 in
  Get the_cache fs' (1000 + cache.DefaultTTL)%Z kev.kevURL = (document, true)
  /\ (Get the_cache fs' (1001 + cache.DefaultTTL)%Z kev.kevURL).2 = false.
Proof.
  intros Set_ Get fs'.
  destruct (cache_round_trip_and_expiry sha256_Sum256 hex_EncodeToString filepath_Join the_cache)
    as [Hround Hexpiry].
  split.
  - apply (Hround empty_disk fs' 1000%Z); [reflexivity|]. vm_compute. discriminate.
  - apply (Hexpiry fs' _ _ {| cache.data := document; cache.modTime := 1000%Z |});
      [vm_compute; reflexivity|vm_compute; reflexivity|vm_compute; reflexivity].
Defined.

(** C7 at work: with the EPSS service down for every request the scan
    returns the cross-referenced findings; with the first of two
    requests failing, the row of the second is in the map all the same. *)
Lemma EPSS_failures_instance :
  let s := the_scanner f64_zero in
  let w := world deps epss_down by_map_order in
  let scores := epss.FetchScores epss_first_down strconv_ParseFloat many_ids in
  run_outcome (Scan s w) = Returned (crossref_findings deps (by_map_order cvesByDep))
  /\ length (crossref_findings deps (by_map_order cvesByDep)) = 2
  /\ epss.FetchScores epss_down strconv_ParseFloat ["CVE-2021-3281"; "CVE-2021-23337"]
      = (∅, None)
  /\ length (epss.chunks many_ids) = 2
  /\ epss.succeeded (epss_first_down 0 (epss.chunk_url (take 100 many_ids))) = false
  /\ scores.2 = None
  /\ scores.1 !! "CVE-2021-3281" = Some {| Score := half; Percentile := half |}
  /\ scores.1 !! "CVE-2021-23337" = None.
Proof.
  intros s w scores.
  destruct (EPSS_failures_never_fail_the_scan json_Unmarshal time_Parse strconv_ParseFloat
              sha256_Sum256 hex_EncodeToString filepath_Join)
    as (Hspec & Hdown & Hscan & _ & _ & Hlookup & Hrows & _).
  destruct (Hscan s w deps kevCatalog (FetchKEVCatalog s w).2 cvesByDep
              (crossref_findings deps (by_map_order cvesByDep))
              ["CVE-2021-23337"; "CVE-2021-3281"]) as [Hret _];
    [intros i url; reflexivity | vm_compute; reflexivity | vm_compute; lia
     | vm_compute; reflexivity ..|].
  split; [exact Hret|]. split; [vm_compute; reflexivity|].
  split; [apply Hdown; intros i url; reflexivity|].
  split; [vm_compute; reflexivity|]. split; [reflexivity|].
  split; [subst scores; by rewrite Hspec|].
  split.
  - destruct (Hrows epss_first_down many_ids 100 ["CVE-2021-3281"]
                {| epss.r_Status := "OK"; epss.r_StatusCode := 200; epss.r_Version := "1.0";
                   epss.r_Total := 1; epss.r_Data := [epss_row "0.5"] |}
                (epss_row "0.5"))
      as (_ & row' & Hrow' & _ & Hscore).
    + apply (list_elem_of_lookup_2 _ 1). vm_compute. reflexivity.
    + reflexivity.
    + apply elem_of_cons. by left.
    + assert (row' = epss_row "0.5") as ->.
      { vm_compute in Hrow'. apply elem_of_cons in Hrow' as [->|Hrow']; [done|].
        by apply elem_of_nil in Hrow'. }
      exact Hscore.
  - subst scores. rewrite Hlookup. vm_compute. reflexivity.
Defined.

(** C8 at work: CVE-2021-3281 occurs twice, the later entry is kept. *)
Lemma parseKEVData_last_entry_wins_instance :
  exists catalog,
    kev.parseKEVData json_Unmarshal time_Parse document = Ok catalog
    /\ VendorProject <$> catalog !! "CVE-2021-3281" = Some "Django"
    /\ DueDate (kev.toKEVInfo time_Parse
                   (kev_entry "CVE-2021-3281" "Django (old entry)" "2021-11-03" "03/11/2021" "Unknown"))
        = time.zero.
Proof.
  destruct (parseKEVData_last_entry_wins json_Unmarshal time_Parse document kevResp
              time_Parse_obeys_law ltac:(reflexivity))
    as (catalog & Hparse & Hlast & Hdates).
  exists catalog. split; [done|]. split.
  - rewrite Hlast. vm_compute. reflexivity.
  - apply Hdates; [left|]. vm_compute. discriminate.
Defined.

(** C9 at work: django's entry takes score and percentile from the one
    EPSS row, lodash's entry has no row and stays at zero. *)
Lemma enrichment_instance :
  let enriched :=
    (enrichStage (epss.FetchScores epss_up strconv_ParseFloat)
       (crossref_findings deps (by_map_order cvesByDep))
       ["CVE-2021-23337"; "CVE-2021-3281"]).1 in
  Forall (fun f =>
            Forall (fun k => (EPSSScore k = f64_zero /\ EPSSPercentile k = f64_zero)
                             \/ (EPSSScore k = half /\ EPSSPercentile k = half))
                   (KEVs f))
         enriched.
Proof.
  intros enriched. apply Forall_forall. intros f Hf. apply Forall_forall. intros k Hk.
  assert (Hcross : crossReference deps (kev.build_catalog time_Parse vulnerabilities)
                     (by_map_order cvesByDep)
                   = Some (crossref_findings deps (by_map_order cvesByDep),
                           ["CVE-2021-23337"; "CVE-2021-3281"])).
  { vm_compute. reflexivity. }
  pose proof (enrichment_sets_both_fields_from_one_record time_Parse strconv_ParseFloat
                epss_up vulnerabilities deps (by_map_order cvesByDep) _ _
                Hcross f k Hf Hk) as H.
  cbv zeta in H.
  destruct (_ !! CVEID k) as [score|] eqn:Hlook.
  - right. destruct H as (Hs & Hp & row & Hrow & _ & ->).
    rewrite Hs, Hp.
    assert (row = epss_row "0.5") as ->; [|done].
    vm_compute in Hrow. apply elem_of_cons in Hrow as [->|Hrow]; [done|].
    by apply elem_of_nil in Hrow.
  - by left.
Defined.

(** C10 at work: requests has only a GHSA advisory and gets no binding. *)
Lemma QueryBatch_binds_only_nonempty_instance :
  osv.QueryBatch (osv.per_query respond) deps = Ok cvesByDep
  /\ cvesByDep !! 1 = None
  /\ forall k l, cvesByDep !! k = Some l -> l <> [].
Proof.
  assert (Hret : osv.QueryBatch (osv.per_query respond) deps = Ok cvesByDep).
  { vm_compute. reflexivity. }
  destruct (QueryBatch_binds_only_nonempty (osv.per_query respond) deps cvesByDep Hret)
    as [Hnonempty Habsent].
  split; [exact Hret|]. split; [|exact Hnonempty].
  apply (Habsent respond 1 requests); [reflexivity|reflexivity|].
  repeat constructor.
Defined.

End instances.

(** * Part III: further properties of the clients and the scanner *)

(** ** OSV: identifiers, one chunk, the batch *)
Section osv_more.
Import osv.

(** The state of the alias loop after the identifiers [l]: the slice
    has no duplicates, the [seen] set is the set of its elements, it
    holds the CVE-prefixed identifiers of [l] and keeps their order. *)
Lemma extract_loop_inv (l : list string) :
  let st := foldl extract_step (∅, []) l in
  NoDup st.2
  /\ (forall x, x ∈ st.1 <-> x ∈ st.2)
  /\ (forall x, x ∈ st.2 <-> hasCVEPrefix x = true /\ x ∈ l)
  /\ st.2 `sublist_of` l.
Proof.
  induction l as [|a l IH] using rev_ind.
  - simpl. split; [constructor|]. split; [set_solver|]. split; [|done].
    intros x. split; [by intros ?%elem_of_nil|]. by intros [_ ?%elem_of_nil].
  - rewrite foldl_snoc. cbv zeta in IH.
    destruct (foldl extract_step (∅, []) l) as [seen cves].
    destruct IH as (Hnd & Hseen & Hmem & Hsub). simpl in *.
    unfold extract_step. simpl.
    destruct (hasCVEPrefix a) eqn:Hpre.
    + destruct (decide (a ∈ seen)) as [Hin|Hnotin]; simpl.
      * split; [done|]. split; [done|]. split.
        -- intros x. rewrite Hmem, elem_of_app, list_elem_of_singleton.
           split; [tauto|]. intros [Hx [?| ->]]; [done|].
           by apply Hmem, Hseen.
        -- by apply sublist_inserts_r.
      * split.
        { apply NoDup_app. split; [done|]. split; [|apply NoDup_singleton].
          intros x Hx ->%list_elem_of_singleton. by apply Hnotin, Hseen. }
        split.
        { intros x. rewrite elem_of_union, elem_of_singleton, elem_of_app,
            list_elem_of_singleton, Hseen. tauto. }
        split.
        { intros x. rewrite !elem_of_app, list_elem_of_singleton, Hmem.
          split; [|tauto]. intros [[? ?]| ->]; [by auto|by auto]. }
        by apply sublist_app.
    + split; [done|]. split; [done|]. split.
      * intros x. rewrite Hmem, elem_of_app, list_elem_of_singleton.
        split; [tauto|]. intros [Hx [?| ->]]; [done|congruence].
      * by apply sublist_inserts_r.
Qed.

Lemma extractCVEIDs_elem (id : string) (aliases : list string) (x : string) :
  x ∈ extractCVEIDs id aliases <-> hasCVEPrefix x = true /\ (x = id \/ x ∈ aliases).
Proof.
  pose proof (extract_loop_inv (id :: aliases)) as H. cbv zeta in H.
  change (foldl extract_step (∅, []) (id :: aliases)).2
    with (extractCVEIDs id aliases) in H.
  destruct H as (_ & _ & Hmem & _). by rewrite Hmem, elem_of_cons.
Qed.

(** X1. [extractCVEIDs] returns the identifiers among the vulnerability's
    own ID and its aliases that start with "CVE-": each one once and
    nothing else, in the order in which the ID and the aliases list
    them. *)
Theorem extractCVEIDs_distinct_CVE_ids (id : string) (aliases : list string) :
  NoDup (extractCVEIDs id aliases)
  /\ (forall x, x ∈ extractCVEIDs id aliases
                <-> hasCVEPrefix x = true /\ (x = id \/ x ∈ aliases))
  /\ extractCVEIDs id aliases `sublist_of` id :: aliases.
Proof.
  pose proof (extract_loop_inv (id :: aliases)) as H. cbv zeta in H.
  change (foldl extract_step (∅, []) (id :: aliases)).2
    with (extractCVEIDs id aliases) in H.
  destruct H as (Hnd & _ & _ & Hsub).
  split; [done|]. split; [|done].
  intros x. apply extractCVEIDs_elem.
Qed.

Lemma result_cves_elem (vulns : list osvVulnerability) (c : CVEInfo) :
  c ∈ result_cves vulns ->
  Source c = "OSV" /\ hasCVEPrefix (ID c) = true
  /\ exists vuln, vuln ∈ vulns /\ Summary c = v_Summary vuln
                  /\ (ID c = v_ID vuln \/ ID c ∈ v_Aliases vuln).
Proof.
  unfold result_cves. rewrite list_elem_of_In, in_flat_map.
  intros (vuln & Hvuln & Hc). apply list_elem_of_In in Hvuln.
  unfold vuln_cves in Hc. apply in_map_iff in Hc as (x & <- & Hx).
  apply list_elem_of_In in Hx.
  apply extractCVEIDs_elem in Hx as [Hpre Hwhere]. simpl.
  split; [done|]. split; [done|]. by exists vuln.
Qed.

Lemma queryChunk_Ok_inv (post : list osvQuery -> http_reply osvBatchResponse)
      (deps : list Dependency) (m : gmap nat (list CVEInfo)) :
  queryChunk post deps = Ok m ->
  exists batchResp,
    post (map mkQuery deps) = Reply StatusOK (Ok batchResp) /\ m = chunk_results batchResp.
Proof.
  unfold queryChunk.
  destruct (post (map mkQuery deps)) as [e|status [batchResp|e]]; [done| |].
  - destruct (status =? StatusOK)%Z eqn:Hst; [|done].
    apply Z.eqb_eq in Hst as ->. intros [= <-]. by exists batchResp.
  - by destruct (status =? StatusOK)%Z.
Qed.

(** X2. [queryChunk] succeeds exactly when the service answers 200 with
    a body that decodes. Its map then binds position [j] iff the [j]-th
    result has an identifier starting with "CVE-", to the records of the
    result's vulnerabilities in order; every record has source "OSV"
    and an ID starting with "CVE-". *)
Theorem queryChunk_binds_results_by_position
        (post : list osvQuery -> http_reply osvBatchResponse) (deps : list Dependency)
        (m : gmap nat (list CVEInfo)) :
  queryChunk post deps = Ok m <->
  exists batchResp,
    post (map mkQuery deps) = Reply StatusOK (Ok batchResp)
    /\ m = chunk_results batchResp
    /\ (forall j, m !! j = batchResp !! j ≫= fun vulns => nonempty (result_cves vulns))
    /\ (forall j cves c, m !! j = Some cves -> c ∈ cves ->
          Source c = "OSV" /\ hasCVEPrefix (ID c) = true).
Proof.
  split.
  - intros (batchResp & Hpost & ->)%queryChunk_Ok_inv. exists batchResp.
    split; [done|]. split; [done|]. split; [apply chunk_results_lookup|].
    intros j cves c Hj Hc. rewrite chunk_results_lookup in Hj.
    destruct (batchResp !! j) as [vulns|]; simpl in Hj; [|done].
    apply nonempty_Some in Hj as [-> _].
    apply result_cves_elem in Hc as (? & ? & _). done.
  - intros (batchResp & Hpost & -> & _). unfold queryChunk. by rewrite Hpost.
Qed.

Lemma QueryBatch_loop_failure (post : list osvQuery -> http_reply osvBatchResponse)
      (deps : list Dependency) (k : nat) (e : error) :
  k * batchSize < length deps ->
  queryChunk post (slice deps (k * batchSize) (chunk_end (k * batchSize) (length deps))) = Err e ->
  forall d j results,
    k = j + d ->
    exists e', QueryBatch_loop post deps (j * batchSize) results = Err e'.
Proof.
  intros Hk Hfail. induction d as [|d IH]; intros j results Hj;
    rewrite QueryBatch_loop_step.
  - replace j with k by lia. rewrite decide_True by done. rewrite Hfail. eauto.
  - rewrite decide_True by (unfold batchSize in *; lia).
    destruct (queryChunk post (slice deps (j * batchSize) _)) as [chunkResults|e0]; [|eauto].
    replace (j * batchSize + batchSize) with (S j * batchSize) by lia.
    apply IH. lia.
Qed.

(** X3. One failing chunk request makes [QueryBatch] fail as a whole:
    what the chunks before it returned is not reported. *)
Theorem QueryBatch_fails_when_a_chunk_fails
        (post : list osvQuery -> http_reply osvBatchResponse)
        (deps : list Dependency) (k : nat) (e : error)
        (Hchunk : k * batchSize < length deps)
        (Hfail : queryChunk post (slice deps (k * batchSize)
                                        (chunk_end (k * batchSize) (length deps))) = Err e) :
  exists e', QueryBatch post deps = Err e'.
Proof.
  unfold QueryBatch. rewrite decide_False by lia.
  apply (QueryBatch_loop_failure post deps k e Hchunk Hfail k 0 ∅). lia.
Qed.

End osv_more.

(** ** OSV replies of bounded length, and the index panic *)
Section panic_facts.
Import osv scanner.

Lemma chunk_results_key_bound (batchResp : osvBatchResponse) (j : nat) :
  is_Some (chunk_results batchResp !! j) -> j < length batchResp.
Proof.
  rewrite chunk_results_lookup. intros [cves Hj].
  destruct (batchResp !! j) as [vulns|] eqn:Hres; [|done].
  by eapply lookup_lt_Some.
Qed.

Lemma slice_length (deps : list Dependency) (i : nat) :
  i < length deps ->
  i + length (slice deps i (chunk_end i (length deps))) <= length deps.
Proof.
  intros Hlt. unfold slice, chunk_end. rewrite length_take, length_drop.
  destruct (decide (length deps < i + batchSize)); lia.
Qed.

Lemma QueryBatch_loop_keys_in_range (post : list osvQuery -> http_reply osvBatchResponse)
      (deps : list Dependency) (n : nat) :
  (forall queries status batchResp,
      post queries = Reply status (Ok batchResp) -> length batchResp <= length queries) ->
  forall (i : nat) (results m : gmap nat (list CVEInfo)),
    length deps - i <= n ->
    (forall k, is_Some (results !! k) -> k < length deps) ->
    QueryBatch_loop post deps i results = Ok m ->
    forall k, is_Some (m !! k) -> k < length deps.
Proof.
  intros Hbound. induction n as [|n IH]; intros i results m Hn Hres;
    rewrite QueryBatch_loop_step.
  - rewrite decide_False by lia. intros [= <-]. exact Hres.
  - destruct (decide (i < length deps)) as [Hlt|Hge]; [|intros [= <-]; exact Hres].
    destruct (queryChunk post (slice deps i _)) as [chunkResults|e] eqn:Hq; [|done].
    apply IH; [unfold batchSize; lia|].
    intros k. rewrite merge_chunk_lookup.
    destruct (decide (i <= k)) as [Hle|]; [|apply Hres].
    destruct (chunkResults !! (k - i)) as [cves|] eqn:Hk; [|apply Hres].
    destruct (0 <? length cves); [|apply Hres]. intros _.
    apply queryChunk_Ok_inv in Hq as (batchResp & Hpost & ->).
    assert (k - i < length batchResp) by (apply chunk_results_key_bound; by rewrite Hk).
    apply Hbound in Hpost. rewrite length_map in Hpost.
    pose proof (slice_length deps i Hlt). lia.
Qed.

Lemma QueryBatch_keys_bound (post : list osvQuery -> http_reply osvBatchResponse)
      (deps : list Dependency) (m : gmap nat (list CVEInfo)) :
  (forall queries status batchResp,
      post queries = Reply status (Ok batchResp) -> length batchResp <= length queries) ->
  QueryBatch post deps = Ok m ->
  forall k, is_Some (m !! k) -> k < length deps.
Proof.
  intros Hbound Hret.
  unfold QueryBatch in Hret. destruct (decide (length deps = 0)).
  - injection Hret as <-. intros k [? Hk]. by rewrite lookup_empty in Hk.
  - eapply (QueryBatch_loop_keys_in_range post deps (length deps) Hbound 0 ∅);
      [lia| |exact Hret].
    intros k [? Hk]. by rewrite lookup_empty in Hk.
Qed.

Lemma crossReference_None_iff (deps : list Dependency) (kevCatalog : gmap string KEVInfo)
      (visit : list (nat * list CVEInfo)) :
  crossReference deps kevCatalog visit = None
  <-> exists entry, entry ∈ visit /\ length deps <= entry.1.
Proof.
  split.
  - intros Hnone.
    destruct (decide (Forall (fun entry : nat * list CVEInfo => entry.1 < length deps) visit))
      as [Hall|Hnot].
    + by rewrite crossReference_total in Hnone.
    + apply not_Forall_Exists in Hnot; [|apply _].
      apply Exists_exists in Hnot as (entry & Hin & Hge). exists entry. split; [done|].
      simpl in Hge. lia.
  - intros (entry & Hin & Hge).
    destruct (crossReference deps kevCatalog visit) as [[findings ids]|] eqn:Hx; [|done].
    apply crossReference_Some in Hx as (Hall & _).
    rewrite Forall_forall in Hall. specialize (Hall entry Hin). lia.
Qed.

(** X4. When no reply of the OSV service has more results than the
    request had queries, every index bound by the map of [QueryBatch]
    is an index of the dependency list. *)
Theorem QueryBatch_keys_index_the_dependencies
        (post : list osvQuery -> http_reply osvBatchResponse)
        (deps : list Dependency) (m : gmap nat (list CVEInfo))
        (Hbound : forall queries status batchResp,
            post queries = Reply status (Ok batchResp) ->
            length batchResp <= length queries)
        (Hret : QueryBatch post deps = Ok m) :
  forall k, is_Some (m !! k) -> k < length deps.
Proof. exact (QueryBatch_keys_bound post deps m Hbound Hret). Qed.

(** X5. The cross-reference loop panics (index out of range at
    [deps[depIdx]]) exactly when the map it visits has an index that is
    not an index of the dependency list. *)
Theorem crossReference_panics_iff_index_out_of_range
        (deps : list Dependency) (kevCatalog : gmap string KEVInfo)
        (visit : list (nat * list CVEInfo)) :
  crossReference deps kevCatalog visit = None
  <-> exists entry, entry ∈ visit /\ length deps <= entry.1.
Proof. apply crossReference_None_iff. Qed.

End panic_facts.

(** ** EPSS: the requests and the score map *)
Section epss_more.
Import epss.

Variable get : nat -> string -> http_reply EPSSResponse.
Variable strconv_ParseFloat : string -> float64 * option error.

Lemma chunks_from_lookup {A : Type} (fuel : nat) :
  forall (i : nat) (l : list A) (k : nat),
    length l <= fuel ->
    chunks_from chunkSize i l fuel !! k
    = if decide (k * chunkSize < length l)
      then Some (i + k * chunkSize, take chunkSize (drop (k * chunkSize) l))
      else None.
Proof.
  induction fuel as [|fuel IH]; intros i l k Hlen.
  - destruct l; [|simpl in Hlen; lia]. cbn [chunks_from].
    rewrite lookup_nil. by rewrite decide_False by (simpl; lia).
  - destruct l as [|x l].
    { cbn [chunks_from]. rewrite lookup_nil. by rewrite decide_False by (simpl; lia). }
    cbn [chunks_from]. destruct k as [|k].
    + rewrite decide_True by (simpl; lia). simpl. by rewrite Nat.add_0_r.
    + rewrite lookup_cons. rewrite IH by (rewrite length_drop; simpl in *; lia).
      rewrite length_drop, drop_drop.
      destruct (decide (k * chunkSize < length (x :: l) - chunkSize)).
      * rewrite decide_True by (unfold chunkSize in *; lia).
        replace (S k * chunkSize) with (chunkSize + k * chunkSize) by lia.
        do 2 f_equal. lia.
      * by rewrite decide_False by (unfold chunkSize in *; lia).
Qed.

Lemma chunks_from_concat {A : Type} (fuel : nat) :
  forall (i : nat) (l : list A),
    length l <= fuel -> concat (chunks_from chunkSize i l fuel).*2 = l.
Proof.
  induction fuel as [|fuel IH]; intros i l Hlen.
  - by destruct l; [|simpl in Hlen; lia].
  - destruct l as [|x l]; [done|]. cbn [chunks_from fmap list_fmap concat snd].
    rewrite IH by (rewrite length_drop; simpl in *; lia).
    apply take_drop.
Qed.

(** X6. [FetchScores] issues one request per chunk; the [k]-th request
    carries [cveIDs[100k : 100k+100]], so the requests cover the list in
    order, each ID once, between 1 and 100 IDs at a time, and none is
    issued for an empty list. The result is what the chunks contribute
    in that order, and the error is nil. *)
Theorem FetchScores_requests_cover_the_list (cveIDs : list string) :
  epss.FetchScores get strconv_ParseFloat cveIDs
  = (foldl (fun scores chunk => epss.fetch_chunk get strconv_ParseFloat chunk.1 chunk.2 scores)
           ∅ (chunks cveIDs), None)
  /\ concat (chunks cveIDs).*2 = cveIDs
  /\ (forall k, chunks cveIDs !! k
                = if decide (k * chunkSize < length cveIDs)
                  then Some (k * chunkSize, take chunkSize (drop (k * chunkSize) cveIDs))
                  else None)
  /\ Forall (fun chunk => 0 < length chunk.2 <= chunkSize) (chunks cveIDs).
Proof.
  assert (Hlook : forall k, chunks cveIDs !! k
                  = if decide (k * chunkSize < length cveIDs)
                    then Some (k * chunkSize, take chunkSize (drop (k * chunkSize) cveIDs))
                    else None).
  { intros k. unfold chunks. by rewrite chunks_from_lookup. }
  split; [|split; [|split; [exact Hlook|]]].
  - unfold epss.FetchScores, chunks.
    destruct (decide (length cveIDs = 0)) as [Hz|Hnz].
    + apply nil_length_inv in Hz. by subst.
    + by rewrite (FetchScores_loop_chunks get strconv_ParseFloat cveIDs (length cveIDs)) by lia.
  - unfold chunks. by apply chunks_from_concat.
  - apply Forall_lookup. intros k [i chunk]. rewrite Hlook.
    destruct (decide (k * chunkSize < length cveIDs)); [|done].
    intros [= <- <-]. simpl. rewrite length_take, length_drop. unfold chunkSize in *. lia.
Qed.

(** X7. Under each CVE ID the score map has the record of the last row
    with that ID among the rows of the requests that went through, and
    no entry when there is no such row: the keys are the IDs the
    service sent, whether or not they were asked for. *)
Theorem FetchScores_last_row_wins (cveIDs : list string) (c : string) :
  (epss.FetchScores get strconv_ParseFloat cveIDs).1 !! c
  = row_score strconv_ParseFloat
      <$> last (filter (fun row => d_CVE row = c) (fetched_rows get cveIDs)).
Proof.
  rewrite FetchScores_spec. simpl. rewrite foldl_store_row_lookup, lookup_empty.
  by destruct (last _).
Qed.

End epss_more.

(** ** The cache: hits, misses and other keys *)
Section cache_more.
Import cache.

Variable sha256_Sum256 : string -> list byte.
Variable hex_EncodeToString : list byte -> string.
Variable filepath_Join : string -> string -> string.

Local Abbreviation Path := (cache.Path sha256_Sum256 hex_EncodeToString filepath_Join).
Local Abbreviation Get := (cache.Get sha256_Sum256 hex_EncodeToString filepath_Join).
Local Abbreviation Set_ := (cache.Set_ sha256_Sum256 hex_EncodeToString filepath_Join).
Local Abbreviation New := (cache.New filepath_Join).

Variable read_error : string -> option error.
Variable write_to : string -> cache_io.write_outcome.

Local Abbreviation Get_io :=
  (cache_io.Get sha256_Sum256 hex_EncodeToString filepath_Join read_error).
Local Abbreviation Set_io :=
  (cache_io.Set_ sha256_Sum256 hex_EncodeToString filepath_Join write_to).

Lemma Get_io_cases (c : Cache) (fs : FS) (now : time.Time) (key : string) :
  Get_io c fs now key
  = match files fs !! Path c key with
    | Some f =>
        if (TTL c <? time.Since now (modTime f))%Z then ([], false)
        else match read_error (Path c key) with
             | Some _ => ([], false)
             | None => (data f, true)
             end
    | None => ([], false)
    end.
Proof.
  unfold cache_io.Get, os_Stat, cache_io.os_ReadFile.
  destruct (files fs !! Path c key) as [f|]; [|done].
  destruct (TTL c <? time.Since now (modTime f))%Z; [done|].
  by destruct (read_error (Path c key)).
Qed.

Lemma Get_cases (c : Cache) (fs : FS) (now : time.Time) (key : string) :
  Get c fs now key
  = match files fs !! Path c key with
    | Some f => if (TTL c <? time.Since now (modTime f))%Z then ([], false) else (data f, true)
    | None => ([], false)
    end.
Proof.
  unfold cache.Get, os_Stat, os_ReadFile.
  destruct (files fs !! Path c key) as [f|]; [|done].
  by destruct (TTL c <? time.Since now (modTime f))%Z.
Qed.

(** X8. [Get] reports a hit exactly when the file of the key exists,
    its age does not exceed the TTL and reading it succeeds, and then
    returns the file's bytes; it misses when there is no file, when the
    file is stale or when it cannot be read, and then returns nil. A hit
    at some time is a hit, with the same bytes, at every earlier time.
    When no read fails this is the [Get] of module [cache]. *)
Theorem Get_hit_iff_present_fresh_and_readable
        (c : Cache) (fs : FS) (now : time.Time) (key : string) (bytes : list byte) :
  (Get_io c fs now key = (bytes, true)
   <-> exists f, files fs !! Path c key = Some f
                 /\ (time.Since now (modTime f) <= TTL c)%Z
                 /\ read_error (Path c key) = None
                 /\ bytes = data f)
  /\ ((Get_io c fs now key).2 = false
      <-> files fs !! Path c key = None
          \/ exists f, files fs !! Path c key = Some f
                       /\ ((TTL c < time.Since now (modTime f))%Z
                           \/ is_Some (read_error (Path c key))))
  /\ ((Get_io c fs now key).2 = false -> (Get_io c fs now key).1 = [])
  /\ (forall earlier, (earlier <= now)%Z ->
                      Get_io c fs now key = (bytes, true) ->
                      Get_io c fs earlier key = (bytes, true))
  /\ ((forall path, read_error path = None) -> Get_io c fs now key = Get c fs now key).
Proof.
  rewrite !Get_io_cases. split; [|split; [|split; [|split]]].
  - destruct (files fs !! Path c key) as [f|]; [|split; [done|by intros (f & ? & _)]].
    destruct (TTL c <? time.Since now (modTime f))%Z eqn:Hlt.
    { apply Z.ltb_lt in Hlt. split; [done|]. intros (f' & [= <-] & ? & _). lia. }
    apply Z.ltb_ge in Hlt. destruct (read_error (Path c key)) as [e|] eqn:Hread.
    + split; [done|]. by intros (f' & _ & _ & ? & _).
    + split; [intros [= <-]; by exists f|]. by intros (f' & [= <-] & _ & _ & ->).
  - destruct (files fs !! Path c key) as [f|]; [|split; [by left|done]].
    destruct (TTL c <? time.Since now (modTime f))%Z eqn:Hlt.
    { apply Z.ltb_lt in Hlt. split; [|done]. intros _. right. exists f. by auto. }
    apply Z.ltb_ge in Hlt. destruct (read_error (Path c key)) as [e|] eqn:Hread.
    + split; [|done]. intros _. right. exists f. split; [done|]. right. by eexists.
    + split; [done|]. intros [?|(f' & [= <-] & [?|[e ?]])]; [done|lia|done].
  - destruct (files fs !! Path c key) as [f|]; [|done].
    destruct (TTL c <? time.Since now (modTime f))%Z; [done|].
    by destruct (read_error (Path c key)).
  - intros earlier Hle. rewrite Get_io_cases.
    destruct (files fs !! Path c key) as [f|]; [|done].
    destruct (TTL c <? time.Since now (modTime f))%Z eqn:Hlt; [done|].
    apply Z.ltb_ge in Hlt.
    assert ((TTL c <? time.Since earlier (modTime f))%Z = false) as ->; [|done].
    apply Z.ltb_ge. unfold time.Since, time.Sub in *. lia.
  - intros Hread. rewrite Get_cases.
    destruct (files fs !! Path c key) as [f|]; [|done]. by rewrite Hread.
Qed.

(** X9. [Set] touches one file only: whatever its outcome, [Get] is as
    it was for every key stored under another file name. It returns nil
    exactly when the write goes through, and then every key stored under
    the same file name reads the new bytes while fresh and readable.
    When the file cannot be opened nothing changes. When the write fails
    after the file was opened, the file is left truncated, and [Get]
    serves the bytes that were written as a fresh hit. *)
Theorem Set_affects_only_its_file
        (c : Cache) (fs : FS) (t0 : time.Time) (key : string) (v : list byte) :
  let err := (Set_io c fs t0 key v).1 in
  let fs' := (Set_io c fs t0 key v).2 in
  (forall key' now, Path c key' <> Path c key -> Get_io c fs' now key' = Get_io c fs now key')
  /\ (err = None <-> write_to (Path c key) = cache_io.Written)
  /\ (forall key' now,
        err = None -> Path c key' = Path c key ->
        (time.Since now t0 <= TTL c)%Z -> read_error (Path c key) = None ->
        Get_io c fs' now key' = (v, true))
  /\ (forall e, write_to (Path c key) = cache_io.OpenFailed e -> err = Some e /\ fs' = fs)
  /\ (forall n e,
        write_to (Path c key) = cache_io.WriteFailed n e ->
        err = Some e
        /\ files fs' = <[Path c key := {| data := take n v; modTime := t0 |}]> (files fs)
        /\ forall key' now,
             Path c key' = Path c key ->
             (time.Since now t0 <= TTL c)%Z -> read_error (Path c key) = None ->
             Get_io c fs' now key' = (take n v, true))
  /\ (writable fs (Path c key) = true -> write_to (Path c key) = cache_io.Written ->
      Set_io c fs t0 key v = Set_ c fs t0 key v).
Proof.
  assert (forall bytes key' now,
             Path c key' = Path c key ->
             (time.Since now t0 <= TTL c)%Z -> read_error (Path c key) = None ->
             Get_io c {| files := <[Path c key := {| data := bytes; modTime := t0 |}]> (files fs);
                         writable := writable fs |} now key' = (bytes, true)) as Hhit.
  { intros bytes key' now Heq Hfresh Hread. rewrite Get_io_cases. simpl.
    rewrite Heq, lookup_insert_eq, Hread. simpl.
    destruct (TTL c <? time.Since now t0)%Z eqn:Hlt; [|done].
    apply Z.ltb_lt in Hlt. lia. }
  unfold cache_io.Set_, cache_io.os_WriteFile, cache.Set_, cache.os_WriteFile.
  destruct (write_to (Path c key)) as [|e|n e] eqn:Hw; simpl.
  - split; [intros key' now Hne; rewrite !Get_io_cases; simpl; by rewrite lookup_insert_ne|].
    split; [done|]. split; [intros key' now _; by apply Hhit|].
    split; [done|]. split; [done|]. by intros -> _.
  - split; [done|]. split; [done|]. split; [done|].
    split; [by intros e' [= <-]|]. split; [done|]. done.
  - split; [intros key' now Hne; rewrite !Get_io_cases; simpl; by rewrite lookup_insert_ne|].
    split; [done|]. split; [done|]. split; [done|]. split; [|done].
    intros n' e' [= <- <-]. split; [done|]. split; [done|]. intros key' now. apply Hhit.
Qed.

(** X10. A cache made by [New] with a zero TTL keeps an entry for 24
    hours: after a successful [Set] at [t0], [Get] at a later [t1] hits
    iff at most 24 hours have passed. [New] succeeds only when the home
    directory is known and the cache directory, [.cache/<appName>] in
    it, could be made. *)
Theorem New_default_TTL_is_24_hours
        (userHomeDir : result string) (mkdirAll : string -> option error) (appName : string)
        (c : Cache) (fs fs' : FS) (t0 t1 : time.Time) (key : string) (v : list byte)
        (Hnew : New userHomeDir mkdirAll appName 0%Z = Ok c)
        (Hset : Set_ c fs t0 key v = (None, fs'))
        (Hlater : (0 <= t1 - t0 <= time.maxDuration)%Z) :
  (exists homeDir, userHomeDir = Ok homeDir
                   /\ Dir c = filepath_Join (filepath_Join homeDir ".cache") appName
                   /\ mkdirAll (Dir c) = None)
  /\ TTL c = (24 * 3600 * 1000000000)%Z
  /\ (Get c fs' t1 key = (v, true) <-> (t1 - t0 <= 24 * 3600 * 1000000000)%Z).
Proof.
  unfold cache.New in Hnew.
  destruct userHomeDir as [homeDir|e]; [|done].
  destruct (mkdirAll _) as [e|] eqn:Hmk; [done|].
  injection Hnew as <-. simpl in *.
  split; [by exists homeDir|]. split; [reflexivity|].
  apply Set_files in Hset. rewrite Get_cases, Hset, lookup_insert_eq. simpl.
  assert (Hsince : time.Since t1 t0 = (t1 - t0)%Z).
  { unfold time.Since, time.Sub. unfold time.minDuration, time.maxDuration in *. lia. }
  rewrite Hsince.
  change DefaultTTL with (24 * 3600 * 1000000000)%Z.
  destruct (24 * 3600 * 1000000000 <? t1 - t0)%Z eqn:Hlt.
  - apply Z.ltb_lt in Hlt. split; [done|lia].
  - apply Z.ltb_ge in Hlt. done.
Qed.

End cache_more.

(** ** KEV: the catalog and its cache *)
Section kev_more.
Import kev.

Variable json_Unmarshal : list byte -> result KEVResponse.
Variable time_Parse : string -> string -> time.Time * option error.
Variable sha256_Sum256 : string -> list byte.
Variable hex_EncodeToString : list byte -> string.
Variable filepath_Join : string -> string -> string.

Local Abbreviation Path := (cache.Path sha256_Sum256 hex_EncodeToString filepath_Join).
Local Abbreviation Get := (cache.Get sha256_Sum256 hex_EncodeToString filepath_Join).
Local Abbreviation Set_ := (cache.Set_ sha256_Sum256 hex_EncodeToString filepath_Join).
Local Abbreviation parseKEVData := (kev.parseKEVData json_Unmarshal time_Parse).
Local Abbreviation FetchKEVCatalog :=
  (kev.FetchKEVCatalog json_Unmarshal time_Parse
     sha256_Sum256 hex_EncodeToString filepath_Join).

Lemma FetchKEVCatalog_hit (c : cache.Cache) (fs : cache.FS) (now : time.Time)
      (http_get : string -> http_reply (list byte)) (bytes : list byte) :
  Get c fs now kevURL = (bytes, true) ->
  FetchKEVCatalog (Some c) fs now http_get = (parseKEVData bytes, fs).
Proof. intros Hhit. unfold kev.FetchKEVCatalog. by rewrite Hhit. Qed.

Lemma FetchKEVCatalog_miss (c : option cache.Cache) (fs : cache.FS) (now : time.Time)
      (http_get : string -> http_reply (list byte)) :
  match c with Some c => (Get c fs now kevURL).2 = false | None => True end ->
  FetchKEVCatalog c fs now http_get
  = match http_get kevURL with
    | TransportError e => (Err (ErrWrap "failed to fetch KEV data" e), fs)
    | Reply status body =>
        if (status =? StatusOK)%Z then
          match body with
          | Err e => (Err (ErrWrap "failed to read response body" e), fs)
          | Ok bytes =>
              (parseKEVData bytes,
               match c with Some c => (Set_ c fs now kevURL bytes).2 | None => fs end)
          end
        else (Err (ErrStatus "unexpected status code" status), fs)
    end.
Proof.
  intros Hmiss. unfold kev.FetchKEVCatalog. destruct c as [c|]; [|done].
  destruct (Get c fs now kevURL) as [bytes found]. simpl in Hmiss. by subst found.
Qed.

(** X11. With a cache, a download that succeeds is stored before it is
    parsed: after a miss, a 200 reply and a write that goes through, the
    call returns what parsing the body gives (a parse error included),
    and every later call within the TTL returns that same result from
    the file, whatever the network does then, and leaves the file
    system as it is. *)
Theorem FetchKEVCatalog_second_call_uses_the_cache
        (c : cache.Cache) (fs : cache.FS) (now : time.Time)
        (http_get : string -> http_reply (list byte)) (bytes : list byte)
        (Hmiss : (Get c fs now kevURL).2 = false)
        (Hhttp : http_get kevURL = Reply StatusOK (Ok bytes))
        (Hwrite : cache.writable fs (Path c kevURL) = true) :
  let fs' := (FetchKEVCatalog (Some c) fs now http_get).2 in
  FetchKEVCatalog (Some c) fs now http_get = (parseKEVData bytes, fs')
  /\ cache.files fs'
     = <[Path c kevURL := {| cache.data := bytes; cache.modTime := now |}]> (cache.files fs)
  /\ forall now' http_get',
       (time.Since now' now <= cache.TTL c)%Z ->
       FetchKEVCatalog (Some c) fs' now' http_get' = (parseKEVData bytes, fs').
Proof.
  rewrite (FetchKEVCatalog_miss (Some c)) by done. rewrite Hhttp. simpl.
  assert (Hset : Set_ c fs now kevURL bytes
                 = (None, {| cache.files := <[Path c kevURL :=
                                                {| cache.data := bytes; cache.modTime := now |}]>
                                              (cache.files fs);
                             cache.writable := cache.writable fs |})).
  { unfold cache.Set_, cache.os_WriteFile. by rewrite Hwrite. }
  rewrite Hset. simpl. split; [done|]. split; [done|].
  intros now' http_get' Hfresh. apply FetchKEVCatalog_hit.
  apply (Get_fresh _ _ _ c _ now' kevURL {| cache.data := bytes; cache.modTime := now |});
    [|done].
  simpl. apply lookup_insert_eq.
Qed.

(** X12. A download that fails (no reply, a status other than 200, or a
    body that cannot be read) makes the call fail and stores nothing;
    and without a cache the file system is never touched. *)
Theorem FetchKEVCatalog_failed_download_stores_nothing
        (c : option cache.Cache) (fs : cache.FS) (now : time.Time)
        (http_get : string -> http_reply (list byte)) :
  (match c with Some c => (Get c fs now kevURL).2 = false | None => True end ->
   (forall bytes, http_get kevURL <> Reply StatusOK (Ok bytes)) ->
   exists e, FetchKEVCatalog c fs now http_get = (Err e, fs))
  /\ (c = None -> (FetchKEVCatalog c fs now http_get).2 = fs).
Proof.
  split.
  - intros Hmiss Hfail. rewrite FetchKEVCatalog_miss by done.
    destruct (http_get kevURL) as [e|status [bytes|e]]; [eauto| |].
    + destruct (status =? StatusOK)%Z eqn:Hst; [|eauto].
      apply Z.eqb_eq in Hst as ->. by destruct (Hfail bytes).
    + destruct (status =? StatusOK)%Z; eauto.
  - intros ->. rewrite (FetchKEVCatalog_miss None) by done.
    destruct (http_get kevURL) as [e|status [bytes|e]]; [done| |];
      by destruct (status =? StatusOK)%Z.
Qed.

(** X13. The catalog has an entry exactly for the CVE IDs that occur in
    the array, each entry carries the ID it is filed under, and its
    ransomware flag is set iff the last array element with that ID has
    knownRansomwareCampaignUse equal to "Known". *)
Theorem build_catalog_keys_and_flags (vulns : list VulnerabilityJSON) (c : string) :
  (is_Some (build_catalog time_Parse vulns !! c) <-> exists v, v ∈ vulns /\ j_CVEID v = c)
  /\ (forall k, build_catalog time_Parse vulns !! c = Some k ->
        CVEID k = c
        /\ exists v, last (filter (fun v => j_CVEID v = c) vulns) = Some v
                     /\ (RansomwareUse k = true <-> j_KnownRansomwareCampaignUse v = "Known")).
Proof.
  rewrite build_catalog_lookup. split; [split|].
  - intros [k Hk]. destruct (last _) as [v|] eqn:Hlast; [|done].
    exists v. apply last_Some_elem_of in Hlast.
    apply list_elem_of_filter in Hlast as [? ?]. done.
  - intros (v & Hv & Hid).
    destruct (last (filter (fun v => j_CVEID v = c) vulns)) as [v'|] eqn:Hlast; [by eexists|].
    apply last_None in Hlast.
    assert (Hin : v ∈ filter (fun v => j_CVEID v = c) vulns)
      by (by apply list_elem_of_filter).
    rewrite Hlast in Hin. by apply elem_of_nil in Hin.
  - intros k. destruct (last _) as [v|] eqn:Hlast; simpl; [|done].
    intros [= <-]. split.
    + apply last_Some_elem_of in Hlast. by apply list_elem_of_filter in Hlast as [? ?].
    + exists v. split; [done|]. simpl. apply String.eqb_eq.
Qed.

End kev_more.

(** ** The scan as a whole *)
Section scan_more.
Import scanner.

Variable json_Unmarshal : list byte -> result kev.KEVResponse.
Variable time_Parse : string -> string -> time.Time * option error.
Variable strconv_ParseFloat : string -> float64 * option error.
Variable sha256_Sum256 : string -> list byte.
Variable hex_EncodeToString : list byte -> string.
Variable filepath_Join : string -> string -> string.

Local Abbreviation Path := (cache.Path sha256_Sum256 hex_EncodeToString filepath_Join).
Local Abbreviation FetchKEVCatalog :=
  (scanner.FetchKEVCatalog json_Unmarshal time_Parse
     sha256_Sum256 hex_EncodeToString filepath_Join).
Local Abbreviation FetchScores := (scanner.FetchScores strconv_ParseFloat).
Local Abbreviation Scan :=
  (scanner.Scan json_Unmarshal time_Parse strconv_ParseFloat
     sha256_Sum256 hex_EncodeToString filepath_Join).

Lemma f64_gt_not_ge (a b : float64) : f64_gt a b = true -> f64_ge b a = false.
Proof.
  unfold f64_gt, f64_ge, SFltb, SFleb, SFcompare.
  destruct a as [[]|[]| |[] ? ?], b as [[]|[]| |[] ? ?]; simpl; try congruence;
    repeat match goal with
           | |- context [Z.compare ?x ?y] => destruct (Z.compare_spec x y); subst
           | |- context [Pos.compare_cont Eq ?x ?y] =>
               change (Pos.compare_cont Eq x y) with (Pos.compare x y);
               destruct (Pos.compare_spec x y); subst
           end; simpl; try congruence; try lia.
Qed.

Lemma Scan_Panicked_inv (s : Scanner) (w : World) :
  run_outcome (Scan s w) = Panicked <->
  exists deps kevCatalog fs cvesByDep,
    w_discover w = Ok deps
    /\ length deps <> 0
    /\ FetchKEVCatalog s w = (Ok kevCatalog, fs)
    /\ osv.QueryBatch (w_osv_post w) deps = Ok cvesByDep
    /\ crossReference deps kevCatalog (w_range w cvesByDep) = None.
Proof.
  unfold scanner.Scan, crossref_to_filter. split.
  - destruct (w_discover w) as [deps|e]; [|done].
    destruct (decide (length deps = 0)) as [Hz|Hnz]; [done|].
    destruct (FetchKEVCatalog s w) as [[kevCatalog|e] fs] eqn:Hk; [|done].
    destruct (osv.QueryBatch (w_osv_post w) deps) as [cvesByDep|e] eqn:Hq; [|done].
    destruct (crossReference deps kevCatalog (w_range w cvesByDep)) as [[findings ids]|] eqn:Hx.
    + by destruct (enrichStage (FetchScores w) findings ids).
    + intros _. by exists deps, kevCatalog, fs, cvesByDep.
  - intros (deps & kevCatalog & fs & cvesByDep & -> & Hnz & Hk & Hq & Hx).
    rewrite decide_False by done. by rewrite Hk, Hq, Hx.
Qed.

(** X14. [Scan] ends in an index-out-of-range panic exactly when it
    gets as far as the cross-reference step with an OSV map that binds
    an index beyond the dependency list; when no OSV reply has more
    results than its request had queries this cannot happen. *)
Theorem Scan_panics_only_on_out_of_range_OSV_index
        (s : Scanner) (w : World) (Hrange : range_order_ok (w_range w)) :
  (run_outcome (Scan s w) = Panicked <->
   exists deps kevCatalog fs cvesByDep k,
     w_discover w = Ok deps
     /\ length deps <> 0
     /\ FetchKEVCatalog s w = (Ok kevCatalog, fs)
     /\ osv.QueryBatch (w_osv_post w) deps = Ok cvesByDep
     /\ is_Some (cvesByDep !! k) /\ length deps <= k)
  /\ ((forall queries status batchResp,
          w_osv_post w queries = Reply status (Ok batchResp) ->
          length batchResp <= length queries) ->
      run_outcome (Scan s w) <> Panicked).
Proof.
  assert (Hiff : run_outcome (Scan s w) = Panicked <->
                 exists deps kevCatalog fs cvesByDep k,
                   w_discover w = Ok deps
                   /\ length deps <> 0
                   /\ FetchKEVCatalog s w = (Ok kevCatalog, fs)
                   /\ osv.QueryBatch (w_osv_post w) deps = Ok cvesByDep
                   /\ is_Some (cvesByDep !! k) /\ length deps <= k).
  { rewrite Scan_Panicked_inv. split.
    - intros (deps & kevCatalog & fs & cvesByDep & Hd & Hnz & Hk & Hq & Hx).
      apply crossReference_None_iff in Hx as ([k cves] & Hin & Hge).
      exists deps, kevCatalog, fs, cvesByDep, k. repeat (split; [done|]).
      rewrite (Hrange cvesByDep) in Hin. apply elem_of_map_to_list in Hin.
      split; [by rewrite Hin|done].
    - intros (deps & kevCatalog & fs & cvesByDep & k & Hd & Hnz & Hk & Hq & [cves Hm] & Hge).
      exists deps, kevCatalog, fs, cvesByDep. repeat (split; [done|]).
      apply crossReference_None_iff. exists (k, cves). split; [|done].
      rewrite (Hrange cvesByDep). by apply elem_of_map_to_list. }
  split; [exact Hiff|].
  intros Hbound Hpanic. apply Hiff in Hpanic
    as (deps & kevCatalog & fs & cvesByDep & k & _ & _ & _ & Hq & Hk & Hge).
  pose proof (QueryBatch_keys_bound (w_osv_post w) deps cvesByDep Hbound Hq k Hk). lia.
Qed.

Lemma enrichStage_kev_elem (FS : list string -> gmap string EPSSScore_t * option error)
      (findings : list Finding) (ids : list string) (f : Finding) (k : KEVInfo) :
  f ∈ (enrichStage FS findings ids).1 -> k ∈ KEVs f ->
  exists f0 k0,
    f0 ∈ findings /\ k0 ∈ KEVs f0 /\ Dep f = Dep f0 /\ CVEs f = CVEs f0
    /\ (k = k0 \/ k = enrich_kev (FS ids).1 k0).
Proof.
  unfold enrichStage. destruct (0 <? length ids); simpl.
  - intros Hf Hk. apply enrich_elem in Hf as (f0 & Hf0 & Hdep & Hcves & Hkevs).
    rewrite Hkevs in Hk.
    change (map (enrich_kev (FS ids).1) (KEVs f0))
      with (enrich_kev (FS ids).1 <$> KEVs f0) in Hk.
    apply list_elem_of_fmap in Hk as (k0 & -> & Hk0).
    exists f0, k0. auto 10.
  - intros Hf Hk. exists f, k. auto 10.
Qed.

Lemma length_omap_le {A B : Type} (g : A -> option B) (l : list A) :
  length (omap g l) <= length l.
Proof.
  induction l as [|x l IH]; [done|]. rewrite omap_cons.
  destruct (g x); simpl; lia.
Qed.

Lemma length_filterStage_le (threshold : float64) (findings : list Finding) :
  length (filterStage threshold findings) <= length findings.
Proof.
  unfold filterStage. destruct (f64_gt threshold f64_zero); [|done].
  rewrite filterFindings_omap. apply length_omap_le.
Qed.

Lemma length_enrichStage (FS : list string -> gmap string EPSSScore_t * option error)
      (findings : list Finding) (ids : list string) :
  length (enrichStage FS findings ids).1 = length findings.
Proof.
  unfold enrichStage. destruct (0 <? length ids); simpl; [|done].
  unfold enrich. apply length_map.
Qed.

Lemma NoDup_bounded_length (l : list nat) (n : nat) :
  NoDup l -> Forall (fun k => k < n) l -> length l <= n.
Proof.
  intros Hnd Hall. transitivity (length (seq 0 n)); [|by rewrite length_seq].
  apply submseteq_length.
  apply NoDup_submseteq; [done|]. intros k Hk.
  rewrite Forall_forall in Hall. apply elem_of_seq. specialize (Hall k Hk). lia.
Qed.

(** X15. What [Scan] returns hangs together: the dependency of every
    finding is one of the discovered dependencies, every KEV entry of a
    finding carries the ID of one of the finding's CVEs, and (the OSV
    map being visited entry by entry) there are at most as many findings
    as dependencies. *)
Theorem Scan_findings_are_consistent (s : Scanner) (w : World) (result : list Finding)
        (Hret : run_outcome (Scan s w) = Returned result) :
  (forall f, f ∈ result ->
     (exists deps, w_discover w = Ok deps /\ Dep f ∈ deps)
     /\ forall k, k ∈ KEVs f -> exists cve, cve ∈ CVEs f /\ ID cve = CVEID k)
  /\ (range_order_ok (w_range w) ->
      forall deps, w_discover w = Ok deps -> length result <= length deps).
Proof.
  apply (Scan_Returned_inv json_Unmarshal time_Parse strconv_ParseFloat
           sha256_Sum256 hex_EncodeToString filepath_Join) in Hret
    as [->|(deps & kevCatalog & fs & cvesByDep & findings & ids
            & Hd & _ & Hk & _ & Hx & ->)].
  { split; [by intros f ?%elem_of_nil|]. intros _ deps _. simpl. lia. }
  split.
  - intros f Hf.
    apply filterStage_elem in Hf as (f1 & Hf1 & Hdep1 & Hcves1 & Hsub & _).
    split.
    + exists deps. split; [done|].
      apply enrichStage_elem in Hf1 as (f0 & Hf0 & Hdep0 & _ & _).
      destruct (crossReference_finding deps kevCatalog _ findings ids f0 Hx Hf0)
        as (_ & (depIdx & _ & Hlook) & _).
      rewrite Hdep1, Hdep0. by eapply list_elem_of_lookup_2.
    + intros k Hkin. apply Hsub in Hkin.
      destruct (enrichStage_kev_elem _ _ _ f1 k Hf1 Hkin)
        as (f0 & k0 & Hf0 & Hk0 & _ & Hcves0 & Hkk0).
      destruct (crossReference_finding deps kevCatalog _ findings ids f0 Hx Hf0)
        as (_ & _ & Hmatch).
      destruct (Hmatch k0 Hk0) as (cve & Hcve & Hcat).
      apply (FetchKEVCatalog_built json_Unmarshal time_Parse
               sha256_Sum256 hex_EncodeToString filepath_Join) in Hk as (vulns & ->).
      apply build_catalog_zero_epss in Hcat as (Hid & _ & _).
      exists cve. rewrite Hcves1, Hcves0. split; [done|].
      destruct Hkk0 as [->| ->]; [done|]. by rewrite enrich_kev_CVEID.
  - intros Hrange deps' Hd'. rewrite Hd in Hd'. injection Hd' as <-.
    etrans; [apply length_filterStage_le|]. rewrite length_enrichStage.
    apply crossReference_Some in Hx as (Hall & -> & _).
    etrans; [apply length_omap_le|].
    rewrite <- (length_fmap fst). apply NoDup_bounded_length.
    + rewrite (Hrange cvesByDep). apply NoDup_fst_map_to_list.
    + by apply Forall_fmap.
Qed.

Lemma filterStage_positive_elem (threshold : float64) (findings : list Finding) (f : Finding) :
  f64_gt threshold f64_zero = true ->
  f ∈ filterStage threshold findings ->
  exists f1, f1 ∈ findings
             /\ KEVs f = List.filter (retained threshold) (KEVs f1)
             /\ KEVs f <> [].
Proof.
  intros Hpos. unfold filterStage. rewrite Hpos.
  rewrite filterFindings_omap, list_elem_of_omap. intros (f1 & Hf1 & Hkeep).
  exists f1. unfold filter_finding in Hkeep.
  destruct (0 <? length (List.filter (retained threshold) (KEVs f1))) eqn:Hlen; [|done].
  injection Hkeep as <-. simpl. split; [done|]. split; [done|].
  apply Nat.ltb_lt in Hlen. destruct (List.filter _ _); simpl in Hlen; [lia|done].
Qed.

(** X16. Under a positive threshold every KEV entry [Scan] reports has
    a score [>=] the threshold. *)
Theorem Scan_reports_only_scores_at_or_above_the_threshold
        (s : Scanner) (w : World) (result : list Finding)
        (Hret : run_outcome (Scan s w) = Returned result)
        (Hpos : f64_gt (EPSSThreshold (config s)) f64_zero = true) :
  forall f k, f ∈ result -> k ∈ KEVs f ->
              f64_ge (EPSSScore k) (EPSSThreshold (config s)) = true.
Proof.
  intros f k Hf Hkin.
  apply (Scan_Returned_inv json_Unmarshal time_Parse strconv_ParseFloat
           sha256_Sum256 hex_EncodeToString filepath_Join) in Hret
    as [->|(deps & kevCatalog & fs & cvesByDep & findings & ids & _ & _ & _ & _ & _ & ->)].
  { by apply elem_of_nil in Hf. }
  apply (filterStage_positive_elem _ _ _ Hpos) in Hf as (f1 & _ & Hkevs & _).
  rewrite Hkevs in Hkin. apply list_elem_of_In, filter_In in Hkin as [_ Hkeep]. done.
Qed.

(** X17. Under a positive threshold every KEV entry [Scan] reports got
    its score from a fetched EPSS row that carries its CVE ID, an entry
    without a row being dropped for its zero score; so when no EPSS
    request succeeds, the scan reports nothing. *)
Theorem positive_threshold_reports_only_entries_with_an_EPSS_row
        (s : Scanner) (w : World) (result : list Finding)
        (Hret : run_outcome (Scan s w) = Returned result)
        (Hpos : f64_gt (EPSSThreshold (config s)) f64_zero = true) :
  (forall f k, f ∈ result -> k ∈ KEVs f ->
     exists ids row, row ∈ epss.fetched_rows (w_epss_get w) ids
                     /\ epss.d_CVE row = CVEID k
                     /\ EPSSScore k = (strconv_ParseFloat (epss.d_EPSS row)).1)
  /\ ((forall i url, epss.succeeded (w_epss_get w i url) = false) -> result = []).
Proof.
  assert (Hrows : forall f k, f ∈ result -> k ∈ KEVs f ->
            exists ids row, row ∈ epss.fetched_rows (w_epss_get w) ids
                            /\ epss.d_CVE row = CVEID k
                            /\ EPSSScore k = (strconv_ParseFloat (epss.d_EPSS row)).1).
  { intros f k Hf Hkin.
    apply (Scan_Returned_inv json_Unmarshal time_Parse strconv_ParseFloat
             sha256_Sum256 hex_EncodeToString filepath_Join) in Hret
      as [->|(deps & kevCatalog & fs & cvesByDep & findings & ids
              & _ & _ & Hk & _ & Hx & ->)].
    { by apply elem_of_nil in Hf. }
    apply (filterStage_positive_elem _ _ _ Hpos) in Hf as (f1 & Hf1 & Hkevs & _).
    rewrite Hkevs in Hkin. apply list_elem_of_In, filter_In in Hkin as [Hkin Hkeep].
    apply list_elem_of_In in Hkin.
    destruct (enrichStage_kev_elem _ _ _ f1 k Hf1 Hkin)
      as (f0 & k0 & Hf0 & Hk0 & _ & _ & Hkk0).
    destruct (crossReference_finding deps kevCatalog _ findings ids f0 Hx Hf0)
      as (_ & _ & Hmatch).
    destruct (Hmatch k0 Hk0) as (cve & _ & Hcat).
    apply (FetchKEVCatalog_built json_Unmarshal time_Parse
             sha256_Sum256 hex_EncodeToString filepath_Join) in Hk as (vulns & ->).
    apply build_catalog_zero_epss in Hcat as (_ & Hzero & _).
    assert (Hnot : retained (EPSSThreshold (config s)) k0 = false).
    { unfold retained. rewrite Hzero. by apply f64_gt_not_ge. }
    destruct Hkk0 as [->| ->]; [congruence|].
    pose proof (enrich_kev_fields (FetchScores w ids).1 k0) as Hfields.
    rewrite enrich_kev_CVEID.
    destruct ((FetchScores w ids).1 !! CVEID k0) as [score|] eqn:Hlook.
    - destruct Hfields as [Hs _].
      apply FetchScores_record in Hlook as (row & Hrow & Hcve & ->).
      exists ids, row. by rewrite Hs.
    - rewrite Hfields in Hkeep. congruence. }
  split; [exact Hrows|].
  intros Hdown. destruct result as [|f result']; [done|]. exfalso.
  assert (Hf : f ∈ f :: result') by (apply elem_of_cons; by left).
  assert (Hne : KEVs f <> []).
  { apply (Scan_Returned_inv json_Unmarshal time_Parse strconv_ParseFloat
             sha256_Sum256 hex_EncodeToString filepath_Join) in Hret
      as [Hnil|(deps & kevCatalog & fs & cvesByDep & findings & ids
                & _ & _ & _ & _ & _ & Heq)]; [done|].
    rewrite Heq in Hf.
    by apply (filterStage_positive_elem _ _ _ Hpos) in Hf as (_ & _ & _ & ?). }
  destruct (KEVs f) as [|k kevs] eqn:Hkevs; [done|].
  destruct (Hrows f k Hf) as (ids & row & Hrow & _); [rewrite Hkevs; apply elem_of_cons; by left|].
  rewrite fetched_rows_all_failed in Hrow by done. by apply elem_of_nil in Hrow.
Qed.

Lemma FetchKEVCatalog_fs_effect (s : Scanner) (w : World) :
  let fs' := (FetchKEVCatalog s w).2 in
  cache.writable fs' = cache.writable (w_fs w)
  /\ (kev_cache s = None -> fs' = w_fs w)
  /\ (forall c p, kev_cache s = Some c -> p <> Path c kev.kevURL ->
                  cache.files fs' !! p = cache.files (w_fs w) !! p).
Proof.
  unfold scanner.FetchKEVCatalog, kev.FetchKEVCatalog.
  destruct (kev_cache s) as [c|].
  - destruct (cache.Get _ _ _ c (w_fs w) (w_now w) kev.kevURL) as [bytes [|]];
      [simpl; split; [done|]; split; [done|]; by intros|].
    destruct (w_kev_get w kev.kevURL) as [e|status [bytes'|e]];
      [simpl; by auto| |];
      destruct (status =? StatusOK)%Z; simpl; try by auto.
    unfold cache.Set_, cache.os_WriteFile.
    destruct (cache.writable (w_fs w) _); simpl; [|by auto].
    split; [done|]. split; [done|]. intros c' p [= <-] Hp. by rewrite lookup_insert_ne.
  - destruct (w_kev_get w kev.kevURL) as [e|status [bytes'|e]];
      [simpl; by auto| |];
      destruct (status =? StatusOK)%Z; simpl; by auto.
Qed.

Lemma Scan_run_fs (s : Scanner) (w : World) :
  run_fs (Scan s w) = w_fs w \/ run_fs (Scan s w) = (FetchKEVCatalog s w).2.
Proof.
  unfold scanner.Scan. destruct (w_discover w) as [deps|e]; [|by left].
  destruct (decide (length deps = 0)); [by left|]. right.
  destruct (FetchKEVCatalog s w) as [[kevCatalog|e] fs]; [|done].
  destruct (osv.QueryBatch (w_osv_post w) deps) as [cvesByDep|e]; [|done].
  by destruct (crossref_to_filter strconv_ParseFloat s w deps kevCatalog cvesByDep).
Qed.

(** X18. The only trace a scan leaves on the file system is the cache
    file of the KEV catalog URL: every other file is as before, and a
    scanner without a cache leaves the file system untouched, however
    the scan ends. *)
Theorem Scan_touches_only_the_KEV_cache_file (s : Scanner) (w : World) :
  cache.writable (run_fs (Scan s w)) = cache.writable (w_fs w)
  /\ (kev_cache s = None -> run_fs (Scan s w) = w_fs w)
  /\ (forall c p, kev_cache s = Some c -> p <> Path c kev.kevURL ->
                  cache.files (run_fs (Scan s w)) !! p = cache.files (w_fs w) !! p).
Proof.
  destruct (FetchKEVCatalog_fs_effect s w) as (Hw & Hnone & Hother).
  destruct (Scan_run_fs s w) as [-> | ->]; [by auto|by auto].
Qed.

End scan_more.

(** ** The cache: [Clear] *)
Section clear_facts.
Import cache cache_clear.

Variable sha256_Sum256 : string -> list byte.
Variable hex_EncodeToString : list byte -> string.
Variable filepath_Join : string -> string -> string.
Variable os_ReadDir : string -> result (list DirEntry).
Variable removable : string -> bool.

Local Abbreviation Path := (cache.Path sha256_Sum256 hex_EncodeToString filepath_Join).
Local Abbreviation keyToFilename := (cache.keyToFilename sha256_Sum256 hex_EncodeToString).
Local Abbreviation Get := (cache.Get sha256_Sum256 hex_EncodeToString filepath_Join).
Local Abbreviation remove_entry := (cache_clear.remove_entry filepath_Join removable).
Local Abbreviation Clear := (cache_clear.Clear filepath_Join os_ReadDir removable).

Lemma remove_entry_keeps_absent (c : Cache) (fs : FS) (entry : DirEntry) (p : string) :
  files fs !! p = None -> files (remove_entry c fs entry) !! p = None.
Proof.
  intros Hp. unfold cache_clear.remove_entry, os_Remove.
  destruct (IsDir entry); simpl; [done|].
  destruct (files fs !! filepath_Join (Dir c) (Name entry)); [|done].
  destruct (removable _); simpl; [|done].
  rewrite lookup_delete. by case_decide.
Qed.

Lemma remove_entry_other (c : Cache) (fs : FS) (entry : DirEntry) (p : string) :
  (IsDir entry = false -> p <> filepath_Join (Dir c) (Name entry)) ->
  files (remove_entry c fs entry) !! p = files fs !! p.
Proof.
  intros Hp. unfold cache_clear.remove_entry, os_Remove.
  destruct (IsDir entry); simpl; [done|].
  destruct (files fs !! filepath_Join (Dir c) (Name entry)); [|done].
  destruct (removable _); simpl; [|done].
  rewrite lookup_delete_ne; [done|]. intros Heq. by apply Hp.
Qed.

Lemma remove_entry_removes (c : Cache) (fs : FS) (entry : DirEntry) :
  IsDir entry = false ->
  removable (filepath_Join (Dir c) (Name entry)) = true ->
  files (remove_entry c fs entry) !! filepath_Join (Dir c) (Name entry) = None.
Proof.
  intros Hfile Hrem. unfold cache_clear.remove_entry, os_Remove. rewrite Hfile. simpl.
  destruct (files fs !! filepath_Join (Dir c) (Name entry)) eqn:Hlook; [|done].
  rewrite Hrem. simpl. apply lookup_delete_eq.
Qed.

Lemma foldl_remove_keeps_absent (c : Cache) (entries : list DirEntry) :
  forall fs p, files fs !! p = None -> files (foldl (remove_entry c) fs entries) !! p = None.
Proof.
  induction entries as [|entry entries IH]; intros fs p Hp; [done|].
  simpl. apply IH. by apply remove_entry_keeps_absent.
Qed.

Lemma foldl_remove_other (c : Cache) (entries : list DirEntry) :
  forall fs p,
    (forall entry, entry ∈ entries -> IsDir entry = false ->
                   p <> filepath_Join (Dir c) (Name entry)) ->
    files (foldl (remove_entry c) fs entries) !! p = files fs !! p.
Proof.
  induction entries as [|entry entries IH]; intros fs p Hp; [done|].
  simpl. rewrite IH.
  - apply remove_entry_other. apply Hp. apply elem_of_cons. by left.
  - intros entry' Hin. apply Hp. apply elem_of_cons. by right.
Qed.

Lemma foldl_remove_removes (c : Cache) (entries : list DirEntry) (entry : DirEntry) :
  entry ∈ entries ->
  IsDir entry = false ->
  removable (filepath_Join (Dir c) (Name entry)) = true ->
  forall fs, files (foldl (remove_entry c) fs entries) !! filepath_Join (Dir c) (Name entry)
             = None.
Proof.
  intros Hin Hfile Hrem. induction entries as [|entry0 entries IH]; intros fs.
  - by apply elem_of_nil in Hin.
  - simpl. apply elem_of_cons in Hin as [<-|Hin].
    + apply foldl_remove_keeps_absent. by apply remove_entry_removes.
    + by apply IH.
Qed.

(** X19. [Clear] fails only when the cache directory cannot be listed,
    and then removes nothing. Otherwise it returns nil even if removals
    fail; every listed file whose removal goes through is gone, so [Get]
    misses for its key; files that were not listed as regular files of
    the directory are as before. *)
Theorem Clear_removes_the_listed_files (c : Cache) (fs : FS) :
  (forall e, os_ReadDir (Dir c) = Err e -> Clear c fs = (Some e, fs))
  /\ (forall entries,
        os_ReadDir (Dir c) = Ok entries ->
        (Clear c fs).1 = None
        /\ (forall key now,
              {| Name := keyToFilename key; IsDir := false |} ∈ entries ->
              removable (Path c key) = true ->
              Get c (Clear c fs).2 now key = ([], false))
        /\ (forall p,
              (forall entry, entry ∈ entries -> IsDir entry = false ->
                             p <> filepath_Join (Dir c) (Name entry)) ->
              files (Clear c fs).2 !! p = files fs !! p)).
Proof.
  unfold cache_clear.Clear. split.
  - by intros e ->.
  - intros entries ->. simpl. split; [done|]. split.
    + intros key now Hin Hrem.
      rewrite (Get_cases sha256_Sum256 hex_EncodeToString filepath_Join).
      unfold cache.Path.
      by rewrite (foldl_remove_removes c entries
                    {| Name := keyToFilename key; IsDir := false |} Hin eq_refl Hrem).
    + intros p Hp. by apply foldl_remove_other.
Qed.

End clear_facts.

(** ** Discovery: [parseFile], the directory walk, [discoverDependencies] *)
Section discovery_facts.
Import parsers scanner discovery.

Variable filepath_Join : string -> string -> string.
Variable filepath_Base : string -> string.
Variable lstat_Name : string -> string.
Variable registered : list Parser.
Variable is_symlink : string -> bool.

Local Abbreviation parseFile := (discovery.parseFile filepath_Base registered).
Local Abbreviation walkDir := (discovery.walkDir filepath_Join filepath_Base registered).
Local Abbreviation walked_files := (discovery.walked_files filepath_Join).
Local Abbreviation parsed := (discovery.parsed filepath_Base registered).
Local Abbreviation walk_entries := (discovery.walk_entries filepath_Join filepath_Base registered).
Local Abbreviation files_of := (discovery.files_of filepath_Join).
Local Abbreviation walk_result := (discovery.walk_result filepath_Base registered).
Local Abbreviation found := (discovery.found filepath_Join lstat_Name is_symlink).
Local Abbreviation path_error :=
  (discovery.path_error filepath_Base lstat_Name registered is_symlink).
Local Abbreviation discover_loop :=
  (discovery.discover_loop filepath_Join filepath_Base lstat_Name registered is_symlink).
Local Abbreviation discoverDependencies :=
  (discovery.discoverDependencies filepath_Join filepath_Base lstat_Name registered
                                  is_symlink).

Lemma parseFile_loop_skip (before after : list Parser) (filename path : string)
      (content : result (list byte)) :
  Forall (fun q => CanParse q filename = false) before ->
  parseFile_loop (before ++ after) filename path content
  = parseFile_loop after filename path content.
Proof.
  induction 1 as [|q before Hq _ IH]; [done|]. simpl. by rewrite Hq.
Qed.

(** X20. [parseFile] lets the first registered parser that accepts the
    file's base name decide: the result is that parser's result on the
    bytes read, or the read error. A file that no parser accepts gives no
    dependencies and no error, whether or not it can be read. *)
Theorem parseFile_first_accepting_parser_decides (path : string) (content : result (list byte)) :
  (forall before parser after,
      registered = before ++ parser :: after ->
      Forall (fun q => CanParse q (filepath_Base path) = false) before ->
      CanParse parser (filepath_Base path) = true ->
      parseFile path content = parse_with parser path content)
  /\ (Forall (fun q => CanParse q (filepath_Base path) = false) registered ->
      parseFile path content = Ok []).
Proof.
  unfold discovery.parseFile. split.
  - intros before parser after -> Hbefore Hparser.
    rewrite parseFile_loop_skip; [|done]. simpl. by rewrite Hparser.
  - intros Hnone. rewrite <- (app_nil_r registered). by rewrite parseFile_loop_skip.
Qed.

Lemma walk_entries_spec (path : string) (entries : list (string * node)) :
  Forall (fun entry =>
            forall path name allDeps,
              walkDir path name entry.2 allDeps
              = walk_result (unreadable name entry.2) allDeps (walked_files path name entry.2))
         entries ->
  forall allDeps,
    walk_entries path entries allDeps
    = walk_result (first_of entries) allDeps (files_of path entries).
Proof.
  induction 1 as [|[name1 n1] entries Hentry _ IH]; intros allDeps.
  - simpl. by rewrite app_nil_r.
  - cbn [discovery.walk_entries discovery.files_of first_of].
    rewrite (Hentry _ name1 allDeps). cbn [snd].
    destruct (unreadable name1 n1) as [e|]; [done|]. cbn [discovery.walk_result].
    rewrite IH. destruct (first_of entries) as [e|]; [done|]. cbn [discovery.walk_result].
    by rewrite flat_map_app, app_assoc.
Qed.

Lemma walkDir_walk_result (n : node) :
  forall path name allDeps,
    walkDir path name n allDeps
    = walk_result (unreadable name n) allDeps (walked_files path name n).
Proof.
  induction n as [content|e|entries IH] using node_tree_ind; intros path name allDeps.
  - simpl. unfold discovery.parsed. simpl.
    destruct (parseFile path content); simpl; by rewrite ?app_nil_r.
  - simpl. destruct (skipped name); simpl; [by rewrite app_nil_r|done].
  - simpl. destruct (skipped name); [simpl; by rewrite app_nil_r|].
    apply (walk_entries_spec path entries IH).
Qed.

(** X21. The walk of a directory tree fails exactly when it meets a
    directory it cannot read outside the skipped ones, with that
    directory's error. Otherwise it appends, in walk order, what
    [parseFile] yields for each file outside the skipped directories; a
    file whose reading or parsing fails adds nothing and does not end the
    walk. *)
Theorem walkDir_collects_the_parsed_files
        (path name : string) (n : node) (allDeps : list Dependency) :
  walkDir path name n allDeps
  = match unreadable name n with
    | Some e => Err e
    | None => Ok (allDeps ++ flat_map parsed (walked_files path name n))
    end.
Proof. apply walkDir_walk_result. Qed.

(** A file that cannot be read yields an error or, when no parser
    accepts its name, nothing. *)
Lemma parseFile_unreadable (path : string) (e : error) :
  parseFile path (Err e) = Err e \/ parseFile path (Err e) = Ok [].
Proof.
  unfold discovery.parseFile. induction registered as [|parser ps IH]; simpl; [by right|].
  destruct (CanParse parser (filepath_Base path)); [by left|exact IH].
Qed.

Lemma symlink_root_adds_nothing (root : string) (n : node) :
  is_symlink root = true ->
  unreadable (lstat_Name root) (discovery.root_node is_symlink root n) = None
  /\ flat_map parsed (walked_files root (lstat_Name root)
                                   (discovery.root_node is_symlink root n)) = [].
Proof.
  intros Hlink. unfold discovery.root_node. rewrite Hlink. split; [done|].
  simpl. unfold discovery.parsed. simpl.
  by destruct (parseFile_unreadable root EISDIR) as [-> | ->].
Qed.

Lemma discover_loop_path_ok (stat : string -> result node) (path : string) (paths : list string)
      (allDeps : list Dependency) :
  path_error stat path = None ->
  discover_loop stat (path :: paths) allDeps
  = discover_loop stat paths (allDeps ++ flat_map parsed (found stat path)).
Proof.
  unfold discovery.path_error, discovery.found. cbn [discovery.discover_loop].
  destruct (stat path) as [[content|entries]|e]; [| |done].
  - unfold discovery.parsed. simpl.
    destruct (discovery.parseFile _ _ path content) as [deps|e]; [|done].
    intros _. by rewrite app_nil_r.
  - intros Hunread. unfold discovery.WalkDir. rewrite walkDir_walk_result, Hunread. done.
Qed.

Lemma discover_loop_path_error (stat : string -> result node) (path : string)
      (paths : list string) (allDeps : list Dependency) (e : error) :
  path_error stat path = Some e ->
  discover_loop stat (path :: paths) allDeps = Err e.
Proof.
  unfold discovery.path_error. cbn [discovery.discover_loop].
  destruct (stat path) as [[content|entries]|e0]; [| |by intros [= <-]].
  - destruct (discovery.parseFile _ _ path content) as [deps|e0]; [done|by intros [= <-]].
  - intros Hunread. unfold discovery.WalkDir. by rewrite walkDir_walk_result, Hunread.
Qed.

Lemma discover_loop_ok (stat : string -> result node) (paths : list string) :
  Forall (fun path => path_error stat path = None) paths ->
  forall allDeps,
    discover_loop stat paths allDeps
    = Ok (allDeps ++ flat_map (fun path => flat_map parsed (found stat path)) paths).
Proof.
  induction 1 as [|path paths Hpath _ IH]; intros allDeps.
  - simpl. by rewrite app_nil_r.
  - rewrite discover_loop_path_ok by done. rewrite IH. simpl. by rewrite app_assoc.
Qed.

(** X22. [discoverDependencies] works through the configured paths in
    order. It ends with an error at the first path that cannot be
    stat'ed (the error is wrapped), that is a file whose reading or
    parsing fails, or that is a directory whose walk meets an unreadable
    directory. When no path has such an error, the result is what each
    path contributes, in the order of the paths. A configured path that
    is a symbolic link to a directory is not entered: it gives no error
    and contributes nothing. *)
Theorem discoverDependencies_stops_at_the_first_failing_path
        (s : Scanner) (stat : string -> result node) :
  (forall before path after e,
      Paths (config s) = before ++ path :: after ->
      Forall (fun path => path_error stat path = None) before ->
      path_error stat path = Some e ->
      discoverDependencies s stat = Err e)
  /\ (Forall (fun path => path_error stat path = None) (Paths (config s)) ->
      discoverDependencies s stat
      = Ok (flat_map (fun path => flat_map parsed (found stat path)) (Paths (config s))))
  /\ (forall path entries,
        stat path = Ok (Dir entries) ->
        is_symlink path = true ->
        path_error stat path = None
        /\ flat_map parsed (found stat path) = []
        /\ forall paths allDeps,
             discover_loop stat (path :: paths) allDeps = discover_loop stat paths allDeps).
Proof.
  unfold discovery.discoverDependencies. split; [|split].
  - intros before path after e -> Hbefore Herr.
    generalize (@nil Dependency). induction Hbefore as [|path0 before Hpath0 _ IH]; intros allDeps.
    + by apply discover_loop_path_error.
    + simpl app. rewrite discover_loop_path_ok by done. apply IH.
  - intros Hok. by rewrite discover_loop_ok.
  - intros path entries Hstat Hlink.
    destruct (symlink_root_adds_nothing path (Dir entries) Hlink) as [Hunread Hnone].
    assert (path_error stat path = None) as Herr
        by (unfold discovery.path_error; by rewrite Hstat).
    assert (flat_map parsed (found stat path) = []) as Hfound
        by (unfold discovery.found; by rewrite Hstat).
    split; [done|]. split; [done|]. intros paths allDeps.
    by rewrite discover_loop_path_ok, Hfound, app_nil_r.
Qed.

(** X23. A file that fails to parse ends the discovery when its path is
    configured, and is passed over when the walk of a configured
    directory meets it. *)
Theorem parse_error_is_fatal_only_for_a_configured_file
        (stat : string -> result node) (path name : string) (content : result (list byte))
        (e : error) (paths : list string) (allDeps : list Dependency)
        (Hparse : parseFile path content = Err e) :
  (stat path = Ok (File content) -> discover_loop stat (path :: paths) allDeps = Err e)
  /\ walkDir path name (File content) allDeps = Ok allDeps
  /\ (forall dir entry,
        filepath_Join dir entry = path ->
        skipped (lstat_Name dir) = false ->
        stat dir = Ok (Dir (Ok [(entry, File content)])) ->
        discover_loop stat (dir :: paths) allDeps = discover_loop stat paths allDeps).
Proof.
  split; [|split].
  - intros Hstat. apply discover_loop_path_error. unfold discovery.path_error.
    by rewrite Hstat, Hparse.
  - simpl. by rewrite Hparse.
  - intros dir entry Hjoin Hskip Hstat.
    assert (path_error stat dir = None
            /\ flat_map parsed (found stat dir) = []) as [Herr Hfound].
    { unfold discovery.path_error, discovery.found. rewrite Hstat.
      destruct (is_symlink dir) eqn:Hlink.
      - by apply symlink_root_adds_nothing.
      - unfold discovery.root_node. rewrite Hlink. simpl. rewrite Hskip. split; [done|].
        simpl. unfold discovery.parsed. simpl. by rewrite Hjoin, Hparse. }
    by rewrite discover_loop_path_ok, Hfound, app_nil_r.
Qed.

End discovery_facts.

(** ** The scanner: [New] *)
Section new_facts.
Import scanner.

Variable json_Unmarshal : list byte -> result kev.KEVResponse.
Variable time_Parse : string -> string -> time.Time * option error.
Variable strconv_ParseFloat : string -> float64 * option error.
Variable sha256_Sum256 : string -> list byte.
Variable hex_EncodeToString : list byte -> string.
Variable filepath_Join : string -> string -> string.

Local Abbreviation New := (discovery.New filepath_Join).
Local Abbreviation Scan :=
  (scanner.Scan json_Unmarshal time_Parse strconv_ParseFloat
                sha256_Sum256 hex_EncodeToString filepath_Join).

Lemma Scan_without_cache_keeps_fs (s : Scanner) (w : World) :
  kev_cache s = None -> run_fs (Scan s w) = w_fs w.
Proof.
  intros Hnone.
  destruct (Scan_run_fs json_Unmarshal time_Parse strconv_ParseFloat
              sha256_Sum256 hex_EncodeToString filepath_Join s w) as [H|H];
    rewrite H; [done|].
  by apply (FetchKEVCatalog_fs_effect json_Unmarshal time_Parse
              sha256_Sum256 hex_EncodeToString filepath_Join).
Qed.

(** X24. [New] never fails. The scanner it returns carries the
    configuration; it has a cache in [~/.cache/kev-checker], with the
    configured TTL or 24 hours when that is zero, unless [NoCache] is
    set, the home directory is unknown or the cache directory cannot be
    made. A scanner left without a cache scans without touching the file
    system. *)
Theorem New_never_fails_and_may_leave_out_the_cache
        (userHomeDir : result string) (mkdirAll : string -> option error) (cfg : Config) :
  exists s,
    New userHomeDir mkdirAll cfg = Ok s
    /\ config s = cfg
    /\ (NoCache cfg = true -> kev_cache s = None)
    /\ (forall e, userHomeDir = Err e -> kev_cache s = None)
    /\ (forall home,
          userHomeDir = Ok home ->
          let cacheDir := filepath_Join (filepath_Join home ".cache") "kev-checker" in
          (forall e, mkdirAll cacheDir = Some e -> kev_cache s = None)
          /\ (NoCache cfg = false -> mkdirAll cacheDir = None ->
              kev_cache s
              = Some {| cache.Dir := cacheDir;
                        cache.TTL := if (CacheTTL cfg =? 0)%Z
                                     then (24 * time.Hour)%Z else CacheTTL cfg |}))
    /\ (kev_cache s = None -> forall w, run_fs (Scan s w) = w_fs w).
Proof.
  unfold discovery.New.
  match goal with |- context [{| config := cfg; kev_cache := ?c |}] => set (cache_of := c) end.
  exists {| config := cfg; kev_cache := cache_of |}. split; [done|]. cbn [config kev_cache].
  split; [done|]. split; [|split; [|split]].
  - subst cache_of. by intros ->.
  - subst cache_of. unfold cache.New. intros e ->. by destruct (NoCache cfg).
  - subst cache_of. unfold cache.New. intros home ->. cbv zeta. split.
    + intros e ->. by destruct (NoCache cfg).
    + by intros -> ->.
  - intros Hnone w. by apply Scan_without_cache_keeps_fs.
Qed.

End new_facts.

(** ** The parsers *)
Section parser_facts.
Import parsers discovery.

Lemma substring_whole (s : string) : String.substring 0 (String.length s) s = s.
Proof. induction s as [|a s IH]; [done|]. simpl. by rewrite IH. Qed.

Lemma prefix_app (p s : string) : String.prefix p (String.append p s) = true.
Proof.
  induction p as [|a p IH]; simpl; [by destruct s|].
  by destruct (Ascii.ascii_dec a a).
Qed.

Lemma prefix_true_app (p : string) :
  forall s, String.prefix p s = true -> exists rest, s = String.append p rest.
Proof.
  induction p as [|a p IH]; intros s Hp; [by exists s|].
  destruct s as [|b s]; [done|]. simpl in Hp.
  destruct (Ascii.ascii_dec a b) as [->|]; [|done].
  destruct (IH s Hp) as [rest ->]. by exists rest.
Qed.

Lemma TrimPrefix_hit (p s : string) : TrimPrefix (String.append p s) p = s.
Proof.
  unfold TrimPrefix. rewrite prefix_app.
  induction p as [|a p IH]; simpl.
  - rewrite Nat.sub_0_r. apply substring_whole.
  - exact IH.
Qed.

Lemma TrimPrefix_miss (p s : string) : String.prefix p s = false -> TrimPrefix s p = s.
Proof. unfold TrimPrefix. by intros ->. Qed.

Lemma TrimPrefix_suffix (p s : string) :
  exists pre, s = String.append pre (TrimPrefix s p).
Proof.
  destruct (String.prefix p s) eqn:Hp.
  - destruct (prefix_true_app p s Hp) as [rest ->]. exists p. by rewrite TrimPrefix_hit.
  - exists EmptyString. by rewrite TrimPrefix_miss.
Qed.

Lemma append_assoc (a b c : string) :
  String.append (String.append a b) c = String.append a (String.append b c).
Proof.
  induction a as [|x a IH]; [done|].
  change (String x (String.append (String.append a b) c)
          = String x (String.append a (String.append b c))).
  by rewrite IH.
Qed.

Section gomod.

Variable modfile_Parse : string -> list byte -> result (list Require).
Variable IncludeIndirect : bool.

Local Abbreviation GoMod_Parse := (parsers.GoMod_Parse modfile_Parse IncludeIndirect).

(** The dependency [GoMod_Parse] makes of a requirement. *)
Local Abbreviation go_dependency filepath :=
  (fun req => {| models.Name := Mod_Path req;
                 Version := TrimPrefix (Mod_Version req) "v";
                 Ecosystem := EcosystemGo;
                 SourceFile := filepath;
                 Line := 0 |}).

Lemma foldl_gomod_step (filepath : string) (requires : list Require) :
  forall deps,
    foldl (gomod_step IncludeIndirect filepath) deps requires
    = deps ++ map (go_dependency filepath)
                  (List.filter (fun req => IncludeIndirect || negb (Indirect req)) requires).
Proof.
  induction requires as [|req requires IH]; intros deps; simpl; [by rewrite app_nil_r|].
  rewrite IH. unfold gomod_step.
  destruct (Indirect req), IncludeIndirect; simpl; by rewrite <- ?app_assoc.
Qed.

(** X25. [GoModParser.Parse] fails exactly when [modfile.Parse] does.
    Otherwise it returns one dependency per requirement, in the order of
    the file, leaving out the indirect ones unless [IncludeIndirect] is
    set; each has the module path as its name, ecosystem Go, the file as
    its source, no line, and the version without one leading v. *)
Theorem GoMod_Parse_lists_the_requirements (filepath : string) (content : list byte) :
  (forall e, modfile_Parse filepath content = Err e -> GoMod_Parse filepath content = Err e)
  /\ (forall requires,
        modfile_Parse filepath content = Ok requires ->
        GoMod_Parse filepath content
        = Ok (map (go_dependency filepath)
                  (List.filter (fun req => IncludeIndirect || negb (Indirect req)) requires)))
  /\ (forall version, TrimPrefix (String.append "v" version) "v" = version)
  /\ (forall version, String.prefix "v" version = false -> TrimPrefix version "v" = version).
Proof.
  unfold parsers.GoMod_Parse. split; [by intros e ->|]. split; [|split].
  - intros requires ->. by rewrite foldl_gomod_step.
  - intros version. apply TrimPrefix_hit.
  - intros version. apply TrimPrefix_miss.
Qed.

End gomod.

Lemma prefix_longer (a : Ascii.ascii) (p s : string) :
  String.prefix (String a EmptyString) s = false ->
  String.prefix (String a p) s = false.
Proof.
  destruct s as [|b s]; [done|]. simpl.
  destruct (Ascii.ascii_dec a b); [|done]. by destruct s.
Qed.

Lemma cleanNpmVersion_plain (version : string) :
  (forall op, op ∈ operator_starts -> String.prefix op version = false) ->
  cleanNpmVersion version = version.
Proof.
  intros Hplain. unfold cleanNpmVersion.
  assert (forall a p, String a EmptyString ∈ operator_starts ->
                      TrimPrefix version (String a p) = version) as H2.
  { intros a p Hop. apply TrimPrefix_miss, prefix_longer. by apply Hplain. }
  by rewrite !H2 by (unfold operator_starts; set_solver).
Qed.

(** X26. [cleanNpmVersion] returns the version without one leading range
    operator: for a version that starts with none of ^ ~ > < =, the
    version itself, also when one of ^ ~ >= > <= < = is put before it.
    Whatever the input, the result is the input without some prefix. *)
Theorem cleanNpmVersion_strips_the_range_operator (version : string)
        (Hplain : forall op, op ∈ operator_starts -> String.prefix op version = false) :
  (forall op, op ∈ ["^"; "~"; ">="; ">"; "<="; "<"; "="; ""]%string ->
              cleanNpmVersion (String.append op version) = version)
  /\ (forall input, exists pre, input = String.append pre (cleanNpmVersion input)).
Proof.
  split.
  - intros op Hop.
    assert (forall p, TrimPrefix (String.append p version) p = version) as Hhit
        by (intros p; apply TrimPrefix_hit).
    assert (forall a p, String a EmptyString ∈ operator_starts ->
                        TrimPrefix version (String a p) = version) as Hmiss.
    { intros a p Ha. apply TrimPrefix_miss, prefix_longer. by apply Hplain. }
    unfold cleanNpmVersion.
    repeat (apply elem_of_cons in Hop as [->|Hop]); [..|by apply elem_of_nil in Hop].
    all: try change (String.append EmptyString version) with version.
    all: repeat first
           [ rewrite Hhit
           | rewrite (TrimPrefix_miss _ (String.append _ version)) by reflexivity
           | rewrite (TrimPrefix_miss _ (String.append _ version))
               by (change (String.prefix "=" version = false);
                   apply Hplain; unfold operator_starts; set_solver) ].
    all: by rewrite ?Hmiss by (unfold operator_starts; set_solver).
  - intros input. unfold cleanNpmVersion.
    destruct (TrimPrefix_suffix "^" input) as [p1 H1].
    destruct (TrimPrefix_suffix "~" (TrimPrefix input "^")) as [p2 H2].
    destruct (TrimPrefix_suffix ">=" (TrimPrefix (TrimPrefix input "^") "~")) as [p3 H3].
    destruct (TrimPrefix_suffix ">" (TrimPrefix (TrimPrefix (TrimPrefix input "^") "~") ">="))
      as [p4 H4].
    destruct (TrimPrefix_suffix "<="
                (TrimPrefix (TrimPrefix (TrimPrefix (TrimPrefix input "^") "~") ">=") ">"))
      as [p5 H5].
    destruct (TrimPrefix_suffix "<"
                (TrimPrefix (TrimPrefix (TrimPrefix (TrimPrefix (TrimPrefix input "^") "~")
                                                    ">=") ">") "<="))
      as [p6 H6].
    destruct (TrimPrefix_suffix "="
                (TrimPrefix (TrimPrefix (TrimPrefix (TrimPrefix (TrimPrefix
                   (TrimPrefix input "^") "~") ">=") ">") "<=") "<"))
      as [p7 H7].
    exists (String.append p1 (String.append p2 (String.append p3 (String.append p4
              (String.append p5 (String.append p6 p7)))))).
    rewrite !append_assoc.
    by rewrite <- H7, <- H6, <- H5, <- H4, <- H3, <- H2, <- H1.
Qed.

Lemma parseFile_loop_filter (ps : list Parser) (filename path : string)
      (content : result (list byte)) :
  parseFile_loop ps filename path content
  = match filter (fun parser => CanParse parser filename) ps with
    | [] => Ok []
    | parser :: _ => parse_with parser path content
    end.
Proof.
  induction ps as [|parser ps IH]; [done|].
  rewrite filter_cons. simpl. destruct (CanParse parser filename) eqn:Hcan.
  - destruct (decide (Is_true true)) as [_|Hno]; [done|by destruct Hno].
  - destruct (decide (Is_true false)) as [[]|_]. exact IH.
Qed.

Section registry.

Variable PythonRequirements_Parse : string -> list byte -> result (list Dependency).
Variable PythonPyProject_Parse : string -> list byte -> result (list Dependency).
Variable NodePackageLock_Parse : string -> list byte -> result (list Dependency).
Variable NodePackageJSON_Parse : string -> list byte -> result (list Dependency).
Variable modfile_Parse : string -> list byte -> result (list Require).

Local Abbreviation GetAllParsers :=
  (parsers.GetAllParsers PythonRequirements_Parse PythonPyProject_Parse
                         NodePackageLock_Parse NodePackageJSON_Parse modfile_Parse).

Lemma GetAllParsers_disjoint (filename : string) :
  length (filter (fun parser => CanParse parser filename) GetAllParsers) <= 1.
Proof.
  unfold parsers.GetAllParsers. rewrite !filter_cons, filter_nil. cbn [CanParse].
  unfold PythonPyProject_CanParse, NodePackageLock_CanParse, NodePackageJSON_CanParse,
    GoMod_CanParse.
  destruct (String.eqb_spec filename "pyproject.toml") as [->|_]; [vm_compute; lia|].
  destruct (String.eqb_spec filename "package-lock.json") as [->|_]; [vm_compute; lia|].
  destruct (String.eqb_spec filename "package.json") as [->|_]; [vm_compute; lia|].
  destruct (String.eqb_spec filename "go.mod") as [->|_]; [vm_compute; lia|].
  destruct (decide (Is_true false)) as [[]|_].
  case_decide; simpl; lia.
Qed.

(** X27. No file name is accepted by two of the registered parsers, so
    the order in which [GetAllParsers] lists them does not matter to
    [parseFile]; and a file named go.mod is parsed by the go.mod parser
    with the indirect requirements left out. *)
Theorem registered_parsers_accept_disjoint_names (filename : string) :
  length (filter (fun parser => CanParse parser filename) GetAllParsers) <= 1
  /\ (forall ps path content,
        ps ≡ₚ GetAllParsers ->
        parseFile_loop ps filename path content
        = parseFile_loop GetAllParsers filename path content)
  /\ (forall path bytes requires,
        modfile_Parse path bytes = Ok requires ->
        parseFile_loop GetAllParsers "go.mod" path (Ok bytes)
        = Ok (map (fun req => {| models.Name := Mod_Path req;
                                 Version := TrimPrefix (Mod_Version req) "v";
                                 Ecosystem := EcosystemGo;
                                 SourceFile := path;
                                 Line := 0 |})
                  (List.filter (fun req => negb (Indirect req)) requires))).
Proof.
  split; [apply GetAllParsers_disjoint|]. split.
  - intros ps path content Hperm. rewrite !parseFile_loop_filter.
    pose proof (GetAllParsers_disjoint filename) as Hlen.
    pose proof (filter_Permutation (fun parser => CanParse parser filename) _ _ Hperm) as Hf.
    destruct (filter _ GetAllParsers) as [|parser [|parser' l]]; [| |simpl in Hlen; lia].
    + by apply Permutation_nil_r in Hf as ->.
    + by apply Permutation_singleton_r in Hf as ->.
  - intros path bytes requires Hparse.
    change (parseFile_loop GetAllParsers "go.mod" path (Ok bytes))
      with (parsers.GoMod_Parse modfile_Parse false path bytes).
    unfold parsers.GoMod_Parse. rewrite Hparse. by rewrite foldl_gomod_step.
Qed.

End registry.

End parser_facts.

(** ** The reports *)
Section report_facts.
Import scanner reporter.

Variable time_Format : time.Time -> string -> string.
Variable fmt_EPSS : float64 -> string.

Local Abbreviation to_jsonKEV := (reporter.to_jsonKEV time_Format).
Local Abbreviation json_kev_step := (reporter.json_kev_step time_Format).
Local Abbreviation json_finding_step := (reporter.json_finding_step time_Format).
Local Abbreviation json_output := (reporter.json_output time_Format).
Local Abbreviation rule_of := (reporter.rule_of time_Format).
Local Abbreviation add_rule := (reporter.add_rule time_Format).
Local Abbreviation rule_map := (reporter.rule_map time_Format).
Local Abbreviation buildRules := (reporter.buildRules time_Format).
Local Abbreviation result_of := (reporter.result_of fmt_EPSS).
Local Abbreviation buildResults := (reporter.buildResults fmt_EPSS).

(** The [jsonFinding] of a finding. *)
Local Abbreviation to_jsonFinding :=
  (fun f : Finding =>
     {| f_Package := {| p_Name := Name (Dep f);
                        p_Version := Version (Dep f);
                        p_Ecosystem := Ecosystem (Dep f) |};
        f_SourceFile := SourceFile (Dep f);
        f_Line := Line (Dep f);
        f_KEVs := map to_jsonKEV (KEVs f) |}).

Lemma foldl_json_kev_step (kevs : list KEVInfo) :
  forall st,
    let r := foldl json_kev_step st kevs in
    TotalFindings r.1 = TotalFindings st.1
    /\ AffectedPackages r.1 = AffectedPackages st.1
    /\ TotalKEVs r.1 = TotalKEVs st.1 + length kevs
    /\ RansomwareRelated r.1
       = RansomwareRelated st.1 + length (List.filter RansomwareUse kevs)
    /\ r.2 = st.2 ++ map to_jsonKEV kevs.
Proof.
  induction kevs as [|kev kevs IH]; intros st; cbn [foldl].
  - simpl. rewrite app_nil_r. repeat split; lia.
  - destruct (IH (json_kev_step st kev)) as (H1 & H2 & H3 & H4 & H5).
    cbv zeta. rewrite H1, H2, H3, H4, H5. unfold reporter.json_kev_step. simpl.
    destruct (RansomwareUse kev); simpl; rewrite <- app_assoc; simpl; repeat split; lia.
Qed.

Lemma total_kevs_cons (f : Finding) (findings : list Finding) :
  total_kevs (f :: findings) = length (KEVs f) + total_kevs findings.
Proof. reflexivity. Qed.

Lemma foldl_json_finding_step (findings : list Finding) :
  forall output,
    let r := foldl json_finding_step output findings in
    TotalFindings (Summary r) = TotalFindings (Summary output)
    /\ AffectedPackages (Summary r) = AffectedPackages (Summary output)
    /\ TotalKEVs (Summary r) = TotalKEVs (Summary output) + total_kevs findings
    /\ RansomwareRelated (Summary r)
       = RansomwareRelated (Summary output)
         + length (List.filter RansomwareUse (flat_map KEVs findings))
    /\ Findings r = Findings output ++ map to_jsonFinding findings.
Proof.
  induction findings as [|f findings IH]; intros output; cbn [foldl].
  - simpl. rewrite app_nil_r. unfold total_kevs. simpl. repeat split; lia.
  - destruct (IH (json_finding_step output f)) as (H1 & H2 & H3 & H4 & H5).
    cbv zeta. rewrite H1, H2, H3, H4, H5. unfold reporter.json_finding_step.
    destruct (foldl_json_kev_step (KEVs f) (Summary output, [])) as (K1 & K2 & K3 & K4 & K5).
    destruct (foldl json_kev_step (Summary output, []) (KEVs f)) as [summary kevs].
    simpl in K1, K2, K3, K4, K5. subst kevs. cbn [Summary Findings].
    rewrite K1, K2, K3, K4, total_kevs_cons. cbn [flat_map].
    rewrite List.filter_app, length_app, <- app_assoc. simpl. repeat split; lia.
Qed.

Lemma total_kevs_flat_map (findings : list Finding) :
  total_kevs findings = length (flat_map KEVs findings).
Proof.
  induction findings as [|f findings IH]; [done|].
  rewrite total_kevs_cons. cbn [flat_map]. rewrite length_app. lia.
Qed.

Lemma flat_map_to_jsonFinding (findings : list Finding) :
  flat_map f_KEVs (map to_jsonFinding findings) = map to_jsonKEV (flat_map KEVs findings).
Proof.
  induction findings as [|f findings IH]; [done|].
  cbn [map flat_map f_KEVs]. by rewrite IH, map_app.
Qed.

Lemma length_filter_to_jsonKEV (kevs : list KEVInfo) :
  length (List.filter k_RansomwareUse (map to_jsonKEV kevs))
  = length (List.filter RansomwareUse kevs).
Proof.
  induction kevs as [|kev kevs IH]; [done|]. simpl.
  destruct (RansomwareUse kev); simpl; by rewrite IH.
Qed.

(** X28. In the JSON report the findings appear in the order given, each
    with its package and all its KEV entries in order, and the summary
    agrees with them: total_findings and affected_packages are both the
    number of findings, total_kevs is the number of KEV entries over all
    findings, and ransomware_related the number of those marked for
    ransomware use. *)
Theorem json_output_summary_agrees_with_the_findings (findings : list Finding) :
  let output := json_output findings in
  Findings output = map to_jsonFinding findings
  /\ TotalFindings (Summary output) = length findings
  /\ AffectedPackages (Summary output) = length findings
  /\ TotalKEVs (Summary output) = length (flat_map f_KEVs (Findings output))
  /\ TotalKEVs (Summary output) = total_kevs findings
  /\ RansomwareRelated (Summary output)
     = length (List.filter k_RansomwareUse (flat_map f_KEVs (Findings output)))
  /\ RansomwareRelated (Summary output) <= TotalKEVs (Summary output).
Proof.
  destruct (foldl_json_finding_step findings
              {| Summary := {| TotalFindings := length findings; TotalKEVs := 0;
                               RansomwareRelated := 0;
                               AffectedPackages := length findings |};
                 Findings := [] |}) as (H1 & H2 & H3 & H4 & H5).
  cbv zeta. unfold reporter.json_output. rewrite H1, H2, H3, H4, H5. cbn [Summary Findings].
  rewrite app_nil_l, flat_map_to_jsonFinding, length_map, length_filter_to_jsonKEV,
    <- total_kevs_flat_map.
  pose proof (List.filter_length_le RansomwareUse (flat_map KEVs findings)).
  rewrite <- total_kevs_flat_map in *. simpl. repeat split; lia.
Qed.

(** *** SARIF *)

Lemma rule_map_flat (findings : list Finding) :
  forall ruleMap,
    foldl (fun ruleMap f => foldl add_rule ruleMap (KEVs f)) ruleMap findings
    = foldl add_rule ruleMap (flat_map KEVs findings).
Proof.
  induction findings as [|f findings IH]; intros ruleMap; [done|].
  cbn [foldl flat_map]. by rewrite IH, foldl_app.
Qed.

Lemma foldl_add_rule (kevs : list KEVInfo) :
  forall ruleMap,
    let m := foldl add_rule ruleMap kevs in
    (forall c, is_Some (m !! c)
               <-> is_Some (ruleMap !! c) \/ exists kev, kev ∈ kevs /\ CVEID kev = c)
    /\ (forall c rule, m !! c = Some rule ->
                       ruleMap !! c = Some rule
                       \/ exists kev, kev ∈ kevs /\ CVEID kev = c /\ rule = rule_of kev).
Proof.
  induction kevs as [|kev kevs IH]; intros ruleMap; cbn [foldl].
  - split.
    + intros c. split; [by left|]. intros [H|(kev & Hin & _)]; [done|].
      by apply elem_of_nil in Hin.
    + intros c rule H. by left.
  - destruct (IH (add_rule ruleMap kev)) as [Hdom Hval]. cbv zeta. split.
    + intros c. rewrite Hdom. unfold reporter.add_rule.
      destruct (ruleMap !! CVEID kev) as [rule0|] eqn:Hold.
      * split.
        -- intros [H|(kev' & Hin & Hc)]; [by left|]. right. exists kev'. split; [|done].
           apply elem_of_cons. by right.
        -- intros [H|(kev' & Hin & Hc)]; [by left|].
           apply elem_of_cons in Hin as [->|Hin].
           ++ left. subst c. by rewrite Hold.
           ++ right. by exists kev'.
      * split.
        -- intros [H|(kev' & Hin & Hc)].
           ++ destruct (decide (c = CVEID kev)) as [->|Hne].
              ** right. exists kev. split; [|done]. apply elem_of_cons. by left.
              ** left. by rewrite lookup_insert_ne in H.
           ++ right. exists kev'. split; [|done]. apply elem_of_cons. by right.
        -- intros [H|(kev' & Hin & Hc)].
           ++ left. destruct (decide (c = CVEID kev)) as [->|Hne].
              ** rewrite lookup_insert_eq. by eexists.
              ** by rewrite lookup_insert_ne.
           ++ apply elem_of_cons in Hin as [->|Hin].
              ** left. subst c. rewrite lookup_insert_eq. by eexists.
              ** right. by exists kev'.
    + intros c rule Hlook. destruct (Hval c rule Hlook) as [H|(kev' & Hin & Hc & Hrule)].
      * unfold reporter.add_rule in H.
        destruct (ruleMap !! CVEID kev) as [rule0|] eqn:Hold; [by left|].
        destruct (decide (c = CVEID kev)) as [->|Hne].
        -- rewrite lookup_insert_eq in H. injection H as <-. right. exists kev.
           split; [|done]. apply elem_of_cons. by left.
        -- rewrite lookup_insert_ne in H by done. by left.
      * right. exists kev'. split; [|done]. apply elem_of_cons. by right.
Qed.

Lemma rule_map_spec (findings : list Finding) :
  (forall c, is_Some (rule_map findings !! c)
             <-> exists f kev, f ∈ findings /\ kev ∈ KEVs f /\ CVEID kev = c)
  /\ (forall c rule, rule_map findings !! c = Some rule -> r_ID rule = c).
Proof.
  unfold reporter.rule_map. rewrite rule_map_flat.
  destruct (foldl_add_rule (flat_map KEVs findings) ∅) as [Hdom Hval]. split.
  - intros c. rewrite Hdom. split.
    + intros [[rule H]|(kev & Hin & Hc)]; [by rewrite lookup_empty in H|].
      apply list_elem_of_In, in_flat_map in Hin as (f & Hf & Hin).
      exists f, kev. by rewrite !list_elem_of_In.
    + intros (f & kev & Hf & Hin & Hc). right. exists kev. split; [|done].
      apply list_elem_of_In, in_flat_map. exists f. by rewrite <- !list_elem_of_In.
  - intros c rule Hlook. destruct (Hval c rule Hlook) as [H|(kev & _ & Hc & ->)].
    + by rewrite lookup_empty in H.
    + exact Hc.
Qed.

Lemma foldl_index_step (visit : list (string * sarifRule)) :
  forall rules ruleIndexMap,
    NoDup visit.*1 ->
    let r := foldl index_step (rules, ruleIndexMap) visit in
    r.1 = rules ++ visit.*2
    /\ (forall i c rule, visit !! i = Some (c, rule) -> r.2 !! c = Some (length rules + i))
    /\ (forall c, c ∉ visit.*1 -> r.2 !! c = ruleIndexMap !! c).
Proof.
  induction visit as [|[c0 rule0] visit IH]; intros rules ruleIndexMap Hnodup; cbn [foldl].
  - simpl. rewrite app_nil_r. split; [done|]. split; [|done]. intros i c rule H.
    by rewrite lookup_nil in H.
  - apply NoDup_cons in Hnodup as [Hfresh Hnodup].
    change (index_step (rules, ruleIndexMap) (c0, rule0))
      with (rules ++ [rule0], <[c0 := length rules]> ruleIndexMap).
    destruct (IH (rules ++ [rule0]) (<[c0 := length rules]> ruleIndexMap) Hnodup)
      as (Hrules & Hat & Hother).
    cbv zeta. split; [|split].
    + rewrite Hrules. by rewrite <- app_assoc.
    + intros [|i] c rule Hi.
      * injection Hi as <- <-. rewrite Hother by done. rewrite lookup_insert_eq.
        f_equal. lia.
      * rewrite (Hat i c rule Hi). rewrite length_app. simpl. f_equal. lia.
    + intros c Hc. rewrite fmap_cons in Hc. apply not_elem_of_cons in Hc as [Hne Hc].
      rewrite Hother by done. by rewrite lookup_insert_ne.
Qed.

Lemma buildResults_loop (ruleIndexMap : gmap string nat) (findings : list Finding) :
  forall results,
    foldl (fun results f =>
             foldl (fun results kev => results ++ [result_of ruleIndexMap f kev])
                   results (KEVs f))
          results findings
    = results ++ flat_map (fun f => map (result_of ruleIndexMap f) (KEVs f)) findings.
Proof.
  assert (forall kevs f results,
             foldl (fun results kev => results ++ [result_of ruleIndexMap f kev]) results kevs
             = results ++ map (result_of ruleIndexMap f) kevs) as Hinner.
  { induction kevs as [|kev kevs IH]; intros f results; simpl; [by rewrite app_nil_r|].
    by rewrite IH, <- app_assoc. }
  induction findings as [|f findings IH]; intros results; simpl; [by rewrite app_nil_r|].
  by rewrite IH, Hinner, <- app_assoc.
Qed.

(** X29. However Go orders the rule map, the SARIF report is
    consistent: each result's ruleIndex is the position, in the rule
    list, of the rule whose id is the result's ruleId; the rule list has
    one rule per distinct CVE ID among the findings' KEV entries and no
    other; and there is one result per KEV entry of each finding. *)
Theorem SARIF_rule_index_points_at_the_rule
        (range : gmap string sarifRule -> list (string * sarifRule))
        (findings : list Finding)
        (Hrange : range (rule_map findings) ≡ₚ map_to_list (rule_map findings)) :
  let rules := (buildRules range findings).1 in
  let ruleIndexMap := (buildRules range findings).2 in
  let results := buildResults findings ruleIndexMap in
  (forall res, res ∈ results ->
               exists rule, rules !! RuleIndex res = Some rule /\ r_ID rule = RuleID res)
  /\ NoDup (r_ID <$> rules)
  /\ (forall c, c ∈ r_ID <$> rules
                <-> exists f kev, f ∈ findings /\ kev ∈ KEVs f /\ CVEID kev = c)
  /\ length results = total_kevs findings.
Proof.
  destruct (rule_map_spec findings) as [Hdom Hid].
  cbv zeta. unfold reporter.buildRules, reporter.buildResults.
  set (visit := range (rule_map findings)) in *.
  assert (forall c rule, (c, rule) ∈ visit <-> rule_map findings !! c = Some rule) as Hvisit.
  { intros c rule. rewrite Hrange. apply elem_of_map_to_list. }
  assert (NoDup visit.*1) as Hnodup.
  { rewrite Hrange. apply NoDup_fst_map_to_list. }
  assert (r_ID <$> visit.*2 = visit.*1) as Hids.
  { rewrite <- list_fmap_compose. apply list_fmap_ext. intros i [c rule] Hi. simpl.
    apply Hid, Hvisit. by apply list_elem_of_lookup_2 in Hi. }
  destruct (foldl_index_step visit [] ∅ Hnodup) as (Hrules & Hat & _).
  cbv zeta in Hrules, Hat.
  rewrite Hrules, app_nil_l, buildResults_loop, app_nil_l.
  split; [|split; [|split]].
  - intros res Hres. apply list_elem_of_In, in_flat_map in Hres as (f & Hf & Hres).
    apply in_map_iff in Hres as (kev & <- & Hkev).
    unfold reporter.result_of. cbn [RuleID RuleIndex].
    destruct (proj2 (Hdom (CVEID kev))) as [rule Hrule].
    { exists f, kev. by rewrite !list_elem_of_In. }
    pose proof (proj2 (Hvisit _ _) Hrule) as Hin.
    apply list_elem_of_lookup_1 in Hin as [i Hi].
    rewrite (Hat i _ _ Hi). simpl. exists rule. split; [|by apply Hid].
    by rewrite list_lookup_fmap, Hi.
  - by rewrite Hids.
  - intros c. rewrite Hids, <- Hdom. rewrite list_elem_of_fmap. split.
    + intros ([c' rule] & -> & Hin). exists rule. by apply Hvisit.
    + intros [rule Hrule]. exists (c, rule). split; [done|]. by apply Hvisit.
  - rewrite total_kevs_flat_map. generalize (foldl index_step ([], ∅) visit).2.
    intros ruleIndexMap. clear. induction findings as [|f fs IH]; [done|].
    cbn [flat_map]. by rewrite !length_app, length_map, IH.
Qed.

End report_facts.

(** ** The properties at work *)
Section more_instances.
Import scanner example example_more.

Local Abbreviation by_map_order := (map_to_list : gmap nat (list CVEInfo) -> _).

Lemma per_query_bounded (queries : list osv.osvQuery) (status : Z)
      (batchResp : osv.osvBatchResponse) :
  osv.per_query respond queries = Reply status (Ok batchResp) ->
  length batchResp <= length queries.
Proof. intros [= _ <-]. by rewrite length_map. Qed.

Lemma by_map_order_ok : range_order_ok by_map_order.
Proof. by intros m. Qed.

Lemma version_is_plain (op : string) :
  op ∈ parsers.operator_starts -> String.prefix op "1.2.3" = false.
Proof.
  unfold parsers.operator_starts. intros Hop.
  repeat (apply elem_of_cons in Hop as [->|Hop]); try reflexivity.
  by apply elem_of_nil in Hop.
Qed.

(** X3 at work: the OSV service is down. *)
Lemma QueryBatch_fails_when_a_chunk_fails_instance :
  exists e, osv.QueryBatch osv_down deps = Err e.
Proof.
  apply (QueryBatch_fails_when_a_chunk_fails osv_down deps 0
           (ErrLib "dial tcp: connection refused")).
  - vm_compute. lia.
  - vm_compute. reflexivity.
Defined.

(** X4 at work: the keys 0 and 2 of the three dependencies. *)
Lemma QueryBatch_keys_index_the_dependencies_instance :
  is_Some (cvesByDep !! 2) /\ 2 < length deps.
Proof.
  assert (is_Some (cvesByDep !! 2)) as Hkey by (vm_compute; eauto).
  split; [exact Hkey|].
  apply (QueryBatch_keys_index_the_dependencies (osv.per_query respond) deps cvesByDep
           per_query_bounded); [vm_compute; reflexivity|exact Hkey].
Defined.

(** X8 at work: a fresh file that cannot be read is a miss. *)
Lemma Get_hit_iff_present_fresh_and_readable_instance :
  let read_error := fun _ : string => Some (ErrLib "open: permission denied") in
  let fs := (cache.Set_ sha256_Sum256 hex_EncodeToString filepath_Join
               the_cache empty_disk 1000%Z kev.kevURL document).2 in
  cache.Get sha256_Sum256 hex_EncodeToString filepath_Join the_cache fs 2000%Z kev.kevURL
  = (document, true)
  /\ cache_io.Get sha256_Sum256 hex_EncodeToString filepath_Join read_error
                  the_cache fs 2000%Z kev.kevURL = ([], false).
Proof.
  intros read_error fs. split; [vm_compute; reflexivity|].
  destruct (Get_hit_iff_present_fresh_and_readable sha256_Sum256 hex_EncodeToString
              filepath_Join read_error the_cache fs 2000%Z kev.kevURL [])
    as (_ & Hmiss & Hnil & _).
  assert ((cache_io.Get sha256_Sum256 hex_EncodeToString filepath_Join read_error
                        the_cache fs 2000%Z kev.kevURL).2 = false) as Hfalse.
  { apply Hmiss. right. exists {| cache.data := document; cache.modTime := 1000%Z |}.
    split; [vm_compute; reflexivity|]. right. by eexists. }
  specialize (Hnil Hfalse).
  destruct (cache_io.Get _ _ _ _ _ _ _ _) as [bytes found]. simpl in *. by subst.
Defined.

(** X9 at work: a write that fails after the first byte leaves a file
    of one byte, which [Get] then serves as a hit. *)
Lemma Set_affects_only_its_file_instance :
  let read_error := fun _ : string => @None error in
  let write_to :=
    fun _ : string => cache_io.WriteFailed 1 (ErrLib "write: no space left on device") in
  let Set_io := cache_io.Set_ sha256_Sum256 hex_EncodeToString filepath_Join write_to in
  let Get_io := cache_io.Get sha256_Sum256 hex_EncodeToString filepath_Join read_error in
  (Set_io the_cache empty_disk 1000%Z kev.kevURL document).1
  = Some (ErrLib "write: no space left on device")
  /\ Get_io the_cache (Set_io the_cache empty_disk 1000%Z kev.kevURL document).2
             2000%Z kev.kevURL
     = (take 1 document, true).
Proof.
  intros read_error write_to Set_io Get_io.
  destruct (Set_affects_only_its_file sha256_Sum256 hex_EncodeToString filepath_Join
              read_error write_to the_cache empty_disk 1000%Z kev.kevURL document)
    as (_ & _ & _ & _ & Htruncated & _).
  destruct (Htruncated 1 (ErrLib "write: no space left on device") eq_refl)
    as (Herr & _ & Hget).
  split; [exact Herr|].
  apply Hget; [reflexivity | vm_compute; discriminate | reflexivity].
Defined.

(** X10 at work: a cache made with TTL 0 serves a value 1000 ns old. *)
Lemma New_default_TTL_is_24_hours_instance :
  let c := {| cache.Dir := "/home/user/.cache/kev-checker"; cache.TTL := cache.DefaultTTL |} in
  let fs' := (cache.Set_ sha256_Sum256 hex_EncodeToString filepath_Join
                c empty_disk 1000%Z kev.kevURL document).2 in
  cache.New filepath_Join (Ok "/home/user") (fun _ => None) "kev-checker" 0%Z = Ok c
  /\ cache.Get sha256_Sum256 hex_EncodeToString filepath_Join c fs' 2000%Z kev.kevURL
     = (document, true).
Proof.
  intros c fs'.
  assert (cache.New filepath_Join (Ok "/home/user") (fun _ => None) "kev-checker" 0%Z = Ok c)
    as Hnew by (vm_compute; reflexivity).
  split; [exact Hnew|].
  apply (New_default_TTL_is_24_hours sha256_Sum256 hex_EncodeToString filepath_Join
           (Ok "/home/user") (fun _ => None) "kev-checker" c empty_disk fs'
           1000%Z 2000%Z kev.kevURL document Hnew);
    [vm_compute; reflexivity | vm_compute; split; discriminate | lia].
Defined.

(** X11 at work: after a download into an empty cache, the catalog comes
    from the cache although the service is down. *)
Lemma FetchKEVCatalog_second_call_uses_the_cache_instance :
  let FetchKEVCatalog :=
    kev.FetchKEVCatalog json_Unmarshal time_Parse sha256_Sum256 hex_EncodeToString
                        filepath_Join in
  let up := fun _ : string => Reply StatusOK (Ok document) in
  let down := fun _ : string => TransportError (ErrLib "dial tcp: connection refused") in
  let fs' := (FetchKEVCatalog (Some the_cache) empty_disk 1000%Z up).2 in
  FetchKEVCatalog (Some the_cache) fs' 2000%Z down
  = (kev.parseKEVData json_Unmarshal time_Parse document, fs').
Proof.
  intros FetchKEVCatalog up down fs'.
  apply (FetchKEVCatalog_second_call_uses_the_cache json_Unmarshal time_Parse
           sha256_Sum256 hex_EncodeToString filepath_Join
           the_cache empty_disk 1000%Z up document);
    [vm_compute; reflexivity .. | vm_compute; discriminate].
Defined.

(** X14 at work: against a service that answers query by query the scan
    does not panic. *)
Lemma Scan_panics_only_on_out_of_range_OSV_index_instance :
  run_outcome (Scan (the_scanner f64_zero) (world deps epss_up by_map_order))
  = Returned (returned (Scan (the_scanner f64_zero) (world deps epss_up by_map_order)))
  /\ run_outcome (Scan (the_scanner f64_zero) (world deps epss_up by_map_order)) <> Panicked.
Proof.
  split; [vm_compute; reflexivity|].
  apply (Scan_panics_only_on_out_of_range_OSV_index json_Unmarshal time_Parse
           strconv_ParseFloat sha256_Sum256 hex_EncodeToString filepath_Join
           (the_scanner f64_zero) (world deps epss_up by_map_order) by_map_order_ok).
  exact per_query_bounded.
Defined.

(** X15 at work: the two findings of the scan of django, requests and
    lodash. *)
Lemma Scan_findings_are_consistent_instance :
  let result := returned (Scan (the_scanner f64_zero) (world deps epss_up by_map_order)) in
  length result = 2
  /\ Forall (fun f => Dep f ∈ deps) result
  /\ length result <= length deps.
Proof.
  intros result.
  destruct (Scan_findings_are_consistent json_Unmarshal time_Parse
              strconv_ParseFloat sha256_Sum256 hex_EncodeToString filepath_Join
              (the_scanner f64_zero) (world deps epss_up by_map_order) result)
    as [Hfindings Hlength]; [vm_compute; reflexivity|].
  split; [vm_compute; reflexivity|]. split.
  - apply Forall_forall. intros f Hf. destruct (Hfindings f Hf) as [(deps' & [= <-] & Hdep) _].
    exact Hdep.
  - by apply (Hlength by_map_order_ok deps).
Defined.

(** X16 at work: under the threshold 0.5 the scan keeps django's entry,
    whose score is 0.5, and drops lodash's, which has no score. *)
Lemma Scan_reports_only_scores_at_or_above_the_threshold_instance :
  let result := returned (Scan (the_scanner half) (world deps epss_up by_map_order)) in
  length result = 1
  /\ Forall (fun f => Forall (fun k => f64_ge (EPSSScore k) half = true) (KEVs f)) result.
Proof.
  intros result. split; [vm_compute; reflexivity|].
  apply Forall_forall. intros f Hf. apply Forall_forall. intros k Hk.
  assert (run_outcome (Scan (the_scanner half) (world deps epss_up by_map_order))
          = Returned result) as Hret by (vm_compute; reflexivity).
  assert (f64_gt (EPSSThreshold (config (the_scanner half))) f64_zero = true) as Hpos
      by (vm_compute; reflexivity).
  exact (Scan_reports_only_scores_at_or_above_the_threshold json_Unmarshal time_Parse
           strconv_ParseFloat sha256_Sum256 hex_EncodeToString filepath_Join
           (the_scanner half) (world deps epss_up by_map_order) result Hret Hpos f k Hf Hk).
Defined.

(** X17 at work: under the threshold 0.5 and with the EPSS service down
    the scan reports nothing. *)
Lemma positive_threshold_reports_only_entries_with_an_EPSS_row_instance :
  run_outcome (Scan (the_scanner half) (world deps epss_down by_map_order))
  = Returned (returned (Scan (the_scanner half) (world deps epss_down by_map_order)))
  /\ returned (Scan (the_scanner half) (world deps epss_down by_map_order)) = [].
Proof.
  assert (run_outcome (Scan (the_scanner half) (world deps epss_down by_map_order))
          = Returned (returned (Scan (the_scanner half) (world deps epss_down by_map_order))))
    as Hret by (vm_compute; reflexivity).
  split; [exact Hret|].
  apply (positive_threshold_reports_only_entries_with_an_EPSS_row json_Unmarshal time_Parse
           strconv_ParseFloat sha256_Sum256 hex_EncodeToString filepath_Join
           (the_scanner half) (world deps epss_down by_map_order) _ Hret);
    [vm_compute; reflexivity|]. intros i url. reflexivity.
Defined.

(** X22 at work: the directory [project] gives the requirement of its
    go.mod; as a symbolic link to that directory it gives nothing. *)
Lemma discoverDependencies_stops_at_the_first_failing_path_instance :
  let discoverDependencies := fun is_symlink =>
    discovery.discoverDependencies filepath_Join filepath_Base (fun path => path)
                                   registered_text is_symlink
                                   (scanner_at ["project"%string]) stat_project in
  discoverDependencies (fun _ => false)
  = Ok [dep "golang.org/x/text" "0.3.7" "Go" "project/go.mod"]
  /\ discoverDependencies (fun _ => true) = Ok [].
Proof.
  intros discoverDependencies. split.
  - destruct (discoverDependencies_stops_at_the_first_failing_path filepath_Join
                filepath_Base (fun path => path) registered_text (fun _ => false)
                (scanner_at ["project"%string]) stat_project) as (_ & Hok & _).
    subst discoverDependencies. cbv beta. rewrite Hok; [vm_compute; reflexivity|].
    repeat constructor.
  - destruct (discoverDependencies_stops_at_the_first_failing_path filepath_Join
                filepath_Base (fun path => path) registered_text (fun _ => true)
                (scanner_at ["project"%string]) stat_project) as (_ & Hok & _).
    subst discoverDependencies. cbv beta. rewrite Hok; [vm_compute; reflexivity|].
    repeat constructor.
Defined.

(** X23 at work: a malformed go.mod ends the discovery when it is a
    configured path and is passed over inside a walked directory. *)
Lemma parse_error_is_fatal_only_for_a_configured_file_instance :
  let stat := fun path : string =>
    if String.eqb path "project/go.mod" then Ok (discovery.File (Ok document))
    else if String.eqb path "project"
         then Ok (discovery.Dir (Ok [("go.mod"%string, discovery.File (Ok document))]))
         else Err (ErrLib "stat: no such file or directory") in
  let discover_loop :=
    discovery.discover_loop filepath_Join filepath_Base (fun path => path) registered
                            (fun _ => false) in
  discover_loop stat ["project/go.mod"%string] []
  = Err (ErrLib "go.mod: malformed module path")
  /\ discover_loop stat ["project"%string] [] = Ok [].
Proof.
  intros stat discover_loop.
  destruct (parse_error_is_fatal_only_for_a_configured_file filepath_Join filepath_Base
              (fun path => path) registered (fun _ => false) stat
              "project/go.mod" "go.mod" (Ok document)
              (ErrLib "go.mod: malformed module path") [] [])
    as (Hfile & _ & Hdir); [vm_compute; reflexivity|].
  split.
  - apply Hfile. vm_compute. reflexivity.
  - apply (Hdir "project"%string "go.mod"%string); vm_compute; reflexivity.
Defined.

(** X26 at work: the range >=1.2.3. *)
Lemma cleanNpmVersion_strips_the_range_operator_instance :
  parsers.cleanNpmVersion ">=1.2.3" = "1.2.3"%string.
Proof.
  destruct (cleanNpmVersion_strips_the_range_operator "1.2.3" version_is_plain) as [Hstrip _].
  apply (Hstrip ">="%string). set_solver.
Defined.

(** X29 at work: two findings with the same KEV entry give one rule and
    two results. *)
Lemma SARIF_rule_index_points_at_the_rule_instance :
  let rules := (reporter.buildRules time_Format map_to_list findings_twice).1 in
  let ruleIndexMap := (reporter.buildRules time_Format map_to_list findings_twice).2 in
  let results := reporter.buildResults fmt_EPSS findings_twice ruleIndexMap in
  length rules = 1
  /\ length results = 2
  /\ NoDup (reporter.r_ID <$> rules)
  /\ Forall (fun res => exists rule, rules !! reporter.RuleIndex res = Some rule
                                     /\ reporter.r_ID rule = reporter.RuleID res) results.
Proof.
  intros rules ruleIndexMap results.
  destruct (SARIF_rule_index_points_at_the_rule time_Format fmt_EPSS map_to_list
              findings_twice ltac:(reflexivity)) as (Hindex & Hnodup & _ & _).
  split; [vm_compute; reflexivity|]. split; [vm_compute; reflexivity|].
  split; [exact Hnodup|]. apply Forall_forall. exact Hindex.
Defined.

End more_instances.
